(** * A Huffman codec for 16-bit PCM samples: encoder.cpp and decoder.cpp

    Shallow embedding of the two programs and verification of the
    properties their specification states.

    Part I embeds the programs function by function, under the names of
    the source, and gives the vocabulary of the statements.  Part II
    proves the facts about bit packing, the decoder's tree, the priority
    queue, the shape and the optimality of the encoder's tree.  Part III
    states the properties of the specification, C1 to C10, each against
    the embedding.  Part IV takes the programs down to the bytes of their
    files and states further properties of the code, X1 to X25.

    Conventions of the embedding
    - [int16_t], [int], [size_t] and [uint32_t] values are integers of [Z]
      (or [nat] for indices and lengths).  The [int] counts cannot
      overflow on what [readWavFile] returns (section [IntRange]); the
      narrowing conversion [uint32_t encodedDataSize = encodedData.size()]
      is written out as a reduction modulo [2^32].
    - [std::string] is [list ascii]; a bit is the character ["0"] or ["1"].
    - [std::map<int16_t, V>] is a list of bindings kept in increasing key
      order without repeated keys, which is the order its iterators visit.
    - [HuffmanNode*] is a tree whose constructor [nullptr] is the null
      pointer; the trees of both programs are never shared, so a pointer is
      the tree it points to.
    - [std::priority_queue] is the adaptor of the C++ standard over a
      vector and the two heap algorithms [std::push_heap], [std::pop_heap];
      the algorithms are a parameter, constrained only by the contract the
      standard gives them, since the order in which nodes of equal
      frequency leave the queue is left to the library.
    - Operations whose behaviour is undefined (reading [top()] of an empty
      queue, following a null pointer) and the uncaught [std::out_of_range]
      of [std::map::at] are results of their own.
    - A file is the list of its bytes.  Integers lie in it least
      significant byte first, as on the hosts the programs are built for;
      [read] stores the bytes the stream still has and leaves the rest of
      its buffer untouched.  Evaluating an integer that [read] did not
      fill, and storing past the end of a buffer, are undefined.  Memory
      is never short, and what the programs print is left out. *)

From Stdlib Require Import ZArith List Lia Bool Ascii Permutation Arith.
From Stdlib Require Import Sorting.Sorted ZifyNat.
Import ListNotations.
Open Scope Z_scope.

(* ===================================================================== *)
(** * Part I. The programs *)
(* ===================================================================== *)

(** ** What a run can end in *)

Inductive outcome (A : Type) : Type :=
| Ok (a : A)          (* normal completion with a value *)
| OutOfRange          (* std::out_of_range thrown by map::at, never caught *)
| Undefined           (* undefined behaviour: top() of an empty queue,
                         a member read through a null pointer *)
| Diverges.           (* the loop budget of the model ran out *)

Arguments Ok {A} a.
Arguments OutOfRange {A}.
Arguments Undefined {A}.
Arguments Diverges {A}.

Definition bind {A B : Type} (x : outcome A) (f : A -> outcome B) : outcome B :=
  match x with
  | Ok a => f a
  | OutOfRange => OutOfRange
  | Undefined => Undefined
  | Diverges => Diverges
  end.

Notation "x <- e1 ;; e2" := (bind e1 (fun x => e2))
  (at level 61, e1 at next level, right associativity).

(** ** std::map with integer keys *)

Module StdMap.

Definition t (V : Type) : Type := list (Z * V).

Definition empty {V : Type} : t V := [].

(** [m.find(k)] / [m.at(k)]: the value bound to [k], if any. *)
Fixpoint find {V : Type} (k : Z) (m : t V) : option V :=
  match m with
  | [] => None
  | (k', v) :: m' => if k =? k' then Some v else find k m'
  end.

(** [m[k] = v]: bind [k] to [v], replacing an older binding. *)
Fixpoint set {V : Type} (k : Z) (v : V) (m : t V) : t V :=
  match m with
  | [] => [(k, v)]
  | (k', v') :: m' =>
      if k <? k' then (k, v) :: m
      else if k =? k' then (k, v) :: m'
      else (k', v') :: set k v m'
  end.

(** [m.at(k)]: throws when [k] has no binding. *)
Definition at_ {V : Type} (k : Z) (m : t V) : outcome V :=
  match find k m with
  | Some v => Ok v
  | None => OutOfRange
  end.

(** [m[k]] read as an rvalue: a missing key is first bound to the
    value-initialised [dflt]. *)
Definition get_or {V : Type} (dflt : V) (k : Z) (m : t V) : V :=
  match find k m with
  | Some v => v
  | None => dflt
  end.

Definition keys {V : Type} (m : t V) : list Z := map fst m.

Definition size {V : Type} (m : t V) : nat := length m.

(** The representation invariant: keys strictly increasing. *)
Definition wf {V : Type} (m : t V) : Prop := StronglySorted Z.lt (keys m).

End StdMap.

(** ** Characters, bit strings, bytes *)

Abbreviation cstring := (list ascii) (only parsing).

Definition ch0 : ascii := "0"%char.
Definition ch1 : ascii := "1"%char.

Definition is_bit (c : ascii) : Prop := c = ch0 \/ c = ch1.
Definition bit_string (s : cstring) : Prop := Forall is_bit s.

(** [a] is a prefix of [b]. *)
Definition is_prefix (a b : cstring) : Prop := exists c, b = a ++ c.

Definition two32 : Z := 2 ^ 32.

(** Conversion of a [size_t] to [uint32_t]. *)
Definition to_uint32 (n : nat) : Z := Z.of_nat n mod two32.

(** [std::bitset<8>]: an integer below 256; [b[i] = v] and [b[i]]. *)
Definition bitset_assign (b : Z) (i : nat) (v : bool) : Z :=
  if v then Z.setbit b (Z.of_nat i) else Z.clearbit b (Z.of_nat i).

Definition bitset_get (b : Z) (i : nat) : bool := Z.testbit b (Z.of_nat i).

(** The 44-byte header both programs copy verbatim. *)
Record WavHeader : Type := {
  riff : list ascii;
  overall_size : Z;
  wave : list ascii;
  fmt_chunk_marker : list ascii;
  length_of_fmt : Z;
  format_type : Z;
  channels : Z;
  sample_rate : Z;
  byterate : Z;
  block_align : Z;
  bits_per_sample : Z;
  data_chunk_header : list ascii;
  data_size : Z
}.

(** What the encoder writes and the decoder reads back: the header, the
    code table, the 32-bit bit count and the packed bytes.  The table is
    carried as the map itself; its layout in the file (a count, then the
    sample, the code length and the characters of every entry, in key
    order) is [file_layout] below. *)
Record EncodedFile : Type := {
  file_header : WavHeader;
  file_codes : StdMap.t cstring;
  file_bit_count : Z;
  file_bytes : list Z
}.

(** ** encoder.cpp *)

Module Encoder.

Inductive HuffmanNode : Type :=
| nullptr
| Node (sample : Z) (frequency : Z) (left right : HuffmanNode).

(** [new HuffmanNode(sample, frequency)]. *)
Definition new_node (sample frequency : Z) : HuffmanNode :=
  Node sample frequency nullptr nullptr.

Definition frequency_of (n : HuffmanNode) : Z :=
  match n with
  | nullptr => 0
  | Node _ f _ _ => f
  end.

(** [Compare::operator()]. *)
Definition Compare (l r : HuffmanNode) : bool :=
  frequency_of l >? frequency_of r.

(** [calculateFrequencies]: one [frequencies[sample]++] per sample. *)
Definition count_sample (frequencies : StdMap.t Z) (sample : Z) : StdMap.t Z :=
  StdMap.set sample (StdMap.get_or 0 sample frequencies + 1) frequencies.

Definition calculateFrequencies (audioData : list Z) : StdMap.t Z :=
  fold_left count_sample audioData StdMap.empty.

(** The two heap algorithms the priority queue is built on. *)
Record HeapAlgorithms : Type := {
  push_heap : list HuffmanNode -> list HuffmanNode;
  pop_heap : list HuffmanNode -> list HuffmanNode
}.

(** A range is a heap with respect to [Compare] when no element compares
    below its parent: [!comp(v[(i-1)/2], v[i])]. *)
Definition is_heap (v : list HuffmanNode) : Prop :=
  forall i : nat, (0 < i < length v)%nat ->
    Compare (nth ((i - 1) / 2) v nullptr) (nth i v nullptr) = false.

(** The contract of the standard for the two algorithms:
    [push_heap] places the last element into the heap made by the others;
    [pop_heap] moves the first element to the last position and makes the
    others into a heap. *)
Record conforming (H : HeapAlgorithms) : Prop := {
  push_heap_perm : forall v x,
    is_heap v -> Permutation (push_heap H (v ++ [x])) (v ++ [x]);
  push_heap_heap : forall v x,
    is_heap v -> is_heap (push_heap H (v ++ [x]));
  pop_heap_spec : forall x v,
    is_heap (x :: v) ->
    exists v', pop_heap H (x :: v) = v' ++ [x] /\ Permutation v' v /\ is_heap v'
}.

Section PriorityQueue.

Variable H : HeapAlgorithms.

(** [std::priority_queue<HuffmanNode*, std::vector<HuffmanNode*>, Compare>]:
    the state is the underlying vector. *)
Definition pq_push (x : HuffmanNode) (c : list HuffmanNode) : list HuffmanNode :=
  push_heap H (c ++ [x]).

Definition pq_pop (c : list HuffmanNode) : list HuffmanNode :=
  removelast (pop_heap H c).

Definition pq_top (c : list HuffmanNode) : outcome HuffmanNode :=
  match c with
  | [] => Undefined
  | x :: _ => Ok x
  end.

(** The first loop of [buildHuffmanTree]: one leaf per binding, in key
    order. *)
Definition push_leaves (frequencies : StdMap.t Z) : list HuffmanNode :=
  fold_left (fun heap pair => pq_push (new_node (fst pair) (snd pair)) heap)
            frequencies [].

(** One iteration of [while (minHeap.size() > 1)]. *)
Definition merge_step (minHeap : list HuffmanNode) : outcome (list HuffmanNode) :=
  left_ <- pq_top minHeap ;;
  let minHeap1 := pq_pop minHeap in
  right_ <- pq_top minHeap1 ;;
  let minHeap2 := pq_pop minHeap1 in
  let combined :=
    Node (-1) (frequency_of left_ + frequency_of right_) left_ right_ in
  Ok (pq_push combined minHeap2).

Fixpoint merge_loop (fuel : nat) (minHeap : list HuffmanNode)
  : outcome (list HuffmanNode) :=
  if (1 <? length minHeap)%nat then
    match fuel with
    | O => Diverges
    | S fuel' => minHeap' <- merge_step minHeap ;; merge_loop fuel' minHeap'
    end
  else Ok minHeap.

(** [buildHuffmanTree].  Every iteration of a conforming queue shrinks
    it by one node, so its size is budget enough. *)
Definition buildHuffmanTree (frequencies : StdMap.t Z) : outcome HuffmanNode :=
  let minHeap := push_leaves frequencies in
  minHeap' <- merge_loop (length minHeap) minHeap ;;
  pq_top minHeap'.

End PriorityQueue.

(** [generateCodes]: the table is the in-out parameter. *)
Fixpoint generateCodes (root : HuffmanNode) (str : cstring)
         (huffmanCodes : StdMap.t cstring) : StdMap.t cstring :=
  match root with
  | nullptr => huffmanCodes
  | Node sample _ left_ right_ =>
      let huffmanCodes1 :=
        if negb (sample =? -1) then StdMap.set sample str huffmanCodes
        else huffmanCodes in
      let huffmanCodes2 := generateCodes left_ (str ++ [ch0]) huffmanCodes1 in
      generateCodes right_ (str ++ [ch1]) huffmanCodes2
  end.

(** [encodeAudioData]: [encodedData += huffmanCodes.at(sample)]. *)
Fixpoint encodeAudioData (audioData : list Z) (huffmanCodes : StdMap.t cstring)
  : outcome cstring :=
  match audioData with
  | [] => Ok []
  | sample :: rest =>
      code <- StdMap.at_ sample huffmanCodes ;;
      tail <- encodeAudioData rest huffmanCodes ;;
      Ok (code ++ tail)
  end.

(** The last loop of [saveEncodedFile]: [i] is the index of the head of
    [rest], [byte] the bitset being filled. *)
Fixpoint pack_bits (rest : cstring) (i : nat) (byte : Z) : list Z :=
  match rest with
  | [] => []
  | c :: rest' =>
      let byte' := bitset_assign byte (i mod 8) (Ascii.eqb c ch1) in
      if ((i mod 8 =? 7)%nat || match rest' with [] => true | _ => false end)%bool
      then byte' :: pack_bits rest' (S i) 0
      else pack_bits rest' (S i) byte'
  end.

(** [saveEncodedFile], without the file system. *)
Definition saveEncodedFile (header : WavHeader) (encodedData : cstring)
           (huffmanCodes : StdMap.t cstring) : EncodedFile :=
  {| file_header := header;
     file_codes := huffmanCodes;
     file_bit_count := to_uint32 (length encodedData);
     file_bytes := pack_bits encodedData 0 0 |}.

(** [main], from the samples [readWavFile] returned. *)
Definition main (H : HeapAlgorithms) (header : WavHeader) (audioData : list Z)
  : outcome EncodedFile :=
  let frequencies := calculateFrequencies audioData in
  huffmanTree <- buildHuffmanTree H frequencies ;;
  let huffmanCodes := generateCodes huffmanTree [] StdMap.empty in
  encodedData <- encodeAudioData audioData huffmanCodes ;;
  Ok (saveEncodedFile header encodedData huffmanCodes).

End Encoder.

(** ** decoder.cpp *)

Module Decoder.

Inductive HuffmanNode : Type :=
| nullptr
| Node (sample : Z) (left right : HuffmanNode).

(** [new HuffmanNode()]. *)
Definition new_node : HuffmanNode := Node (-1) nullptr nullptr.

Definition or_new (p : HuffmanNode) : HuffmanNode :=
  match p with
  | nullptr => new_node
  | _ => p
  end.

(** The inner loop of [buildHuffmanTree] followed by
    [currentNode->sample = pair.first], from [currentNode]. *)
Fixpoint insert_code (code : cstring) (sample : Z) (currentNode : HuffmanNode)
  : HuffmanNode :=
  match currentNode with
  | nullptr => nullptr
  | Node s l r =>
      match code with
      | [] => Node sample l r
      | bit :: code' =>
          if Ascii.eqb bit ch0
          then Node s (insert_code code' sample (or_new l)) r
          else Node s l (insert_code code' sample (or_new r))
      end
  end.

Definition buildHuffmanTree (huffmanCodes : StdMap.t cstring) : HuffmanNode :=
  fold_left (fun root pair => insert_code (snd pair) (fst pair) root)
            huffmanCodes new_node.

Definition is_leaf (n : HuffmanNode) : bool :=
  match n with
  | Node _ nullptr nullptr => true
  | _ => false
  end.

(** The loop of [decodeAudioData]; the result carries the node the walk
    stopped at. *)
Fixpoint decode_walk (root currentNode : HuffmanNode) (encodedData : cstring)
         (audioData : list Z) : outcome (list Z * HuffmanNode) :=
  match encodedData with
  | [] => Ok (audioData, currentNode)
  | bit :: rest =>
      match currentNode with
      | nullptr => Undefined
      | Node _ l r =>
          let next := if Ascii.eqb bit ch0 then l else r in
          match next with
          | nullptr => Undefined
          | Node s _ _ =>
              if is_leaf next
              then decode_walk root root rest (audioData ++ [s])
              else decode_walk root next rest audioData
          end
      end
  end.

Definition decodeAudioData (encodedData : cstring) (root : HuffmanNode)
  : outcome (list Z) :=
  r <- decode_walk root root encodedData [] ;; Ok (fst r).

Section ReadEncodedData.

(** What [c] holds in iteration [i] when the stream has no byte left
    to give. *)
Variable indeterminate : nat -> Z.

(** The inner loop over [j]. *)
Fixpoint push_bits (byte : Z) (j : nat) (count : nat) (encodedDataSize : nat)
         (encodedData : cstring) : cstring :=
  match count with
  | O => encodedData
  | S count' =>
      if (length encodedData <? encodedDataSize)%nat
      then push_bits byte (S j) count' encodedDataSize
             (encodedData ++ [if bitset_get byte j then ch1 else ch0])
      else encodedData
  end.

(** The outer loop, [remaining] iterations from index [i]. *)
Fixpoint read_bytes (remaining : nat) (i : nat) (file : list Z)
         (encodedDataSize : nat) (encodedData : cstring) : cstring :=
  match remaining with
  | O => encodedData
  | S remaining' =>
      let c := match file with [] => indeterminate i | b :: _ => b end in
      read_bytes remaining' (S i) (tl file) encodedDataSize
        (push_bits c 0 8 encodedDataSize encodedData)
  end.

Definition readEncodedData (file : list Z) (encodedDataSize : nat) : cstring :=
  read_bytes encodedDataSize 0 file encodedDataSize [].

(** [main], from the parsed file to what [saveWavFile] writes. *)
Definition main (f : EncodedFile) : outcome (WavHeader * list Z) :=
  let huffmanCodes := file_codes f in
  let encodedDataSize := Z.to_nat (file_bit_count f) in
  let encodedData := readEncodedData (file_bytes f) encodedDataSize in
  let huffmanTree := buildHuffmanTree huffmanCodes in
  audioData <- decodeAudioData encodedData huffmanTree ;;
  Ok (file_header f, audioData).

End ReadEncodedData.

End Decoder.

(** ** Vocabulary of the statements and proofs *)

(** The character [readEncodedData] pushes for bit [j] of [byte]. *)
Definition bit_char (byte : Z) (j : nat) : ascii :=
  if bitset_get byte j then ch1 else ch0.

(** The eight characters of a byte, then of a whole buffer. *)
Definition byte_chars (byte : Z) : cstring := map (bit_char byte) (seq 0 8).

Definition expand (file : list Z) : cstring := flat_map byte_chars file.

(** ** Paths in the decoder's tree *)

(** The node reached from [t] by the characters of [p], ["0"] to the left
    and anything else to the right, as both loops of the decoder branch. *)
Fixpoint subtree (p : cstring) (t : Decoder.HuffmanNode) : Decoder.HuffmanNode :=
  match p with
  | [] => t
  | bit :: p' =>
      match t with
      | Decoder.nullptr => Decoder.nullptr
      | Decoder.Node _ l r => subtree p' (if Ascii.eqb bit ch0 then l else r)
      end
  end.

Definition sample_of (t : Decoder.HuffmanNode) : Z :=
  match t with
  | Decoder.nullptr => -1
  | Decoder.Node s _ _ => s
  end.

Fixpoint node_count (t : Decoder.HuffmanNode) : nat :=
  match t with
  | Decoder.nullptr => 0
  | Decoder.Node _ l r => S (node_count l + node_count r)
  end.

(** ** Code tables *)

(** No code of the table is a prefix of the code of another key. *)
Definition prefix_free (codes : StdMap.t cstring) : Prop :=
  forall k1 c1 k2 c2,
    In (k1, c1) codes -> In (k2, c2) codes -> k1 <> k2 -> ~ is_prefix c1 c2.

(** A code table as the data model describes it: non-empty bit strings
    that form a prefix code. *)
Record valid_table (codes : StdMap.t cstring) : Prop := {
  vt_wf : StdMap.wf codes;
  vt_bits : forall k c, In (k, c) codes -> bit_string c;
  vt_nonempty : forall k c, In (k, c) codes -> c <> [];
  vt_prefix_free : prefix_free codes
}.

(** The bit stream of a sample sequence under a table: the codes of the
    samples, concatenated in order. *)
Inductive spells (codes : StdMap.t cstring) : list Z -> cstring -> Prop :=
| spells_nil : spells codes [] []
| spells_cons : forall k c samples bits,
    In (k, c) codes -> spells codes samples bits ->
    spells codes (k :: samples) (c ++ bits).

(** ** Binary trees over arbitrary leaves

    The shape [buildHuffmanTree] gives its result: every [combined] node
    has exactly the two children popped for it. *)

Inductive bt (A : Type) : Type :=
| Leaf (a : A)
| Br (l r : bt A).

Arguments Leaf {A} a.
Arguments Br {A} l r.

Fixpoint leaves {A : Type} (t : bt A) : list A :=
  match t with
  | Leaf a => [a]
  | Br l r => leaves l ++ leaves r
  end.

(** The code of every leaf: ["0"] appended on the way left, ["1"] on the
    way right, starting from [str]. *)
Fixpoint paths {A : Type} (t : bt A) (str : cstring) : list (A * cstring) :=
  match t with
  | Leaf a => [(a, str)]
  | Br l r => paths l (str ++ [ch0]) ++ paths r (str ++ [ch1])
  end.

(** Sum over the leaves of weight times depth, the root being at depth [d]. *)
Fixpoint cost_at {A : Type} (w : A -> Z) (d : Z) (t : bt A) : Z :=
  match t with
  | Leaf a => d * w a
  | Br l r => cost_at w (d + 1) l + cost_at w (d + 1) r
  end.

Definition cost {A : Type} (w : A -> Z) (t : bt A) : Z := cost_at w 0 t.

(** The encoder's tree for a shape whose leaves are encoder nodes. *)
Fixpoint join (t : bt Encoder.HuffmanNode) : Encoder.HuffmanNode :=
  match t with
  | Leaf n => n
  | Br l r =>
      Encoder.Node (-1)
        (Encoder.frequency_of (join l) + Encoder.frequency_of (join r))
        (join l) (join r)
  end.

(** The leaf [buildHuffmanTree] allocates for a binding of the table. *)
Definition leaf_of (pair : Z * Z) : Encoder.HuffmanNode :=
  Encoder.new_node (fst pair) (snd pair).

Definition sample_field (n : Encoder.HuffmanNode) : Z :=
  match n with
  | Encoder.nullptr => -1
  | Encoder.Node s _ _ _ => s
  end.

(** ** The merge loop as a relation

    [huffman forest t]: [t] is what is left after merging, again and
    again, two nodes of least frequency of the forest, the first one
    popped becoming the left child.  Which of several nodes of equal
    frequency is taken is left open. *)
Inductive huffman : list Encoder.HuffmanNode -> Encoder.HuffmanNode -> Prop :=
| huffman_done : forall t, huffman [t] t
| huffman_merge : forall forest t1 t2 rest t,
    Permutation forest (t1 :: t2 :: rest) ->
    (forall x, In x (t2 :: rest) ->
       Encoder.frequency_of t1 <= Encoder.frequency_of x) ->
    (forall x, In x rest ->
       Encoder.frequency_of t2 <= Encoder.frequency_of x) ->
    huffman (Encoder.Node (-1)
               (Encoder.frequency_of t1 + Encoder.frequency_of t2) t1 t2
             :: rest) t ->
    huffman forest t.

(** ** A conforming priority queue

    The vector is kept sorted by frequency, which makes it a heap.
    [push_heap] sorts the range by stable insertion, so that a new node
    goes behind the nodes of its own frequency; [pop_heap] moves the first
    element behind the sorted others. *)
Fixpoint insert_sorted (x : Encoder.HuffmanNode) (v : list Encoder.HuffmanNode)
  : list Encoder.HuffmanNode :=
  match v with
  | [] => [x]
  | y :: v' =>
      if Encoder.Compare y x then x :: v else y :: insert_sorted x v'
  end.

Definition sort_nodes (v : list Encoder.HuffmanNode) : list Encoder.HuffmanNode :=
  fold_left (fun sorted x => insert_sorted x sorted) v [].

Definition sorted_queue : Encoder.HeapAlgorithms :=
  {| Encoder.push_heap := fun v => sort_nodes v;
     Encoder.pop_heap := fun v =>
       match v with
       | [] => []
       | x :: v' => sort_nodes v' ++ [x]
       end |}.

(** At least two different samples occur in the sequence. *)
Definition two_distinct (audioData : list Z) : Prop :=
  exists a b, In a audioData /\ In b audioData /\ a <> b.

(** What [generateCodes] does at one node: the string is recorded unless
    the sample field holds -1. *)
Definition record_code (huffmanCodes : StdMap.t cstring)
           (entry : Encoder.HuffmanNode * cstring) : StdMap.t cstring :=
  if negb (sample_field (fst entry) =? -1)
  then StdMap.set (sample_field (fst entry)) (snd entry) huffmanCodes
  else huffmanCodes.

Definition entry_key (entry : Encoder.HuffmanNode * cstring) : Z :=
  sample_field (fst entry).

Definition is_leaf_node (n : Encoder.HuffmanNode) : Prop :=
  exists s f, n = Encoder.new_node s f.

(** ** Whole runs *)

(** The encoder on a sample sequence, then the decoder on what it wrote. *)
Definition roundtrip (H : Encoder.HeapAlgorithms) (indeterminate : nat -> Z)
           (header : WavHeader) (audioData : list Z) : outcome (WavHeader * list Z) :=
  f <- Encoder.main H header audioData ;; Decoder.main indeterminate f.

(** The length of the string [encodeAudioData] builds from a table that has
    a code for every sample. *)
Fixpoint encoded_bits (huffmanCodes : StdMap.t cstring) (audioData : list Z) : nat :=
  match audioData with
  | [] => 0
  | sample :: rest =>
      (length (StdMap.get_or [] sample huffmanCodes)
       + encoded_bits huffmanCodes rest)%nat
  end.

(** The header of a mono 16-bit PCM file at 44100 Hz. *)
Definition example_header : WavHeader :=
  {| riff := ["R"; "I"; "F"; "F"]%char;
     overall_size := 48;
     wave := ["W"; "A"; "V"; "E"]%char;
     fmt_chunk_marker := ["f"; "m"; "t"; " "]%char;
     length_of_fmt := 16;
     format_type := 1;
     channels := 1;
     sample_rate := 44100;
     byterate := 88200;
     block_align := 2;
     bits_per_sample := 16;
     data_chunk_header := ["d"; "a"; "t"; "a"]%char;
     data_size := 12 |}.

(** The table of the specification's example, with the bit values the
    sorted queue gives. *)
Definition example_table : StdMap.t cstring :=
  [(-5, [ch1; ch0]); (0, [ch0]); (1, [ch1; ch1])].

(** ** Shapes and weights: what the optimality argument measures *)

(** Number of leaves. *)
Fixpoint size {A : Type} (t : bt A) : nat :=
  match t with
  | Leaf _ => 1
  | Br l r => size l + size r
  end.

Fixpoint height {A : Type} (t : bt A) : Z :=
  match t with
  | Leaf _ => 0
  | Br l r => 1 + Z.max (height l) (height r)
  end.

(** The depth of every leaf, left to right, the root being at depth [d]. *)
Fixpoint depths_at {A : Type} (d : Z) (t : bt A) : list Z :=
  match t with
  | Leaf _ => [d]
  | Br l r => depths_at (d + 1) l ++ depths_at (d + 1) r
  end.

(** Sum of depth times weight, position by position. *)
Fixpoint wdot {A : Type} (w : A -> Z) (ds : list Z) (xs : list A) : Z :=
  match ds, xs with
  | d :: ds', x :: xs' => d * w x + wdot w ds' xs'
  | _, _ => 0
  end.

(** Mirror the nodes of the left spine so that the left child is never
    the lower one. *)
Fixpoint lean {A : Type} (t : bt A) : bt A :=
  match t with
  | Leaf a => Leaf a
  | Br l r => if height l <? height r then Br (lean r) l else Br (lean l) r
  end.

Fixpoint left_lean {A : Type} (t : bt A) : Prop :=
  match t with
  | Leaf _ => True
  | Br l r => height r <= height l /\ left_lean l
  end.

(** The same shape with the leaves taken from [xs], left to right. *)
Fixpoint relabel {A : Type} (t : bt A) (xs : list A) : bt A :=
  match t with
  | Leaf a => Leaf (hd a xs)
  | Br l r => Br (relabel l (firstn (size l) xs)) (relabel r (skipn (size l) xs))
  end.

(** Replace the leftmost pair of sibling leaves by the single leaf [c]. *)
Fixpoint merge_front {A : Type} (c : A) (t : bt A) : bt A :=
  match t with
  | Leaf a => Leaf a
  | Br l r =>
      match l, r with
      | Leaf _, Leaf _ => Leaf c
      | _, _ => Br (merge_front c l) r
      end
  end.

Definition zsum (l : list Z) : Z := fold_right Z.add 0 l.

(** ** Code assignments and their cost *)

(** Sum over the entries of weight times code length. *)
Definition code_cost {A : Type} (w : A -> Z) (items : list (A * cstring)) : Z :=
  zsum (map (fun e => w (fst e) * Z.of_nat (length (snd e))) items).

(** No code of the list is a prefix of the code of another entry. *)
Inductive incomparable {A : Type} : list (A * cstring) -> Prop :=
| incomparable_nil : incomparable []
| incomparable_cons : forall a c l,
    (forall b c', In (b, c') l -> ~ is_prefix c c' /\ ~ is_prefix c' c) ->
    incomparable l ->
    incomparable ((a, c) :: l).

(** The entries whose code starts with ["0"] ([zero = true]) or with
    another character, without that first character. *)
Fixpoint branch {A : Type} (zero : bool) (items : list (A * cstring))
  : list (A * cstring) :=
  match items with
  | [] => []
  | (a, c) :: rest =>
      match c with
      | [] => branch zero rest
      | x :: c' =>
          if Bool.eqb (Ascii.eqb x ch0) zero
          then (a, c') :: branch zero rest
          else branch zero rest
      end
  end.

(** The total encoded bit length of a frequency table under a code table:
    the sum over the samples of frequency times code length.  It is
    defined when every sample of the table has a code, as
    [encodeAudioData] needs. *)
Fixpoint table_cost (frequencies : StdMap.t Z) (huffmanCodes : StdMap.t cstring)
  : option Z :=
  match frequencies with
  | [] => Some 0
  | (sample, frequency) :: rest =>
      match StdMap.find sample huffmanCodes, table_cost rest huffmanCodes with
      | Some code, Some total => Some (frequency * Z.of_nat (length code) + total)
      | _, _ => None
      end
  end.

(** A prefix code for the samples of a frequency table: every sample has a
    bit string, and the string of one sample is never a prefix of the
    string of another. *)
Record prefix_assignment (frequencies : StdMap.t Z) (other : StdMap.t cstring)
  : Prop := {
  pa_bits : forall k c,
    In k (StdMap.keys frequencies) -> StdMap.find k other = Some c -> bit_string c;
  pa_prefix_free : forall k1 c1 k2 c2,
    In k1 (StdMap.keys frequencies) -> In k2 (StdMap.keys frequencies) ->
    k1 <> k2 ->
    StdMap.find k1 other = Some c1 -> StdMap.find k2 other = Some c2 ->
    ~ is_prefix c1 c2
}.

(** The leaves of a frequency table, each with the code a table gives its
    sample. *)
Definition coded_leaves (huffmanCodes : StdMap.t cstring) (frequencies : StdMap.t Z)
  : list (Encoder.HuffmanNode * cstring) :=
  map (fun pair => (leaf_of pair, StdMap.get_or [] (fst pair) huffmanCodes)) frequencies.

(** ** The encoder as a relation

    The loop of [buildHuffmanTree] without a budget: [merge_loop_run H
    heap r] holds when the loop started on [heap] ends in [r].  A loop
    that never ends has no result. *)

Definition is_error {A : Type} (r : outcome A) : Prop :=
  match r with
  | Ok _ => False
  | _ => True
  end.

Inductive merge_loop_run (H : Encoder.HeapAlgorithms)
  : list Encoder.HuffmanNode -> outcome (list Encoder.HuffmanNode) -> Prop :=
| loop_exit : forall minHeap,
    (length minHeap <= 1)%nat ->
    merge_loop_run H minHeap (Ok minHeap)
| loop_next : forall minHeap minHeap' r,
    (1 < length minHeap)%nat ->
    Encoder.merge_step H minHeap = Ok minHeap' ->
    merge_loop_run H minHeap' r ->
    merge_loop_run H minHeap r
| loop_abort : forall minHeap r,
    (1 < length minHeap)%nat ->
    Encoder.merge_step H minHeap = r ->
    is_error r ->
    merge_loop_run H minHeap r.

(** What [main] does once the loop has ended in [r]. *)
Definition after_loop (header : WavHeader) (audioData : list Z)
           (r : outcome (list Encoder.HuffmanNode)) : outcome EncodedFile :=
  minHeap <- r ;;
  huffmanTree <- Encoder.pq_top minHeap ;;
  let huffmanCodes := Encoder.generateCodes huffmanTree [] StdMap.empty in
  encodedData <- Encoder.encodeAudioData audioData huffmanCodes ;;
  Ok (Encoder.saveEncodedFile header encodedData huffmanCodes).

Inductive encoder_run (H : Encoder.HeapAlgorithms) (header : WavHeader)
          (audioData : list Z) : outcome EncodedFile -> Prop :=
| encoder_run_intro : forall r,
    merge_loop_run H
      (Encoder.push_leaves H (Encoder.calculateFrequencies audioData)) r ->
    encoder_run H header audioData (after_loop header audioData r).

(** Every value of an [int frequency] field of a tree. *)
Fixpoint all_frequencies (n : Encoder.HuffmanNode) : list Z :=
  match n with
  | Encoder.nullptr => []
  | Encoder.Node _ f l r => f :: all_frequencies l ++ all_frequencies r
  end.

Definition INT_MAX : Z := 2147483647.

(** ** Further auxiliary definitions *)

(** The loop of the decoder's [buildHuffmanTree] over the table, from any
    allocated root. *)
Definition insert_all (l : list (Z * cstring)) (t0 : Decoder.HuffmanNode)
  : Decoder.HuffmanNode :=
  fold_left (fun root pair => Decoder.insert_code (snd pair) (fst pair) root) l t0.

(** The order the sorted queue keeps. *)
Definition by_frequency (a b : Encoder.HuffmanNode) : Prop :=
  Encoder.frequency_of a <= Encoder.frequency_of b.

(** Sum of the weights of the entries. *)
Definition weight_sum {A : Type} (w : A -> Z) (items : list (A * cstring)) : Z :=
  zsum (map (fun e => w (fst e)) items).

(** ** Files: bytes, scalars and streams *)

(** A file is the sequence of its bytes, each an integer below 256. *)
Definition is_byte (b : Z) : Prop := 0 <= b < 256.

(** The object representation of an integer of [n] bytes, least
    significant byte first: the byte order of WAV files and of the hosts
    the programs are built for.  A negative value is written in two's
    complement. *)
Fixpoint le_bytes (n : nat) (v : Z) : list Z :=
  match n with
  | O => []
  | S n' => v mod 256 :: le_bytes n' (v / 256)
  end.

(** The unsigned value of an object representation. *)
Fixpoint le_value (bs : list Z) : Z :=
  match bs with
  | [] => 0
  | b :: bs' => b + 256 * le_value bs'
  end.

(** The [int16_t] whose representation has the unsigned value [u]. *)
Definition to_int16 (u : Z) : Z := if u <? 32768 then u else u - 65536.

(** The values of an [int16_t]. *)
Definition is_int16 (v : Z) : Prop := -32768 <= v < 32768.

(** A [char] and its byte. *)
Definition char_of_byte (b : Z) : ascii := ascii_of_N (Z.to_N b).
Definition byte_of_char (c : ascii) : Z := Z.of_N (N_of_ascii c).

(** [s1 == s2] on strings. *)
Fixpoint cstring_eqb (a b : cstring) : bool :=
  match a, b with
  | [], [] => true
  | x :: a', y :: b' => Ascii.eqb x y && cstring_eqb a' b'
  | _, _ => false
  end.

(** [len] bytes from offset [from]. *)
Definition slice (from len : nat) (bs : list Z) : list Z :=
  firstn len (skipn from bs).

(** The 44 bytes of a [WavHeader] (the struct has no padding), and the
    header 44 bytes stand for. *)
Definition header_bytes (h : WavHeader) : list Z :=
  map byte_of_char (riff h)
  ++ le_bytes 4 (overall_size h)
  ++ map byte_of_char (wave h)
  ++ map byte_of_char (fmt_chunk_marker h)
  ++ le_bytes 4 (length_of_fmt h)
  ++ le_bytes 2 (format_type h)
  ++ le_bytes 2 (channels h)
  ++ le_bytes 4 (sample_rate h)
  ++ le_bytes 4 (byterate h)
  ++ le_bytes 2 (block_align h)
  ++ le_bytes 2 (bits_per_sample h)
  ++ map byte_of_char (data_chunk_header h)
  ++ le_bytes 4 (data_size h).

Definition header_of_bytes (bs : list Z) : WavHeader :=
  {| riff := map char_of_byte (slice 0 4 bs);
     overall_size := le_value (slice 4 4 bs);
     wave := map char_of_byte (slice 8 4 bs);
     fmt_chunk_marker := map char_of_byte (slice 12 4 bs);
     length_of_fmt := le_value (slice 16 4 bs);
     format_type := le_value (slice 20 2 bs);
     channels := le_value (slice 22 2 bs);
     sample_rate := le_value (slice 24 4 bs);
     byterate := le_value (slice 28 4 bs);
     block_align := le_value (slice 32 2 bs);
     bits_per_sample := le_value (slice 34 2 bs);
     data_chunk_header := map char_of_byte (slice 36 4 bs);
     data_size := le_value (slice 40 4 bs) |}.

(** The samples a buffer of bytes holds, two bytes each. *)
Fixpoint samples_of (bs : list Z) : list Z :=
  match bs with
  | b0 :: b1 :: rest => to_int16 (le_value [b0; b1]) :: samples_of rest
  | _ => []
  end.

(** The bytes of a vector of samples. *)
Definition sample_bytes (audioData : list Z) : list Z :=
  flat_map (le_bytes 2) audioData.

(** How a call that may end the program comes back: it returns, or the
    program has exited with a status ([exit(1)]). *)
Inductive ending (A : Type) : Type :=
| Returned (a : A)
| Exited (status : Z).

Arguments Returned {A} a.
Arguments Exited {A} status.

(** A value read from an object that [file.read] filled up to byte
    [upto] of the stream.  [read] stores the bytes the stream still has
    and leaves the rest of the object as it was; for the uninitialised
    locals the programs read into, that rest is indeterminate, and
    evaluating the object is undefined. *)
Definition filled {A : Type} (upto : nat) (stream : list Z) (value : A) : outcome A :=
  if (length stream <? upto)%nat then Undefined else Ok value.

(** [file.read(&x, n)] into an uninitialised integer [x] that is
    evaluated next: the value and the rest of the stream. *)
Definition read_scalar (n : nat) (stream : list Z) : outcome (Z * list Z) :=
  value <- filled n stream (le_value (firstn n stream)) ;;
  Ok (value, skipn n stream).

(** [file.read(buffer, n)] into an initialised buffer: the bytes the
    stream has, at most [n], replace the first bytes of the buffer.  The
    buffer must have room for them. *)
Definition read_into (buffer : list Z) (n : nat) (stream : list Z)
  : outcome (list Z * list Z) :=
  let got := firstn n stream in
  if (length buffer <? length got)%nat then Undefined
  else Ok (got ++ skipn (length got) buffer, skipn n stream).

(** The layout of the encoded file, [saveEncodedFile] of encoder.cpp: the
    header, the number of codes, then for every code the sample, the
    length and the characters, then the bit count and the packed bytes.
    The count and the lengths are [uint32_t]. *)
Definition write_entry (pair : Z * cstring) : list Z :=
  let codeLength := to_uint32 (length (snd pair)) in
  le_bytes 2 (fst pair)
  ++ le_bytes 4 codeLength
  ++ map byte_of_char (firstn (Z.to_nat codeLength) (snd pair)).

Definition file_layout (f : EncodedFile) : list Z :=
  header_bytes (file_header f)
  ++ le_bytes 4 (to_uint32 (StdMap.size (file_codes f)))
  ++ flat_map write_entry (file_codes f)
  ++ le_bytes 4 (file_bit_count f)
  ++ file_bytes f.

(** ** encoder.cpp on files *)

Module EncoderIO.

Definition RIFF : cstring := ["R"; "I"; "F"; "F"]%char.
Definition WAVE : cstring := ["W"; "A"; "V"; "E"]%char.

(** [readWavFile]: [file] is what the path holds, if it can be opened.
    The header is read into [main]'s uninitialised [header]; the samples
    into a vector of [data_size / 2] zeros, which [read] is asked to fill
    with [data_size] bytes. *)
Definition readWavFile (file : option (list Z))
  : outcome (ending (WavHeader * list Z)) :=
  match file with
  | None => Ok (Exited 1)
  | Some stream =>
      let header := header_of_bytes (firstn 44 stream) in
      riff_ <- filled 4 stream (riff header) ;;
      if negb (cstring_eqb riff_ RIFF) then Ok (Exited 1) else
      wave_ <- filled 12 stream (wave header) ;;
      if negb (cstring_eqb wave_ WAVE) then Ok (Exited 1) else
      data_size_ <- filled 44 stream (data_size header) ;;
      let audioData := repeat 0 (Z.to_nat (data_size_ / 2)) in
      r <- read_into (sample_bytes audioData) (Z.to_nat data_size_)
                     (skipn 44 stream) ;;
      Ok (Returned (header, samples_of (fst r)))
  end.

(** [saveEncodedFile] with its file: [creatable] tells whether the output
    path can be opened for writing. *)
Definition saveEncodedFile (creatable : bool) (header : WavHeader)
           (encodedData : cstring) (huffmanCodes : StdMap.t cstring)
  : ending (list Z) :=
  if creatable
  then Returned (file_layout (Encoder.saveEncodedFile header encodedData huffmanCodes))
  else Exited 1.

(** [main]: the exit status and what the output file holds afterwards,
    if it was written. *)
Definition main (H : Encoder.HeapAlgorithms) (argc : Z) (input : option (list Z))
           (creatable : bool) : outcome (Z * option (list Z)) :=
  if negb (argc =? 3) then Ok (1, None) else
  r <- readWavFile input ;;
  match r with
  | Exited status => Ok (status, None)
  | Returned (header, audioData) =>
      let frequencies := Encoder.calculateFrequencies audioData in
      huffmanTree <- Encoder.buildHuffmanTree H frequencies ;;
      let huffmanCodes := Encoder.generateCodes huffmanTree [] StdMap.empty in
      encodedData <- Encoder.encodeAudioData audioData huffmanCodes ;;
      match saveEncodedFile creatable header encodedData huffmanCodes with
      | Exited status => Ok (status, None)
      | Returned written => Ok (0, Some written)
      end
  end.

End EncoderIO.

(** ** decoder.cpp on files *)

Module DecoderIO.

(** The loop of [readHuffmanCodes], [count] entries to go.  The code is
    read into a string of [codeLength] characters ["0"]. *)
Fixpoint read_entries (count : nat) (file : list Z) (huffmanCodes : StdMap.t cstring)
  : outcome (StdMap.t cstring * list Z) :=
  match count with
  | O => Ok (huffmanCodes, file)
  | S count' =>
      sample <- read_scalar 2 file ;;
      codeLength <- read_scalar 4 (snd sample) ;;
      let code := repeat (byte_of_char ch0) (Z.to_nat (fst codeLength)) in
      code' <- read_into code (Z.to_nat (fst codeLength)) (snd codeLength) ;;
      read_entries count' (snd code')
        (StdMap.set (to_int16 (fst sample)) (map char_of_byte (fst code'))
                    huffmanCodes)
  end.

Definition readHuffmanCodes (file : list Z) : outcome (StdMap.t cstring * list Z) :=
  huffmanCodeCount <- read_scalar 4 file ;;
  read_entries (Z.to_nat (fst huffmanCodeCount)) (snd huffmanCodeCount) StdMap.empty.

(** What [main] reads before it decodes: the header, the table and the
    bit count; the rest of the stream is left for [readEncodedData]. *)
Definition read_file (stream : list Z) : outcome EncodedFile :=
  let header := header_of_bytes (firstn 44 stream) in
  codes <- readHuffmanCodes (skipn 44 stream) ;;
  encodedDataSize <- read_scalar 4 (snd codes) ;;
  Ok {| file_header := header;
        file_codes := fst codes;
        file_bit_count := fst encodedDataSize;
        file_bytes := snd encodedDataSize |}.

(** [saveWavFile]: the header, then the samples. *)
Definition saveWavFile (creatable : bool) (header : WavHeader) (audioData : list Z)
  : ending (list Z) :=
  if creatable then Returned (header_bytes header ++ sample_bytes audioData)
  else Exited 1.

Section Main.

Variable indeterminate : nat -> Z.

(** [main]: the exit status and what the output file holds afterwards,
    if it was written. *)
Definition main (argc : Z) (input : option (list Z)) (creatable : bool)
  : outcome (Z * option (list Z)) :=
  if negb (argc =? 3) then Ok (1, None) else
  match input with
  | None => Ok (1, None)
  | Some stream =>
      f <- read_file stream ;;
      r <- Decoder.main indeterminate f ;;
      match saveWavFile creatable (fst r) (snd r) with
      | Exited status => Ok (status, None)
      | Returned written => Ok (0, Some written)
      end
  end.

End Main.

End DecoderIO.

(** A header as the struct holds it: four characters in every array,
    every integer field within its type. *)
Record header_ok (h : WavHeader) : Prop := {
  ok_riff : length (riff h) = 4%nat;
  ok_overall_size : 0 <= overall_size h < two32;
  ok_wave : length (wave h) = 4%nat;
  ok_fmt_chunk_marker : length (fmt_chunk_marker h) = 4%nat;
  ok_length_of_fmt : 0 <= length_of_fmt h < two32;
  ok_format_type : 0 <= format_type h < 65536;
  ok_channels : 0 <= channels h < 65536;
  ok_sample_rate : 0 <= sample_rate h < two32;
  ok_byterate : 0 <= byterate h < two32;
  ok_block_align : 0 <= block_align h < 65536;
  ok_bits_per_sample : 0 <= bits_per_sample h < 65536;
  ok_data_chunk_header : length (data_chunk_header h) = 4%nat;
  ok_data_size : 0 <= data_size h < two32
}.

(** A table [saveEncodedFile] writes without loss: keys the [int16_t]
    field can hold and, for the count and the lengths, sizes that fit
    [uint32_t]. *)
Record table_ok (codes : StdMap.t cstring) : Prop := {
  ok_wf : StdMap.wf codes;
  ok_keys : forall k c, In (k, c) codes -> is_int16 k;
  ok_lengths : forall k c, In (k, c) codes -> Z.of_nat (length c) < two32
}.

Record file_ok (f : EncodedFile) : Prop := {
  ok_header : header_ok (file_header f);
  ok_codes : table_ok (file_codes f);
  ok_bit_count : 0 <= file_bit_count f < two32
}.

(** The samples of the example, and the WAV file that holds them. *)
Definition example_samples : list Z := [0; 0; 0; 1; 1; -5].

Definition example_wav : list Z :=
  header_bytes example_header ++ sample_bytes example_samples.

(** A header with another value in its [data_size] field. *)
Definition with_data_size (h : WavHeader) (n : Z) : WavHeader :=
  {| riff := riff h;
     overall_size := overall_size h;
     wave := wave h;
     fmt_chunk_marker := fmt_chunk_marker h;
     length_of_fmt := length_of_fmt h;
     format_type := format_type h;
     channels := channels h;
     sample_rate := sample_rate h;
     byterate := byterate h;
     block_align := block_align h;
     bits_per_sample := bits_per_sample h;
     data_chunk_header := data_chunk_header h;
     data_size := n |}.

(** A table without gaps: where some code goes on with one bit, some
    code goes on with the other. *)
Definition complete_table (codes : StdMap.t cstring) : Prop :=
  forall k p b q,
    In (k, p ++ b :: q) codes ->
    forall b', is_bit b' -> exists k' q', In (k', p ++ b' :: q') codes.

(** What the encoder writes for the samples of [example_wav]. *)
Definition example_file : EncodedFile :=
  {| file_header := example_header;
     file_codes := example_table;
     file_bit_count := 9;
     file_bytes := [248; 0] |}.

(** A prefix code with a gap: no code starts with "11". *)
Definition gap_table : StdMap.t cstring := [(0, [ch0]); (1, [ch1; ch0])].

(** Sum over the bindings of a frequency table of the count times a
    measure of the key. *)
Definition weighted_sum (g : Z -> Z) (frequencies : StdMap.t Z) : Z :=
  zsum (map (fun pair => snd pair * g (fst pair)) frequencies).

(** The file of twelve bytes that starts like a RIFX file. *)
Definition other_file : list Z := [82; 73; 70; 88; 4; 0; 0; 0; 87; 65; 86; 69].

(** The frequency table of the example. *)
Definition example_frequencies : StdMap.t Z := [(-5, 1); (0, 3); (1, 2)].

(** What [c] holds in iteration [i] of [readEncodedData]: byte [i] of the
    packed bytes, or what [read] left in [c] when the file has ended. *)
Definition byte_read (indeterminate : nat -> Z) (file : list Z) (i : nat) : Z :=
  if (i <? length file)%nat then nth i file 0 else indeterminate i.

(** The character the decoder takes another one for: ["0"] goes left,
    anything else right. *)
Definition as_bit (c : ascii) : ascii := if Ascii.eqb c ch0 then ch0 else ch1.

(** The trees of the encoder: a leaf for a binding (sample, frequency),
    or a node with sample -1 over two trees, whose frequency is the sum
    of theirs.  The second argument lists the bindings at the leaves,
    left to right. *)
Inductive huffman_tree : Encoder.HuffmanNode -> list (Z * Z) -> Prop :=
| tree_leaf : forall sample frequency,
    huffman_tree (Encoder.new_node sample frequency) [(sample, frequency)]
| tree_node : forall left_ right_ bindings_left bindings_right,
    huffman_tree left_ bindings_left ->
    huffman_tree right_ bindings_right ->
    huffman_tree
      (Encoder.Node (-1) (Encoder.frequency_of left_ + Encoder.frequency_of right_)
         left_ right_)
      (bindings_left ++ bindings_right).

(** What [readWavFile] returns, without the header. *)
Definition returned_samples (r : outcome (ending (WavHeader * list Z)))
  : outcome (ending (list Z)) :=
  x <- r ;;
  Ok match x with
     | Returned result => Returned (snd result)
     | Exited status => Exited status
     end.

(** The header of the example, declared as a stereo file of 8-bit
    samples in another format. *)
Definition other_format_header : WavHeader :=
  {| riff := riff example_header;
     overall_size := 0;
     wave := wave example_header;
     fmt_chunk_marker := ["J"; "U"; "N"; "K"]%char;
     length_of_fmt := 18;
     format_type := 3;
     channels := 2;
     sample_rate := 8000;
     byterate := 16000;
     block_align := 2;
     bits_per_sample := 8;
     data_chunk_header := ["L"; "I"; "S"; "T"]%char;
     data_size := data_size example_header |}.

(** A tree of height at most [h] over the leaves [l], for a list of at
    most [2^h] leaves: the list is halved at every level.  It is the
    fixed-width code the cost of the generated table is compared with. *)
Fixpoint balanced {A : Type} (h : nat) (d : A) (l : list A) : bt A :=
  match h with
  | O => Leaf (hd d l)
  | S h' =>
      match l with
      | [] => Leaf d
      | [a] => Leaf a
      | _ :: _ :: _ =>
          let m := Nat.div2 (S (length l)) in
          Br (balanced h' d (firstn m l)) (balanced h' d (skipn m l))
      end
  end.

(** ** An encoded file of any writer *)

(** The table [readHuffmanCodes] is left with after the entries of a
    file, taken in the order they come: [huffmanCodes[sample] = code] for
    each, so that a sample met again keeps its last code. *)
Definition table_of (entries : list (Z * cstring)) : StdMap.t cstring :=
  fold_left (fun huffmanCodes entry => StdMap.set (fst entry) (snd entry) huffmanCodes)
            entries StdMap.empty.

(** The bytes the decoder reads: 44 bytes of header, the number of
    entries, the entries in the order of the writer, the bit count, and
    the rest of the file. *)
Definition encoded_stream (header_ : list Z) (entries : list (Z * cstring))
           (encodedDataSize : Z) (payload : list Z) : list Z :=
  header_
  ++ le_bytes 4 (Z.of_nat (length entries))
  ++ flat_map write_entry entries
  ++ le_bytes 4 encodedDataSize
  ++ payload.

(** [payload] carries [bits]: bit [i mod 8] of byte [i / 8] is bit [i] of
    the stream.  Nothing is said of the bits that follow in the last
    byte, nor of the bytes after it. *)
Definition holds_bits (payload : list Z) (bits : cstring) : Prop :=
  (length bits <= 8 * length payload)%nat
  /\ forall i : nat, (i < length bits)%nat ->
       bit_char (nth (i / 8) payload 0) (i mod 8) = nth i bits ch0.

(** The entries of [example_table] in decreasing key order, and a payload
    for the samples 0, 1 whose padding bits are set and which a further
    byte follows. *)
Definition unordered_entries : list (Z * cstring) :=
  [(1, [ch1; ch1]); (0, [ch0]); (-5, [ch1; ch0])].

Definition padded_payload : list Z := [254; 7].

(** ** Tactics

    The four characters of a marker of the header, and the bytes of a
    buffer of known length. *)

Ltac four_chars s H :=
  destruct s as [|? [|? [|? [|? [|? ?]]]]]; try discriminate H.

Tactic Notation "take_bytes" ident(bs) ident(H) integer(n) :=
  do n (destruct bs as [|? bs]; [discriminate H|]);
  destruct bs; [|discriminate H].

(* ===================================================================== *)
(** * Part II. Properties *)
(* ===================================================================== *)

Ltac Zify.zify_post_hook ::= Z.to_euclidean_division_equations.

(** ** Bit packing: [saveEncodedFile] against [readEncodedData] *)

Lemma bitset_get_assign_same (b : Z) (i : nat) (v : bool) :
  bitset_get (bitset_assign b i v) i = v.
Proof.
  unfold bitset_get, bitset_assign. destruct v.
  - apply Z.setbit_eq. lia.
  - apply Z.clearbit_eq.
Qed.

Lemma bitset_get_assign_other (b : Z) (i j : nat) (v : bool) :
  i <> j -> bitset_get (bitset_assign b i v) j = bitset_get b j.
Proof.
  intros Hij. unfold bitset_get, bitset_assign. destruct v.
  - apply Z.setbit_neq; lia.
  - apply Z.clearbit_neq. lia.
Qed.

Lemma bitset_get_zero (j : nat) : bitset_get 0 j = false.
Proof. unfold bitset_get. apply Z.testbit_0_l. Qed.

(** Where [pack_bits] writes: with [k] bits of the current byte already
    set, the [p]-th remaining character lands on bit [(k+p) mod 8] of byte
    [(k+p)/8], and the bits set earlier stay. *)
Lemma pack_bits_layout (rest : cstring) :
  forall (i k : nat) (byte : Z),
    k = (i mod 8)%nat ->
    (forall p, (p < length rest)%nat ->
       bitset_get (nth ((k + p) / 8) (Encoder.pack_bits rest i byte) 0)
                  ((k + p) mod 8)
       = Ascii.eqb (nth p rest ch0) ch1)
    /\ (forall q, (q < k)%nat -> rest <> [] ->
       bitset_get (nth 0 (Encoder.pack_bits rest i byte) 0) q = bitset_get byte q).
Proof.
  induction rest as [|c rest' IH]; intros i k byte Hk.
  - split; [simpl; intros; lia | intros q _ Hne; congruence].
  - assert (Hk8 : (k < 8)%nat) by (subst k; apply Nat.mod_upper_bound; lia).
    cbn [Encoder.pack_bits].
    replace (i mod 8)%nat with k by assumption.
    set (byte' := bitset_assign byte k (Ascii.eqb c ch1)).
    destruct ((k =? 7)%nat || match rest' with [] => true | _ :: _ => false end)%bool
      eqn:Hflush.
    + (* the byte is written out *)
      assert (Hnext : rest' = [] \/ (S i mod 8)%nat = 0%nat).
      { apply orb_true_iff in Hflush. destruct Hflush as [H7|Hnil].
        - right. apply Nat.eqb_eq in H7. lia.
        - left. destruct rest'; [reflexivity|discriminate]. }
      split.
      * intros p Hp. destruct p as [|p].
        -- replace ((k + 0) / 8)%nat with 0%nat by lia.
           replace ((k + 0) mod 8)%nat with k by lia.
           simpl. unfold byte'. apply bitset_get_assign_same.
        -- simpl in Hp. destruct Hnext as [Hnil|H0].
           { subst rest'. simpl in Hp. lia. }
           assert (Hk7 : k = 7%nat) by lia.
           destruct (IH (S i) 0%nat 0 (eq_sym H0)) as [IH1 _].
           specialize (IH1 p ltac:(lia)).
           replace ((k + S p) / 8)%nat with (S ((0 + p) / 8)) by lia.
           replace ((k + S p) mod 8)%nat with ((0 + p) mod 8)%nat by lia.
           cbn [nth]. rewrite IH1. reflexivity.
      * intros q Hq _. simpl. unfold byte'.
        apply bitset_get_assign_other. lia.
    + (* the byte is carried into the next iteration *)
      apply orb_false_iff in Hflush. destruct Hflush as [H7 Hne].
      apply Nat.eqb_neq in H7.
      assert (Hne' : rest' <> []) by (destruct rest'; [discriminate|congruence]).
      assert (Hk' : S k = (S i mod 8)%nat) by lia.
      destruct (IH (S i) (S k) byte' Hk') as [IH1 IH2].
      split.
      * intros p Hp. destruct p as [|p].
        -- replace ((k + 0) / 8)%nat with 0%nat by lia.
           replace ((k + 0) mod 8)%nat with k by lia.
           rewrite (IH2 k ltac:(lia) Hne'). unfold byte'.
           apply bitset_get_assign_same.
        -- simpl in Hp. specialize (IH1 p ltac:(lia)).
           replace (k + S p)%nat with (S k + p)%nat by lia.
           rewrite IH1. reflexivity.
      * intros q Hq _. rewrite (IH2 q ltac:(lia) Hne'). unfold byte'.
        apply bitset_get_assign_other. lia.
Qed.

Lemma pack_bits_length (rest : cstring) :
  forall (i k : nat) (byte : Z),
    k = (i mod 8)%nat -> rest <> [] ->
    length (Encoder.pack_bits rest i byte) = ((k + length rest + 7) / 8)%nat.
Proof.
  induction rest as [|c rest' IH]; intros i k byte Hk Hne; [congruence|].
  assert (Hk8 : (k < 8)%nat) by (subst k; apply Nat.mod_upper_bound; lia).
  cbn [Encoder.pack_bits]. replace (i mod 8)%nat with k by assumption.
  destruct rest' as [|c' rest''].
  - rewrite orb_true_r. cbn [length Encoder.pack_bits]. lia.
  - rewrite orb_false_r. destruct (k =? 7)%nat eqn:H7.
    + apply Nat.eqb_eq in H7.
      cbn [length]. rewrite (IH (S i) 0%nat 0) by (try lia; discriminate).
      cbn [length]. lia.
    + apply Nat.eqb_neq in H7.
      rewrite (IH (S i) (S k)) by (try lia; discriminate).
      cbn [length]. lia.
Qed.

Lemma pack_bits_bit (bits : cstring) (i : nat) :
  (i < length bits)%nat ->
  bitset_get (nth (i / 8) (Encoder.pack_bits bits 0 0) 0) (i mod 8)
  = Ascii.eqb (nth i bits ch0) ch1.
Proof.
  intros Hi.
  destruct (pack_bits_layout bits 0%nat 0%nat 0 eq_refl) as [L _].
  apply (L i Hi).
Qed.

Lemma pack_bits_size (bits : cstring) :
  length (Encoder.pack_bits bits 0 0) = ((length bits + 7) / 8)%nat.
Proof.
  destruct bits as [|c bits]; [reflexivity|].
  rewrite (pack_bits_length (c :: bits) 0%nat 0%nat 0 eq_refl) by discriminate.
  reflexivity.
Qed.

(** The reader, in closed form. *)
Lemma push_bits_eq (count : nat) :
  forall (byte : Z) (j n : nat) (acc : cstring),
    Decoder.push_bits byte j count n acc
    = acc ++ firstn (n - length acc) (map (bit_char byte) (seq j count)).
Proof.
  induction count as [|count IH]; intros byte j n acc.
  - simpl. rewrite firstn_nil, app_nil_r. reflexivity.
  - cbn [Decoder.push_bits].
    destruct (length acc <? n)%nat eqn:Hlt.
    + apply Nat.ltb_lt in Hlt. rewrite IH.
      rewrite length_app. cbn [length seq map].
      replace (n - length acc)%nat with (S (n - (length acc + 1))) by lia.
      cbn [firstn]. rewrite <- app_assoc. reflexivity.
    + apply Nat.ltb_ge in Hlt.
      replace (n - length acc)%nat with 0%nat by lia.
      simpl. rewrite app_nil_r. reflexivity.
Qed.

Lemma byte_chars_length (b : Z) : length (byte_chars b) = 8%nat.
Proof. reflexivity. Qed.

Section Packing.

Variable indeterminate : nat -> Z.

Lemma read_bytes_full (remaining : nat) :
  forall (i : nat) (file : list Z) (n : nat) (acc : cstring),
    (n <= length acc)%nat ->
    Decoder.read_bytes indeterminate remaining i file n acc = acc.
Proof.
  induction remaining as [|remaining IH]; intros i file n acc Hn; [reflexivity|].
  cbn [Decoder.read_bytes]. rewrite push_bits_eq.
  replace (n - length acc)%nat with 0%nat by lia.
  simpl firstn. rewrite app_nil_r. apply IH. assumption.
Qed.

Lemma read_bytes_eq (remaining : nat) :
  forall (i : nat) (file : list Z) (n : nat) (acc : cstring),
    (n <= length acc + 8 * length file)%nat ->
    Decoder.read_bytes indeterminate remaining i file n acc
    = acc ++ firstn (n - length acc) (expand (firstn remaining file)).
Proof.
  induction remaining as [|remaining IH]; intros i file n acc Hn.
  - simpl. rewrite firstn_nil, app_nil_r. reflexivity.
  - destruct file as [|b file].
    + simpl in Hn. rewrite read_bytes_full by lia.
      simpl. rewrite firstn_nil, app_nil_r. reflexivity.
    + cbn [Decoder.read_bytes tl firstn expand flat_map].
      rewrite push_bits_eq. fold (byte_chars b). fold (expand (firstn remaining file)).
      rewrite IH.
      * rewrite <- app_assoc. f_equal.
        rewrite firstn_app. f_equal.
        rewrite length_app, length_firstn, byte_chars_length. f_equal. lia.
      * rewrite length_app, length_firstn, byte_chars_length.
        cbn [length] in Hn. lia.
Qed.

Lemma expand_length (file : list Z) : length (expand file) = (8 * length file)%nat.
Proof.
  induction file as [|b file IH]; [reflexivity|].
  cbn [expand flat_map]. fold (expand file).
  rewrite length_app, byte_chars_length, IH. cbn [length]. lia.
Qed.

Lemma byte_chars_nth (b : Z) (j : nat) :
  (j < 8)%nat -> nth j (byte_chars b) ch0 = bit_char b j.
Proof.
  intros Hj. unfold byte_chars.
  do 8 (destruct j as [|j]; [reflexivity|]). lia.
Qed.

Lemma expand_nth (file : list Z) :
  forall i : nat, (i < 8 * length file)%nat ->
    nth i (expand file) ch0 = bit_char (nth (i / 8) file 0) (i mod 8).
Proof.
  induction file as [|b file IH]; intros i Hi; [simpl in Hi; lia|].
  cbn [expand flat_map]. fold (expand file).
  destruct (Nat.lt_ge_cases i 8) as [Hlt|Hge].
  - rewrite app_nth1 by (rewrite byte_chars_length; assumption).
    replace (i / 8)%nat with 0%nat by lia.
    replace (i mod 8)%nat with i by lia.
    apply byte_chars_nth. assumption.
  - rewrite app_nth2 by (rewrite byte_chars_length; assumption).
    rewrite byte_chars_length. cbn [length] in Hi.
    rewrite IH by lia.
    replace (i / 8)%nat with (S ((i - 8) / 8)) by lia.
    replace ((i - 8) mod 8)%nat with (i mod 8)%nat by lia.
    reflexivity.
Qed.

(** [readEncodedData] returns [n] characters, the [i]-th one spelling bit
    [i mod 8] of byte [i / 8], whenever the buffer holds [n] bits. *)
Lemma readEncodedData_spec (file : list Z) (n : nat) :
  (n <= 8 * length file)%nat ->
  length (Decoder.readEncodedData indeterminate file n) = n
  /\ forall i : nat, (i < n)%nat ->
       nth i (Decoder.readEncodedData indeterminate file n) ch0
       = bit_char (nth (i / 8) file 0) (i mod 8).
Proof.
  intros Hn. unfold Decoder.readEncodedData.
  rewrite read_bytes_eq by (simpl; lia).
  cbn [app length]. rewrite Nat.sub_0_r.
  assert (Hlen : (n <= 8 * length (firstn n file))%nat)
    by (rewrite length_firstn; lia).
  split.
  - rewrite length_firstn, expand_length. lia.
  - intros i Hi.
    rewrite nth_firstn. replace (i <? n)%nat with true by (symmetry; apply Nat.ltb_lt; lia).
    rewrite expand_nth by lia.
    rewrite nth_firstn. replace (i / 8 <? n)%nat with true
      by (symmetry; apply Nat.ltb_lt; lia).
    reflexivity.
Qed.

(** Two buffers that agree on their first [n] bits read the same. *)
Lemma readEncodedData_ext (file : list Z) (bits : cstring) :
  (length bits <= 8 * length file)%nat ->
  (forall i : nat, (i < length bits)%nat ->
     bit_char (nth (i / 8) file 0) (i mod 8) = nth i bits ch0) ->
  Decoder.readEncodedData indeterminate file (length bits) = bits.
Proof.
  intros Hn Hbits.
  destruct (readEncodedData_spec file _ Hn) as [Hlen Hnth].
  apply (nth_ext _ _ ch0 ch0); [exact Hlen|].
  intros i Hi. rewrite Hlen in Hi. rewrite Hnth by assumption.
  apply Hbits. assumption.
Qed.

Lemma bit_char_of_bit (c : ascii) (b : Z) (j : nat) :
  is_bit c -> bitset_get b j = Ascii.eqb c ch1 -> bit_char b j = c.
Proof.
  intros [Hc|Hc] Hb; subst c; unfold bit_char; rewrite Hb; reflexivity.
Qed.

Lemma unpack_pack (bits : cstring) :
  bit_string bits ->
  Decoder.readEncodedData indeterminate (Encoder.pack_bits bits 0 0) (length bits)
  = bits.
Proof.
  intros Hbits. apply readEncodedData_ext.
  - rewrite pack_bits_size. lia.
  - intros i Hi. apply bit_char_of_bit.
    + unfold bit_string in Hbits. rewrite Forall_forall in Hbits.
      apply Hbits. apply nth_In. assumption.
    + apply pack_bits_bit. assumption.
Qed.

End Packing.

(** ** The decoder's tree is the trie of the table *)

Section Trie.

Import Decoder.

Lemma bit_string_app (a b : cstring) :
  bit_string (a ++ b) <-> bit_string a /\ bit_string b.
Proof. unfold bit_string. apply Forall_app. Qed.

Lemma is_prefix_refl (a : cstring) : is_prefix a a.
Proof. exists []. symmetry. apply app_nil_r. Qed.

Lemma is_prefix_nil (a : cstring) : is_prefix [] a.
Proof. exists a. reflexivity. Qed.

Lemma is_prefix_cons (x y : ascii) (a b : cstring) :
  is_prefix (x :: a) (y :: b) <-> x = y /\ is_prefix a b.
Proof.
  split.
  - intros [c Hc]. simpl in Hc. injection Hc as -> ->. split; [reflexivity|now exists c].
  - intros [-> [c ->]]. now exists c.
Qed.

Lemma is_prefix_of_nil (a : cstring) : is_prefix a [] -> a = [].
Proof. intros [c Hc]. destruct a; [reflexivity|discriminate]. Qed.

Lemma is_prefix_bit_string (a b : cstring) :
  is_prefix a b -> bit_string b -> bit_string a.
Proof. intros [c ->] Hb. apply bit_string_app in Hb. tauto. Qed.

Lemma subtree_app (p q : cstring) :
  forall t, subtree (p ++ q) t = subtree q (subtree p t).
Proof.
  induction p as [|b p IH]; intros t; [reflexivity|].
  simpl. destruct t as [|s l r].
  - destruct q; reflexivity.
  - apply IH.
Qed.

Lemma subtree_nullptr (p : cstring) : subtree p nullptr = nullptr.
Proof. destruct p; reflexivity. Qed.

Lemma or_new_not_null (t : HuffmanNode) : or_new t <> nullptr.
Proof. destruct t; discriminate. Qed.

Lemma or_new_id (t : HuffmanNode) : t <> nullptr -> or_new t = t.
Proof. destruct t; [congruence|reflexivity]. Qed.

Lemma subtree_or_new (p : cstring) (t : HuffmanNode) :
  subtree p t <> nullptr -> subtree p (or_new t) = subtree p t.
Proof.
  intros Hn. rewrite or_new_id; [reflexivity|].
  intros ->. rewrite subtree_nullptr in Hn. congruence.
Qed.

Lemma subtree_new_node (p : cstring) :
  p <> [] -> subtree p new_node = nullptr.
Proof.
  destruct p as [|b p]; [congruence|]. intros _. simpl.
  destruct (Ascii.eqb b ch0); apply subtree_nullptr.
Qed.

Lemma insert_code_not_null (c : cstring) (s : Z) (t : HuffmanNode) :
  t <> nullptr -> insert_code c s t <> nullptr.
Proof.
  intros Ht. destruct t as [|s0 l r]; [congruence|].
  destruct c as [|b c]; simpl; [discriminate|].
  destruct (Ascii.eqb b ch0); discriminate.
Qed.

Lemma bit_eqb_ch0 (x y : ascii) :
  is_bit x -> is_bit y -> Ascii.eqb x ch0 = Ascii.eqb y ch0 -> x = y.
Proof.
  intros [->| ->] [->| ->]; simpl; intros E; try reflexivity; discriminate.
Qed.

Lemma subtree_or_new_dom (p : cstring) (t : HuffmanNode) :
  subtree p (or_new t) <> nullptr <-> subtree p t <> nullptr \/ p = [].
Proof.
  destruct t as [|s l r].
  - destruct p as [|b p].
    + simpl. split; [intros _; right; reflexivity|intros _; discriminate].
    + rewrite subtree_nullptr. simpl or_new.
      rewrite subtree_new_node by discriminate.
      split; [congruence|]. intros [H|H]; [congruence|discriminate].
  - simpl or_new. split; [tauto|]. intros [H|H]; [assumption|].
    subst p. discriminate.
Qed.

(** Which paths exist after one insertion. *)
Lemma subtree_insert_code_dom (c : cstring) :
  forall (s : Z) (t : HuffmanNode) (p : cstring),
    t <> nullptr -> bit_string c -> bit_string p ->
    (subtree p (insert_code c s t) <> nullptr
     <-> subtree p t <> nullptr \/ is_prefix p c).
Proof.
  induction c as [|b c IH]; intros s t p Ht Hc Hp.
  - destruct t as [|s0 l r]; [congruence|]. simpl.
    destruct p as [|x p].
    + simpl. split; [intros _; left; discriminate|intros _; discriminate].
    + simpl. split; [tauto|]. intros [H|H]; [assumption|].
      apply is_prefix_of_nil in H. discriminate.
  - destruct t as [|s0 l r]; [congruence|].
    inversion Hc as [|? ? Hb Hc']; subst.
    destruct p as [|x p].
    + simpl. split.
      * intros _. left. discriminate.
      * intros _. destruct (Ascii.eqb b ch0); discriminate.
    + inversion Hp as [|? ? Hx Hp']; subst.
      rewrite is_prefix_cons. cbn [insert_code].
      pose proof (is_prefix_nil c) as Hnil.
      destruct (Ascii.eqb b ch0) eqn:Eb; cbn [subtree];
        destruct (Ascii.eqb x ch0) eqn:Ex;
        try (assert (x = b) by (apply bit_eqb_ch0; congruence); subst x);
        try (assert (x <> b) by congruence).
      * rewrite (IH s (or_new l) p (or_new_not_null l) Hc' Hp').
        rewrite subtree_or_new_dom.
        split; [intros [[H|H]|H]; subst; tauto | tauto].
      * tauto.
      * tauto.
      * rewrite (IH s (or_new r) p (or_new_not_null r) Hc' Hp').
        rewrite subtree_or_new_dom.
        split; [intros [[H|H]|H]; subst; tauto | tauto].
Qed.

(** The sample the last node of an inserted code holds. *)
Lemma sample_insert_code_same (c : cstring) :
  forall (s : Z) (t : HuffmanNode),
    t <> nullptr -> sample_of (subtree c (insert_code c s t)) = s.
Proof.
  induction c as [|b c IH]; intros s t Ht;
    destruct t as [|s0 l r]; try congruence.
  - reflexivity.
  - cbn [insert_code]. destruct (Ascii.eqb b ch0) eqn:Eb;
      cbn [subtree]; rewrite Eb; apply IH; apply or_new_not_null.
Qed.

(** Nodes off the end of the inserted code keep their sample. *)
Lemma sample_insert_code_other (c : cstring) :
  forall (s : Z) (t : HuffmanNode) (p : cstring),
    subtree p t <> nullptr -> bit_string c -> bit_string p -> p <> c ->
    sample_of (subtree p (insert_code c s t)) = sample_of (subtree p t).
Proof.
  induction c as [|b c IH]; intros s t p Hn Hc Hp Hpc;
    (destruct t as [|s0 l r]; [rewrite subtree_nullptr in Hn; congruence|]).
  - destruct p as [|x p]; [congruence|]. reflexivity.
  - inversion Hc as [|? ? Hb Hc']; subst.
    destruct p as [|x p].
    + simpl. destruct (Ascii.eqb b ch0); reflexivity.
    + inversion Hp as [|? ? Hx Hp']; subst.
      cbn [insert_code]. cbn [subtree] in Hn |- *.
      destruct (Ascii.eqb b ch0) eqn:Eb; cbn [subtree];
        destruct (Ascii.eqb x ch0) eqn:Ex; try reflexivity;
        (assert (x = b) by (apply bit_eqb_ch0; congruence); subst x);
        (rewrite IH;
         [ rewrite subtree_or_new by assumption; reflexivity
         | rewrite subtree_or_new by assumption; assumption
         | assumption | assumption | congruence ]).
Qed.

Lemma buildHuffmanTree_insert_all (codes : StdMap.t cstring) :
  buildHuffmanTree codes = insert_all codes new_node.
Proof. reflexivity. Qed.

Lemma insert_all_not_null (l : list (Z * cstring)) :
  forall t0, t0 <> nullptr -> insert_all l t0 <> nullptr.
Proof.
  induction l as [|[k c] l IH]; intros t0 Ht; [assumption|].
  simpl. apply IH. apply insert_code_not_null. assumption.
Qed.

Lemma insert_all_dom (l : list (Z * cstring)) :
  forall (t0 : HuffmanNode) (p : cstring),
    t0 <> nullptr ->
    (forall k c, In (k, c) l -> bit_string c) ->
    bit_string p ->
    (subtree p (insert_all l t0) <> nullptr
     <-> subtree p t0 <> nullptr \/ exists k c, In (k, c) l /\ is_prefix p c).
Proof.
  induction l as [|[k c] l IH]; intros t0 p Ht Hl Hp.
  - simpl. split; [tauto|]. intros [H|(k & c & [] & _)]. assumption.
  - cbn [insert_all fold_left fst snd]. fold (insert_all l (insert_code c k t0)).
    rewrite IH;
      [ | apply insert_code_not_null; assumption
        | intros k' c' H'; apply (Hl k' c'); right; assumption
        | assumption ].
    rewrite subtree_insert_code_dom;
      [ | assumption | apply (Hl k c); left; reflexivity | assumption ].
    split.
    + intros [[H|H]|(k' & c' & Hin & Hpre)].
      * left. assumption.
      * right. exists k, c. split; [left; reflexivity|assumption].
      * right. exists k', c'. split; [right; assumption|assumption].
    + intros [H|(k' & c' & [Heq|Hin] & Hpre)].
      * left. left. assumption.
      * injection Heq as <- <-. left. right. assumption.
      * right. exists k', c'. split; assumption.
Qed.

Lemma insert_all_sample_keep (l : list (Z * cstring)) :
  forall (t0 : HuffmanNode) (p : cstring),
    subtree p t0 <> nullptr ->
    (forall k c, In (k, c) l -> bit_string c) ->
    bit_string p ->
    (forall k c, In (k, c) l -> c <> p) ->
    sample_of (subtree p (insert_all l t0)) = sample_of (subtree p t0).
Proof.
  induction l as [|[k c] l IH]; intros t0 p Hn Hl Hp Hne; [reflexivity|].
  assert (Ht0 : t0 <> nullptr)
    by (intros ->; rewrite subtree_nullptr in Hn; congruence).
  assert (Hc : bit_string c) by (apply (Hl k c); left; reflexivity).
  cbn [insert_all fold_left fst snd]. fold (insert_all l (insert_code c k t0)).
  rewrite IH.
  - apply sample_insert_code_other; try assumption.
    intros ->. apply (Hne k c); [left|]; reflexivity.
  - apply subtree_insert_code_dom; try assumption. left. assumption.
  - intros k' c' H'. apply (Hl k' c'). right. assumption.
  - assumption.
  - intros k' c' H'. apply (Hne k' c'). right. assumption.
Qed.

Lemma insert_all_sample (l : list (Z * cstring)) :
  forall (t0 : HuffmanNode) (k : Z) (c : cstring),
    t0 <> nullptr ->
    (forall k c, In (k, c) l -> bit_string c) ->
    NoDup (map fst l) ->
    prefix_free l ->
    In (k, c) l ->
    sample_of (subtree c (insert_all l t0)) = k.
Proof.
  induction l as [|[k0 c0] l IH]; intros t0 k c Ht Hl Hnd Hpf Hin; [destruct Hin|].
  cbn [insert_all fold_left fst snd]. fold (insert_all l (insert_code c0 k0 t0)).
  simpl in Hnd. inversion Hnd as [|? ? Hk0 Hnd']; subst.
  assert (Hc0 : bit_string c0) by (apply (Hl k0 c0); left; reflexivity).
  assert (Hl' : forall k c, In (k, c) l -> bit_string c)
    by (intros k' c' H'; apply (Hl k' c'); right; assumption).
  destruct Hin as [Heq|Hin].
  - injection Heq as -> ->.
    rewrite insert_all_sample_keep.
    + apply sample_insert_code_same. assumption.
    + apply subtree_insert_code_dom; try assumption. right. apply is_prefix_refl.
    + assumption.
    + assumption.
    + intros k' c' H' ->.
      assert (Hkk : k' <> k).
      { intros ->. apply Hk0. apply (in_map fst) in H'. exact H'. }
      apply (Hpf k' c k c); [right; assumption|left; reflexivity|assumption|].
      apply is_prefix_refl.
  - apply IH; try assumption.
    + apply insert_code_not_null. assumption.
    + intros k1 c1 k2 c2 H1 H2. apply Hpf; right; assumption.
Qed.

Lemma wf_NoDup {V : Type} (m : StdMap.t V) : StdMap.wf m -> NoDup (StdMap.keys m).
Proof.
  unfold StdMap.wf. generalize (StdMap.keys m) as ks.
  induction ks as [|k ks IH]; intros Hs; [constructor|].
  inversion Hs as [|? ? Hs' Hall]; subst. constructor.
  - intros Hin. rewrite Forall_forall in Hall. specialize (Hall k Hin). lia.
  - apply IH. assumption.
Qed.

Lemma NoDup_keys_functional {V : Type} (l : list (Z * V)) (k : Z) (v v' : V) :
  NoDup (map fst l) -> In (k, v) l -> In (k, v') l -> v = v'.
Proof.
  induction l as [|[k0 v0] l IH]; intros Hnd H1 H2; [destruct H1|].
  simpl in Hnd. inversion Hnd as [|? ? Hk0 Hnd']; subst.
  destruct H1 as [H1|H1], H2 as [H2|H2].
  - congruence.
  - injection H1 as -> ->. exfalso. apply Hk0.
    apply (in_map fst) in H2. exact H2.
  - injection H2 as -> ->. exfalso. apply Hk0.
    apply (in_map fst) in H1. exact H1.
  - apply IH; assumption.
Qed.

Lemma is_prefix_app_self (c x : cstring) : is_prefix (c ++ x) c -> x = [].
Proof.
  intros [d Hd]. rewrite <- app_assoc in Hd.
  apply (f_equal (@length ascii)) in Hd. rewrite !length_app in Hd.
  destruct x; [reflexivity|simpl in Hd; lia].
Qed.

Lemma is_prefix_app_l (a b c : cstring) : is_prefix (a ++ b) c -> is_prefix a c.
Proof. intros [d ->]. exists (b ++ d). symmetry. apply app_assoc. Qed.

Section ValidTable.

Variable codes : StdMap.t cstring.
Hypothesis Hvalid : valid_table codes.

Let D := buildHuffmanTree codes.

Lemma table_child_null (k : Z) (c : cstring) (b : ascii) :
  In (k, c) codes -> is_bit b -> subtree (c ++ [b]) D = nullptr.
Proof.
  intros Hin Hb.
  destruct (subtree (c ++ [b]) D) eqn:E; [reflexivity|exfalso].
  assert (Hn : subtree (c ++ [b]) D <> nullptr) by (rewrite E; discriminate).
  unfold D in Hn. rewrite buildHuffmanTree_insert_all in Hn.
  apply insert_all_dom in Hn.
  - destruct Hn as [Hn|(k' & c' & Hin' & Hpre)].
    + rewrite subtree_new_node in Hn; [congruence|]. destruct c; discriminate.
    + destruct (Z.eq_dec k k') as [<-|Hkk].
      * assert (c' = c)
          by (eapply NoDup_keys_functional;
              [apply wf_NoDup, (vt_wf _ Hvalid)|eassumption|eassumption]).
        subst c'. apply is_prefix_app_self in Hpre. discriminate.
      * apply (vt_prefix_free _ Hvalid k c k' c' Hin Hin' Hkk).
        eapply is_prefix_app_l. eassumption.
  - discriminate.
  - apply (vt_bits _ Hvalid).
  - apply bit_string_app. split; [apply (vt_bits _ Hvalid _ _ Hin)|].
    constructor; [assumption|constructor].
Qed.

Lemma table_prefix_exists (k : Z) (c p : cstring) :
  In (k, c) codes -> is_prefix p c -> subtree p D <> nullptr.
Proof.
  intros Hin Hpre. unfold D. rewrite buildHuffmanTree_insert_all.
  apply insert_all_dom.
  - discriminate.
  - apply (vt_bits _ Hvalid).
  - eapply is_prefix_bit_string; [eassumption|apply (vt_bits _ Hvalid _ _ Hin)].
  - right. exists k, c. split; assumption.
Qed.

(** The node at the end of a code is a leaf holding the code's sample. *)
Lemma table_leaf (k : Z) (c : cstring) :
  In (k, c) codes -> subtree c D = Node k nullptr nullptr.
Proof.
  intros Hin.
  pose proof (table_prefix_exists _ _ _ Hin (is_prefix_refl c)) as Hn.
  pose proof (table_child_null k c ch0 Hin (or_introl eq_refl)) as H0.
  pose proof (table_child_null k c ch1 Hin (or_intror eq_refl)) as H1.
  assert (Hs : sample_of (subtree c D) = k).
  { unfold D. rewrite buildHuffmanTree_insert_all.
    apply insert_all_sample; try assumption.
    - discriminate.
    - apply (vt_bits _ Hvalid).
    - apply wf_NoDup, (vt_wf _ Hvalid).
    - apply (vt_prefix_free _ Hvalid). }
  rewrite subtree_app in H0, H1.
  destruct (subtree c D) as [|s l r]; [congruence|].
  simpl in *. congruence.
Qed.

(** The node at a proper prefix of a code is allocated and has the child
    the next bit asks for. *)
Lemma table_inner (k : Z) (p : cstring) (b : ascii) (q : cstring) :
  In (k, p ++ b :: q) codes ->
  exists s l r, subtree p D = Node s l r
                /\ (if Ascii.eqb b ch0 then l else r) = subtree (p ++ [b]) D
                /\ subtree (p ++ [b]) D <> nullptr.
Proof.
  intros Hin.
  assert (Hp : subtree p D <> nullptr).
  { apply (table_prefix_exists _ _ _ Hin). now exists (b :: q). }
  assert (Hpb : subtree (p ++ [b]) D <> nullptr).
  { apply (table_prefix_exists _ _ _ Hin). exists q. rewrite <- app_assoc. reflexivity. }
  rewrite subtree_app in Hpb |- *.
  destruct (subtree p D) as [|s l r]; [congruence|].
  exists s, l, r. simpl in *. auto.
Qed.

Lemma root_allocated : D <> nullptr.
Proof.
  unfold D. rewrite buildHuffmanTree_insert_all.
  apply insert_all_not_null. discriminate.
Qed.

(** From inside a code to its end: the sample is emitted and the walk
    restarts at the root. *)
Lemma walk_to_leaf (k : Z) (q : cstring) :
  forall (p rest : cstring) (audioData : list Z),
    In (k, p ++ q) codes -> q <> [] ->
    decode_walk D (subtree p D) (q ++ rest) audioData
    = decode_walk D D rest (audioData ++ [k]).
Proof.
  induction q as [|b q IH]; intros p rest audioData Hin Hq; [congruence|].
  destruct (table_inner _ _ _ _ Hin) as (s & l & r & Hnode & Hchild & Hnn).
  cbn [app decode_walk]. rewrite Hnode, Hchild.
  destruct q as [|b' q].
  - rewrite (table_leaf _ _ Hin). reflexivity.
  - assert (Hin' : In (k, (p ++ [b]) ++ b' :: q) codes)
      by (rewrite <- app_assoc; exact Hin).
    destruct (table_inner _ _ _ _ Hin') as (s' & l' & r' & Hnode' & Hchild' & Hnn').
    specialize (IH (p ++ [b]) rest audioData Hin' ltac:(discriminate)).
    rewrite Hnode' in IH |- *.
    assert (Hleaf : is_leaf (Node s' l' r') = false).
    { rewrite <- Hchild' in Hnn'.
      destruct l', r'; simpl; try reflexivity;
        destruct (Ascii.eqb b' ch0); congruence. }
    rewrite Hleaf. exact IH.
Qed.

Lemma walk_code (k : Z) (c rest : cstring) (audioData : list Z) :
  In (k, c) codes ->
  decode_walk D D (c ++ rest) audioData = decode_walk D D rest (audioData ++ [k]).
Proof.
  intros Hin. apply (walk_to_leaf k c [] rest audioData Hin).
  apply (vt_nonempty _ Hvalid _ _ Hin).
Qed.

(** The walk over a whole stream of codes. *)
Lemma walk_spells (samples : list Z) (bits : cstring) :
  spells codes samples bits ->
  forall (rest : cstring) (audioData : list Z),
    decode_walk D D (bits ++ rest) audioData
    = decode_walk D D rest (audioData ++ samples).
Proof.
  induction 1 as [|k c samples bits Hin Hsp IH]; intros rest audioData.
  - rewrite app_nil_r. reflexivity.
  - rewrite <- app_assoc, (walk_code _ _ _ _ Hin), IH, <- app_assoc. reflexivity.
Qed.

(** From inside a code to a later inner node of it: nothing is emitted. *)
Lemma walk_inside (k : Z) (q : cstring) :
  forall (p tail : cstring) (audioData : list Z),
    In (k, p ++ q ++ tail) codes -> tail <> [] ->
    decode_walk D (subtree p D) q audioData = Ok (audioData, subtree (p ++ q) D).
Proof.
  induction q as [|b q IH]; intros p tail audioData Hin Htail.
  - rewrite app_nil_r. reflexivity.
  - cbn [app] in Hin.
    destruct (table_inner _ _ _ _ Hin) as (s & l & r & Hnode & Hchild & Hnn).
    cbn [decode_walk]. rewrite Hnode, Hchild.
    assert (Hin' : In (k, (p ++ [b]) ++ q ++ tail) codes)
      by (rewrite <- app_assoc; exact Hin).
    specialize (IH (p ++ [b]) tail audioData Hin' Htail).
    rewrite <- app_assoc in IH. cbn [app] in IH.
    destruct (q ++ tail) as [|b' q'] eqn:Eq.
    { destruct q; [simpl in Eq; congruence|discriminate]. }
    destruct (table_inner _ _ _ _ Hin') as (s' & l' & r' & Hnode' & Hchild' & Hnn').
    rewrite Hnode' in IH |- *.
    assert (Hleaf : is_leaf (Node s' l' r') = false).
    { rewrite <- Hchild' in Hnn'.
      destruct l', r'; simpl; try reflexivity;
        destruct (Ascii.eqb b' ch0); congruence. }
    rewrite Hleaf. exact IH.
Qed.

End ValidTable.

End Trie.

(** The walk never returns to the root by value while it stands on a
    node below it. *)
Lemma node_count_subtree (p : cstring) :
  forall t : Decoder.HuffmanNode, (node_count (subtree p t) <= node_count t)%nat.
Proof.
  induction p as [|b p IH]; intros t; [simpl; lia|].
  destruct t as [|s l r]; [simpl; lia|]. cbn [subtree node_count].
  destruct (Ascii.eqb b ch0).
  - specialize (IH l). lia.
  - specialize (IH r). lia.
Qed.

Lemma subtree_not_root (p : cstring) (t : Decoder.HuffmanNode) :
  p <> [] -> t <> Decoder.nullptr -> subtree p t <> t.
Proof.
  intros Hp Ht E. destruct p as [|b p]; [congruence|].
  destruct t as [|s l r]; [congruence|].
  assert (Hlt : (node_count (subtree (b :: p) (Decoder.Node s l r))
                 < node_count (Decoder.Node s l r))%nat).
  { cbn [subtree node_count]. destruct (Ascii.eqb b ch0).
    - pose proof (node_count_subtree p l). lia.
    - pose proof (node_count_subtree p r). lia. }
  rewrite E in Hlt. lia.
Qed.

(** ** std::map: lookups after assignments *)

Section StdMapFacts.

Context {V : Type}.

Lemma find_set_same (k : Z) (v : V) (m : StdMap.t V) :
  StdMap.find k (StdMap.set k v m) = Some v.
Proof.
  induction m as [|[k' v'] m IH]; simpl.
  - rewrite Z.eqb_refl. reflexivity.
  - destruct (k <? k') eqn:Hlt; simpl.
    + rewrite Z.eqb_refl. reflexivity.
    + destruct (k =? k') eqn:Heq; simpl.
      * rewrite Z.eqb_refl. reflexivity.
      * rewrite Heq. exact IH.
Qed.

Lemma find_set_other (k k0 : Z) (v : V) (m : StdMap.t V) :
  k0 <> k -> StdMap.find k0 (StdMap.set k v m) = StdMap.find k0 m.
Proof.
  intros Hne. induction m as [|[k' v'] m IH]; simpl.
  - destruct (k0 =? k) eqn:E; [apply Z.eqb_eq in E; congruence|reflexivity].
  - destruct (k <? k') eqn:Hlt; simpl.
    + destruct (k0 =? k) eqn:E; [apply Z.eqb_eq in E; congruence|reflexivity].
    + destruct (k =? k') eqn:Heq; simpl.
      * apply Z.eqb_eq in Heq. subst k'.
        destruct (k0 =? k) eqn:E; [apply Z.eqb_eq in E; congruence|reflexivity].
      * rewrite IH. reflexivity.
Qed.

Lemma keys_set (k : Z) (v : V) (m : StdMap.t V) :
  forall k0, In k0 (StdMap.keys (StdMap.set k v m)) -> k0 = k \/ In k0 (StdMap.keys m).
Proof.
  induction m as [|[k' v'] m IH]; intros k0; simpl.
  - intros [H|[]]. left. congruence.
  - destruct (k <? k') eqn:Hlt; simpl.
    + intros [H|[H|H]]; auto.
    + destruct (k =? k') eqn:Heq; simpl.
      * intros [H|H]; auto.
      * intros [H|H]; auto. destruct (IH k0 H); auto.
Qed.

Lemma wf_set (k : Z) (v : V) (m : StdMap.t V) :
  StdMap.wf m -> StdMap.wf (StdMap.set k v m).
Proof.
  unfold StdMap.wf. induction m as [|[k' v'] m IH]; intros Hwf; simpl.
  - repeat constructor.
  - simpl in Hwf. inversion Hwf as [|? ? Hwf' Hall]; subst.
    destruct (k <? k') eqn:Hlt; simpl.
    + apply Z.ltb_lt in Hlt. constructor; [exact Hwf|].
      constructor; [assumption|].
      rewrite Forall_forall in Hall |- *. intros x Hx. specialize (Hall x Hx). lia.
    + apply Z.ltb_ge in Hlt. destruct (k =? k') eqn:Heq; simpl.
      * apply Z.eqb_eq in Heq. subst k'. constructor; assumption.
      * apply Z.eqb_neq in Heq. constructor; [apply IH; assumption|].
        rewrite Forall_forall in Hall |- *. intros x Hx.
        apply keys_set in Hx. destruct Hx as [->|Hx]; [lia|apply Hall; assumption].
Qed.

Lemma find_In (k : Z) (v : V) (m : StdMap.t V) :
  StdMap.find k m = Some v -> In (k, v) m.
Proof.
  induction m as [|[k' v'] m IH]; simpl; [discriminate|].
  destruct (k =? k') eqn:E.
  - apply Z.eqb_eq in E. subst k'. intros [= ->]. left. reflexivity.
  - intros H. right. apply IH. assumption.
Qed.

Lemma In_find (k : Z) (v : V) (m : StdMap.t V) :
  StdMap.wf m -> In (k, v) m -> StdMap.find k m = Some v.
Proof.
  unfold StdMap.wf. induction m as [|[k' v'] m IH]; intros Hwf Hin; [destruct Hin|].
  simpl in Hwf. inversion Hwf as [|? ? Hwf' Hall]; subst. simpl.
  destruct Hin as [Heq|Hin].
  - injection Heq as -> ->. rewrite Z.eqb_refl. reflexivity.
  - destruct (k =? k') eqn:E.
    + apply Z.eqb_eq in E. subst k'. exfalso.
      rewrite Forall_forall in Hall.
      specialize (Hall k (in_map fst _ _ Hin)). simpl in Hall. lia.
    + apply IH; assumption.
Qed.

Lemma find_None_keys (k : Z) (m : StdMap.t V) :
  StdMap.find k m = None <-> ~ In k (StdMap.keys m).
Proof.
  induction m as [|[k' v'] m IH]; simpl; [tauto|].
  destruct (k =? k') eqn:E.
  - apply Z.eqb_eq in E. subst k'. split; [discriminate|tauto].
  - apply Z.eqb_neq in E. rewrite IH. split; [intros H [H'|H']; congruence|tauto].
Qed.

Lemma find_Some_keys (k : Z) (m : StdMap.t V) :
  In k (StdMap.keys m) <-> exists v, StdMap.find k m = Some v.
Proof.
  destruct (StdMap.find k m) as [v|] eqn:E.
  - split; [intros _; now exists v|intros _].
    apply find_In in E. apply (in_map fst) in E. exact E.
  - split; [intros H; apply find_None_keys in E; tauto|intros [v Hv]; discriminate].
Qed.

End StdMapFacts.

(** ** [calculateFrequencies] *)

Section Frequencies.

Import Encoder.

Lemma count_samples_wf (audioData : list Z) :
  forall m, StdMap.wf m -> StdMap.wf (fold_left count_sample audioData m).
Proof.
  induction audioData as [|s rest IH]; intros m Hm; [assumption|].
  simpl. apply IH. apply wf_set. assumption.
Qed.

Lemma count_samples_keys (audioData : list Z) :
  forall m k,
    In k (StdMap.keys (fold_left count_sample audioData m))
    <-> In k audioData \/ In k (StdMap.keys m).
Proof.
  induction audioData as [|s rest IH]; intros m k; [simpl; tauto|].
  simpl. rewrite IH. unfold count_sample.
  rewrite !find_Some_keys.
  destruct (Z.eq_dec k s) as [->|Hne].
  - rewrite find_set_same. split; [tauto|]. intros _. right. eauto.
  - rewrite find_set_other by assumption. split; [tauto|].
    intros [[H|H]|H]; [congruence|tauto|tauto].
Qed.

Lemma count_samples_positive (audioData : list Z) :
  forall m,
    (forall k v, StdMap.find k m = Some v -> 0 < v) ->
    forall k v, StdMap.find k (fold_left count_sample audioData m) = Some v -> 0 < v.
Proof.
  induction audioData as [|s rest IH]; intros m Hm; [assumption|].
  simpl. apply IH. intros k v. unfold count_sample.
  destruct (Z.eq_dec k s) as [->|Hne].
  - rewrite find_set_same. intros [= <-]. unfold StdMap.get_or.
    destruct (StdMap.find s m) as [v0|] eqn:E; [|lia].
    specialize (Hm s v0 E). lia.
  - rewrite find_set_other by assumption. apply Hm.
Qed.

Lemma calculateFrequencies_wf (audioData : list Z) :
  StdMap.wf (calculateFrequencies audioData).
Proof. apply count_samples_wf. constructor. Qed.

Lemma calculateFrequencies_keys (audioData : list Z) (k : Z) :
  In k (StdMap.keys (calculateFrequencies audioData)) <-> In k audioData.
Proof.
  unfold calculateFrequencies. rewrite count_samples_keys. simpl. tauto.
Qed.

Lemma calculateFrequencies_positive (audioData : list Z) (k v : Z) :
  In (k, v) (calculateFrequencies audioData) -> 0 < v.
Proof.
  intros Hin. apply In_find in Hin; [|apply calculateFrequencies_wf].
  revert Hin. apply count_samples_positive. simpl. discriminate.
Qed.

End Frequencies.

(** ** The priority queue of [buildHuffmanTree] *)

Section Queue.

Import Encoder.

Lemma Compare_false (l r : HuffmanNode) :
  Compare l r = false <-> frequency_of l <= frequency_of r.
Proof. unfold Compare. rewrite Z.gtb_ltb, Z.ltb_ge. reflexivity. Qed.

Lemma is_heap_nil : is_heap [].
Proof. intros i Hi. simpl in Hi. lia. Qed.

(** The first element of a heap has the least frequency. *)
Lemma heap_front_least (v : list HuffmanNode) :
  is_heap v ->
  forall i, (i < length v)%nat ->
    frequency_of (nth 0 v nullptr) <= frequency_of (nth i v nullptr).
Proof.
  intros Hheap i. induction i as [i IH] using (well_founded_induction lt_wf).
  intros Hi. destruct i as [|i]; [lia|].
  assert (Hparent : ((S i - 1) / 2 < S i)%nat) by lia.
  specialize (IH _ Hparent ltac:(lia)).
  specialize (Hheap (S i) ltac:(lia)). apply Compare_false in Hheap. lia.
Qed.

Lemma heap_top_least (x : HuffmanNode) (v : list HuffmanNode) :
  is_heap (x :: v) -> forall y, In y v -> frequency_of x <= frequency_of y.
Proof.
  intros Hheap y Hy.
  destruct (In_nth _ _ nullptr Hy) as (i & Hi & Hnth).
  pose proof (heap_front_least _ Hheap (S i) ltac:(simpl; lia)) as Hle.
  simpl in Hle. rewrite Hnth in Hle. exact Hle.
Qed.

Variable H : HeapAlgorithms.
Hypothesis Hconf : conforming H.

Lemma pq_push_spec (x : HuffmanNode) (c : list HuffmanNode) :
  is_heap c -> is_heap (pq_push H x c) /\ Permutation (pq_push H x c) (x :: c).
Proof.
  intros Hc. unfold pq_push. split.
  - apply (push_heap_heap H Hconf). assumption.
  - rewrite (push_heap_perm H Hconf) by assumption.
    symmetry. apply Permutation_cons_append.
Qed.

Lemma pq_pop_spec (x : HuffmanNode) (c : list HuffmanNode) :
  is_heap (x :: c) -> is_heap (pq_pop H (x :: c)) /\ Permutation (pq_pop H (x :: c)) c.
Proof.
  intros Hc. unfold pq_pop.
  destruct (pop_heap_spec H Hconf x c Hc) as (v' & -> & Hperm & Hheap).
  rewrite removelast_last. split; assumption.
Qed.

Lemma push_leaves_spec (frequencies : list (Z * Z)) :
  forall heap,
    is_heap heap ->
    let heap' :=
      fold_left (fun heap pair => pq_push H (new_node (fst pair) (snd pair)) heap)
                frequencies heap in
    is_heap heap' /\ Permutation heap' (heap ++ map leaf_of frequencies).
Proof.
  induction frequencies as [|[k f] l IH]; intros heap Hheap.
  - simpl. rewrite app_nil_r. split; [assumption|reflexivity].
  - cbn [fold_left map]. destruct (pq_push_spec (new_node k f) heap Hheap) as [Hh Hp].
    destruct (IH _ Hh) as [Hh' Hp']. split; [exact Hh'|].
    cbn zeta in Hp'. cbn [fst snd]. rewrite Hp', Hp.
    change (leaf_of (k, f)) with (new_node k f).
    apply Permutation_middle.
Qed.

Lemma merge_step_spec (minHeap : list HuffmanNode) :
  is_heap minHeap -> (2 <= length minHeap)%nat ->
  exists t1 t2 rest minHeap',
    merge_step H minHeap = Ok minHeap'
    /\ is_heap minHeap'
    /\ Permutation minHeap (t1 :: t2 :: rest)
    /\ Permutation minHeap'
         (Node (-1) (frequency_of t1 + frequency_of t2) t1 t2 :: rest)
    /\ (forall x, In x (t2 :: rest) -> frequency_of t1 <= frequency_of x)
    /\ (forall x, In x rest -> frequency_of t2 <= frequency_of x).
Proof.
  intros Hheap Hlen.
  destruct minHeap as [|t1 c]; [simpl in Hlen; lia|].
  destruct (pq_pop_spec t1 c Hheap) as [Hh1 Hp1].
  destruct (pq_pop H (t1 :: c)) as [|t2 c1] eqn:E1.
  { apply Permutation_length in Hp1. simpl in Hp1, Hlen. lia. }
  destruct (pq_pop_spec t2 c1 Hh1) as [Hh2 Hp2].
  set (combined := Node (-1) (frequency_of t1 + frequency_of t2) t1 t2).
  destruct (pq_push_spec combined (pq_pop H (t2 :: c1)) Hh2) as [Hh3 Hp3].
  exists t1, t2, (pq_pop H (t2 :: c1)), (pq_push H combined (pq_pop H (t2 :: c1))).
  split; [|split; [|split; [|split; [|split]]]].
  - unfold merge_step. cbn [pq_top bind]. rewrite E1. reflexivity.
  - exact Hh3.
  - constructor. rewrite <- Hp1. constructor. symmetry. exact Hp2.
  - exact Hp3.
  - intros x Hx. apply (heap_top_least t1 c Hheap).
    apply (Permutation_in x Hp1). destruct Hx as [->|Hx]; [left; reflexivity|].
    right. apply (Permutation_in x Hp2). exact Hx.
  - intros x Hx. apply (heap_top_least t2 c1 Hh1).
    apply (Permutation_in x Hp2). exact Hx.
Qed.

Lemma huffman_perm (forest forest' : list HuffmanNode) (t : HuffmanNode) :
  Permutation forest forest' -> huffman forest t -> huffman forest' t.
Proof.
  intros Hp Hh. destruct Hh as [t|forest t1 t2 rest t Hperm H1 H2 Hh].
  - apply Permutation_length_1_inv in Hp. subst. constructor.
  - apply (huffman_merge forest' t1 t2 rest t); try assumption.
    rewrite <- Hp. assumption.
Qed.

(** The loop ends with one node, a tree [huffman] describes. *)
Lemma merge_loop_spec (fuel : nat) :
  forall minHeap,
    is_heap minHeap -> minHeap <> [] -> (length minHeap <= S fuel)%nat ->
    exists t, merge_loop H fuel minHeap = Ok [t] /\ huffman minHeap t.
Proof.
  induction fuel as [|fuel IH]; intros minHeap Hheap Hne Hlen.
  - destruct minHeap as [|t [|t' c]]; [congruence| |simpl in Hlen; lia].
    exists t. split; [reflexivity|constructor].
  - destruct minHeap as [|t [|t' c]]; [congruence| |].
    + exists t. split; [reflexivity|constructor].
    + destruct (merge_step_spec (t :: t' :: c) Hheap ltac:(simpl; lia))
        as (t1 & t2 & rest & minHeap' & Hstep & Hh' & Hp & Hp' & Hmin1 & Hmin2).
      assert (Hlen' : length minHeap' = S (length rest))
        by (apply Permutation_length in Hp'; exact Hp').
      assert (Hlen0 : length (t :: t' :: c) = S (S (length rest)))
        by (apply Permutation_length in Hp; exact Hp).
      destruct (IH minHeap' Hh') as (r & Hloop & Hr).
      * intros ->. discriminate.
      * simpl in Hlen, Hlen0. lia.
      * exists r. split.
        -- cbn [merge_loop]. replace (1 <? length (t :: t' :: c))%nat with true
             by reflexivity.
           rewrite Hstep. exact Hloop.
        -- apply (huffman_merge _ t1 t2 rest r Hp Hmin1 Hmin2).
           apply (huffman_perm minHeap'); assumption.
Qed.

Lemma buildHuffmanTree_spec (frequencies : StdMap.t Z) :
  frequencies <> [] ->
  exists t, buildHuffmanTree H frequencies = Ok t
            /\ huffman (map leaf_of frequencies) t.
Proof.
  intros Hne. unfold buildHuffmanTree, push_leaves.
  destruct (push_leaves_spec frequencies [] is_heap_nil) as [Hheap Hperm].
  cbn zeta in Hheap, Hperm. simpl app in Hperm.
  set (minHeap := fold_left _ frequencies []) in *.
  assert (Hne' : minHeap <> []).
  { intros E. rewrite E in Hperm. apply Permutation_nil in Hperm.
    destruct frequencies; [congruence|discriminate]. }
  destruct (merge_loop_spec (length minHeap) minHeap Hheap Hne' ltac:(lia))
    as (t & Hloop & Ht).
  exists t. rewrite Hloop. split; [reflexivity|].
  apply (huffman_perm minHeap); assumption.
Qed.

End Queue.

Lemma buildHuffmanTree_empty (H : Encoder.HeapAlgorithms) :
  Encoder.buildHuffmanTree H StdMap.empty = Undefined.
Proof. reflexivity. Qed.

(** ** The shape of the encoder's tree *)

Section Shape.

Import Encoder.

(** A leaf holding a [combined] node can be opened into its two
    children: the tree stays the same, the cost grows by its
    frequency. *)
Lemma split_leaf (top : bt HuffmanNode) :
  forall (t1 t2 : HuffmanNode) (rest : list HuffmanNode),
    Permutation (leaves top)
      (Node (-1) (frequency_of t1 + frequency_of t2) t1 t2 :: rest) ->
    exists top',
      join top' = join top
      /\ Permutation (leaves top') (t1 :: t2 :: rest)
      /\ forall d, cost_at frequency_of d top'
                   = cost_at frequency_of d top + (frequency_of t1 + frequency_of t2).
Proof.
  induction top as [a|l IHl r IHr]; intros t1 t2 rest Hperm.
  - simpl in Hperm. apply Permutation_length_1_inv in Hperm.
    injection Hperm as <- ->.
    exists (Br (Leaf t1) (Leaf t2)). split; [reflexivity|]. split; [reflexivity|].
    intros d. simpl. lia.
  - simpl in Hperm.
    set (c := Node (-1) (frequency_of t1 + frequency_of t2) t1 t2) in *.
    assert (Hin : In c (leaves l ++ leaves r))
      by (apply (Permutation_in c (Permutation_sym Hperm)); left; reflexivity).
    apply in_app_or in Hin. destruct Hin as [Hin|Hin].
    + destruct (in_split _ _ Hin) as (A & B & E).
      assert (Hl : Permutation (leaves l) (c :: A ++ B))
        by (rewrite E; symmetry; apply Permutation_middle).
      destruct (IHl t1 t2 (A ++ B) Hl) as (l' & Hj & Hp & Hc).
      exists (Br l' r). split; [simpl; rewrite Hj; reflexivity|]. split.
      * assert (Hrest : Permutation rest ((A ++ B) ++ leaves r)).
        { apply (Permutation_cons_inv (a := c)).
          rewrite <- Hperm, Hl. reflexivity. }
        simpl. rewrite Hp, Hrest. reflexivity.
      * intros d. simpl. rewrite Hc. lia.
    + destruct (in_split _ _ Hin) as (A & B & E).
      assert (Hr : Permutation (leaves r) (c :: A ++ B))
        by (rewrite E; symmetry; apply Permutation_middle).
      destruct (IHr t1 t2 (A ++ B) Hr) as (r' & Hj & Hp & Hc).
      exists (Br l r'). split; [simpl; rewrite Hj; reflexivity|]. split.
      * assert (Hrest : Permutation rest (leaves l ++ A ++ B)).
        { apply (Permutation_cons_inv (a := c)).
          rewrite <- Hperm, Hr. symmetry. apply Permutation_middle. }
        simpl. rewrite Hp, Hrest. symmetry.
        etransitivity; [|apply Permutation_middle].
        constructor. apply Permutation_middle.
      * intros d. simpl. rewrite Hc. lia.
Qed.

(** Whatever [huffman] produces is a full binary tree over the forest it
    started from. *)
Lemma huffman_shape (forest : list HuffmanNode) (t : HuffmanNode) :
  huffman forest t ->
  exists top, join top = t /\ Permutation (leaves top) forest.
Proof.
  induction 1 as [t|forest t1 t2 rest t Hperm Hmin1 Hmin2 Hh IH].
  - exists (Leaf t). split; reflexivity.
  - destruct IH as (top & Hj & Hp).
    destruct (split_leaf top t1 t2 rest Hp) as (top' & Hj' & Hp' & _).
    exists top'. split; [congruence|]. rewrite Hp'. symmetry. exact Hperm.
Qed.

(** [generateCodes] over such a tree records the code of every leaf,
    from left to right. *)
Lemma generateCodes_join (top : bt HuffmanNode) :
  forall (str : cstring) (m : StdMap.t cstring),
    Forall is_leaf_node (leaves top) ->
    generateCodes (join top) str m = fold_left record_code (paths top str) m.
Proof.
  induction top as [a|l IHl r IHr]; intros str m Hleaves.
  - simpl in Hleaves. inversion Hleaves as [|? ? (s & f & ->) _]; subst.
    reflexivity.
  - simpl in Hleaves. apply Forall_app in Hleaves. destruct Hleaves as [Hl Hr].
    cbn [join generateCodes paths]. rewrite fold_left_app.
    replace (negb (-1 =? -1)) with false by reflexivity.
    rewrite IHl by assumption. rewrite IHr by assumption. reflexivity.
Qed.

Lemma paths_fst {A : Type} (t : bt A) :
  forall str, map fst (paths t str) = leaves t.
Proof.
  induction t as [a|l IHl r IHr]; intros str; [reflexivity|].
  simpl. rewrite map_app, IHl, IHr. reflexivity.
Qed.

Lemma paths_extend {A : Type} (t : bt A) :
  forall str a c, In (a, c) (paths t str) -> is_prefix str c.
Proof.
  induction t as [x|l IHl r IHr]; intros str a c Hin.
  - destruct Hin as [[= <- <-]|[]]. apply is_prefix_refl.
  - simpl in Hin. apply in_app_or in Hin.
    destruct Hin as [Hin|Hin];
      [apply IHl in Hin|apply IHr in Hin];
      eapply is_prefix_app_l; eassumption.
Qed.

Lemma paths_bits {A : Type} (t : bt A) :
  forall str a c, bit_string str -> In (a, c) (paths t str) -> bit_string c.
Proof.
  induction t as [x|l IHl r IHr]; intros str a c Hstr Hin.
  - destruct Hin as [[= <- <-]|[]]. assumption.
  - simpl in Hin. apply in_app_or in Hin.
    destruct Hin as [Hin|Hin];
      [eapply IHl; [|eassumption]|eapply IHr; [|eassumption]];
      apply bit_string_app; (split; [assumption|]);
      (constructor; [|constructor]); [left|right]; reflexivity.
Qed.

Lemma is_prefix_trans (a b c : cstring) :
  is_prefix a b -> is_prefix b c -> is_prefix a c.
Proof. intros [x ->] [y ->]. exists (x ++ y). symmetry. apply app_assoc. Qed.

Lemma is_prefix_app_inv (str x y : cstring) :
  is_prefix (str ++ x) (str ++ y) -> is_prefix x y.
Proof.
  intros [d Hd]. exists d. rewrite <- app_assoc in Hd.
  apply app_inv_head in Hd. exact Hd.
Qed.

(** Two prefixes of one string are prefixes of one another. *)
Lemma is_prefix_comparable (a b c : cstring) :
  is_prefix a c -> is_prefix b c -> is_prefix a b \/ is_prefix b a.
Proof.
  revert b c. induction a as [|x a IH]; intros b c Ha Hb.
  - left. apply is_prefix_nil.
  - destruct b as [|y b]; [right; apply is_prefix_nil|].
    destruct c as [|z c]; [apply is_prefix_of_nil in Ha; discriminate|].
    apply is_prefix_cons in Ha. apply is_prefix_cons in Hb.
    destruct Ha as [-> Ha], Hb as [-> Hb].
    destruct (IH b c Ha Hb); [left|right]; apply is_prefix_cons; auto.
Qed.

Lemma branches_diverge (str c1 c2 : cstring) :
  is_prefix (str ++ [ch0]) c1 -> is_prefix (str ++ [ch1]) c2 ->
  ~ is_prefix c1 c2 /\ ~ is_prefix c2 c1.
Proof.
  intros H1 H2.
  assert (Hno : forall c, is_prefix (str ++ [ch0]) c -> is_prefix (str ++ [ch1]) c -> False).
  { intros c Ha Hb.
    destruct (is_prefix_comparable _ _ _ Ha Hb) as [H|H];
      apply is_prefix_app_inv in H; apply is_prefix_cons in H;
      destruct H as [H _]; discriminate. }
  split; intros Hp.
  - apply (Hno c2); [eapply is_prefix_trans; eassumption|assumption].
  - apply (Hno c1); [assumption|eapply is_prefix_trans; eassumption].
Qed.

(** The codes of one tree: a code that is a prefix of another belongs
    to the same leaf. *)
Lemma paths_prefix_free {A : Type} (t : bt A) :
  forall str a1 c1 a2 c2,
    In (a1, c1) (paths t str) -> In (a2, c2) (paths t str) ->
    is_prefix c1 c2 -> a1 = a2 /\ c1 = c2.
Proof.
  induction t as [x|l IHl r IHr]; intros str a1 c1 a2 c2 H1 H2 Hpre.
  - destruct H1 as [[= <- <-]|[]]. destruct H2 as [[= <- <-]|[]]. auto.
  - simpl in H1, H2. apply in_app_or in H1. apply in_app_or in H2.
    destruct H1 as [H1|H1], H2 as [H2|H2].
    + eapply IHl; eassumption.
    + exfalso. apply paths_extend in H1. apply paths_extend in H2.
      destruct (branches_diverge _ _ _ H1 H2). tauto.
    + exfalso. apply paths_extend in H1. apply paths_extend in H2.
      destruct (branches_diverge _ _ _ H2 H1). tauto.
    + eapply IHr; eassumption.
Qed.

Lemma paths_nonempty {A : Type} (l r : bt A) (a : A) (c : cstring) :
  In (a, c) (paths (Br l r) []) -> c <> [].
Proof.
  simpl. intros Hin ->. apply in_app_or in Hin.
  destruct Hin as [Hin|Hin]; apply paths_extend in Hin;
    apply is_prefix_of_nil in Hin; discriminate.
Qed.

End Shape.

(** ** The table [generateCodes] fills *)

Section GeneratedTable.

Import Encoder.

Lemma record_code_wf (ps : list (HuffmanNode * cstring)) :
  forall m, StdMap.wf m -> StdMap.wf (fold_left record_code ps m).
Proof.
  induction ps as [|e ps IH]; intros m Hm; [assumption|].
  simpl. apply IH. unfold record_code.
  destruct (negb (sample_field (fst e) =? -1)); [apply wf_set|]; assumption.
Qed.

Lemma record_code_find_other (ps : list (HuffmanNode * cstring)) :
  forall m k, ~ In k (map entry_key ps) ->
    StdMap.find k (fold_left record_code ps m) = StdMap.find k m.
Proof.
  induction ps as [|e ps IH]; intros m k Hk; [reflexivity|].
  simpl in Hk |- *. rewrite IH by tauto. unfold record_code.
  destruct (negb (sample_field (fst e) =? -1)); [|reflexivity].
  apply find_set_other. unfold entry_key in Hk. intros ->. tauto.
Qed.

Lemma record_code_find (ps : list (HuffmanNode * cstring)) :
  forall m n c,
    NoDup (map entry_key ps) -> In (n, c) ps -> sample_field n <> -1 ->
    StdMap.find (sample_field n) (fold_left record_code ps m) = Some c.
Proof.
  induction ps as [|e ps IH]; intros m n c Hnd Hin Hn; [destruct Hin|].
  simpl in Hnd. inversion Hnd as [|? ? Hnotin Hnd']; subst.
  simpl. destruct Hin as [->|Hin].
  - rewrite record_code_find_other by exact Hnotin.
    unfold record_code. cbn [fst snd].
    replace (sample_field n =? -1) with false
      by (symmetry; apply Z.eqb_neq; assumption).
    apply find_set_same.
  - apply IH; assumption.
Qed.

(** No string is ever recorded under the key -1. *)
Lemma generateCodes_skips_minus_one (root : HuffmanNode) :
  forall str m,
    StdMap.find (-1) (generateCodes root str m) = StdMap.find (-1) m.
Proof.
  induction root as [|s f l IHl r IHr]; intros str m; [reflexivity|].
  cbn [generateCodes]. rewrite IHr, IHl.
  destruct (negb (s =? -1)) eqn:E; [|reflexivity].
  apply find_set_other. apply negb_true_iff, Z.eqb_neq in E. congruence.
Qed.

Section FromTree.

Variable top : bt HuffmanNode.
Hypothesis Hleaves : Forall is_leaf_node (leaves top).
Hypothesis Hdistinct : NoDup (map sample_field (leaves top)).

Let codes := generateCodes (join top) [] StdMap.empty.

Lemma codes_eq : codes = fold_left record_code (paths top []) StdMap.empty.
Proof. apply generateCodes_join. assumption. Qed.

Lemma paths_keys : map entry_key (paths top []) = map sample_field (leaves top).
Proof.
  rewrite <- (paths_fst top []). rewrite map_map. reflexivity.
Qed.

Lemma codes_wf : StdMap.wf codes.
Proof. rewrite codes_eq. apply record_code_wf. constructor. Qed.

(** A leaf whose sample is not -1 gets its path as code. *)
Lemma codes_of_leaf (n : HuffmanNode) (c : cstring) :
  In (n, c) (paths top []) -> sample_field n <> -1 ->
  StdMap.find (sample_field n) codes = Some c.
Proof.
  intros Hin Hn. rewrite codes_eq. apply record_code_find.
  - rewrite paths_keys. assumption.
  - assumption.
  - assumption.
Qed.

Lemma codes_In (k : Z) (c : cstring) :
  In (k, c) codes -> exists n, In (n, c) (paths top []) /\ sample_field n = k.
Proof.
  intros Hin. apply In_find in Hin; [|apply codes_wf].
  assert (Hk1 : k <> -1).
  { intros ->. unfold codes in Hin.
    rewrite generateCodes_skips_minus_one in Hin. discriminate. }
  destruct (in_dec Z.eq_dec k (map entry_key (paths top []))) as [Hk|Hk].
  - apply in_map_iff in Hk. destruct Hk as ([n c'] & Hkey & Hin').
    unfold entry_key in Hkey. cbn [fst] in Hkey. subst k.
    rewrite (codes_of_leaf _ _ Hin' Hk1) in Hin. injection Hin as ->.
    exists n. split; [assumption|reflexivity].
  - rewrite codes_eq, record_code_find_other in Hin by assumption.
    discriminate.
Qed.

Lemma codes_keys (k : Z) :
  In k (map sample_field (leaves top)) -> k <> -1 ->
  exists c, StdMap.find k codes = Some c.
Proof.
  intros Hk Hk1. rewrite <- paths_keys in Hk. apply in_map_iff in Hk.
  destruct Hk as ([n c] & Hkey & Hin). unfold entry_key in Hkey.
  cbn [fst] in Hkey. subst k. exists c. apply codes_of_leaf; assumption.
Qed.

Lemma codes_prefix_free : prefix_free codes.
Proof.
  intros k1 c1 k2 c2 H1 H2 Hne Hpre.
  apply codes_In in H1. apply codes_In in H2.
  destruct H1 as (n1 & H1 & <-), H2 as (n2 & H2 & <-).
  destruct (paths_prefix_free top [] n1 c1 n2 c2 H1 H2 Hpre) as [-> _].
  congruence.
Qed.

Lemma codes_bits (k : Z) (c : cstring) : In (k, c) codes -> bit_string c.
Proof.
  intros Hin. apply codes_In in Hin. destruct Hin as (n & Hin & _).
  apply (paths_bits top [] n c); [constructor|assumption].
Qed.

(** With two leaves or more the table is a prefix code of non-empty
    bit strings. *)
Lemma codes_valid : (2 <= length (leaves top))%nat -> valid_table codes.
Proof.
  intros Hlen. constructor.
  - apply codes_wf.
  - apply codes_bits.
  - intros k c Hin. apply codes_In in Hin. destruct Hin as (n & Hin & _).
    destruct top as [a|l r]; [simpl in Hlen; lia|].
    apply (paths_nonempty l r n c Hin).
  - apply codes_prefix_free.
Qed.

End FromTree.

Lemma encodeAudioData_spells (codes : StdMap.t cstring) (audioData : list Z) :
  (forall s, In s audioData -> exists c, StdMap.find s codes = Some c) ->
  exists bits, encodeAudioData audioData codes = Ok bits
               /\ spells codes audioData bits.
Proof.
  induction audioData as [|s rest IH]; intros Hall.
  - exists []. split; [reflexivity|constructor].
  - destruct (Hall s (or_introl eq_refl)) as [c Hc].
    destruct IH as (bits & Henc & Hsp).
    { intros s' Hs'. apply Hall. right. assumption. }
    exists (c ++ bits). split.
    + cbn [encodeAudioData]. unfold StdMap.at_. rewrite Hc. cbn [bind].
      rewrite Henc. reflexivity.
    + constructor; [apply find_In; assumption|assumption].
Qed.

Lemma encodeAudioData_throws (codes : StdMap.t cstring) (audioData : list Z) (s : Z) :
  In s audioData -> StdMap.find s codes = None ->
  encodeAudioData audioData codes = OutOfRange.
Proof.
  intros Hin Hnone. induction audioData as [|s0 rest IH]; [destruct Hin|].
  cbn [encodeAudioData]. unfold StdMap.at_.
  destruct (StdMap.find s0 codes) as [c|] eqn:E; [|reflexivity].
  cbn [bind]. destruct Hin as [->|Hin]; [congruence|].
  rewrite (IH Hin). reflexivity.
Qed.

Lemma spells_bits (codes : StdMap.t cstring) (samples : list Z) (bits : cstring) :
  (forall k c, In (k, c) codes -> bit_string c) ->
  spells codes samples bits -> bit_string bits.
Proof.
  intros Hcodes. induction 1 as [|k c samples bits Hin Hsp IH]; [constructor|].
  apply bit_string_app. split; [apply (Hcodes k c Hin)|assumption].
Qed.

End GeneratedTable.

(** ** The encoder on a sample sequence *)

Section EncoderRun.

Import Encoder.

Variable H : HeapAlgorithms.
Hypothesis Hconf : conforming H.

Lemma leaf_of_sample (pair : Z * Z) : sample_field (leaf_of pair) = fst pair.
Proof. reflexivity. Qed.

Lemma leaf_of_frequency (pair : Z * Z) : frequency_of (leaf_of pair) = snd pair.
Proof. reflexivity. Qed.

(** The tree of a frequency table: a full binary tree whose leaves are
    the bindings of the table. *)
Lemma buildHuffmanTree_shape (frequencies : StdMap.t Z) :
  frequencies <> [] ->
  exists top,
    buildHuffmanTree H frequencies = Ok (join top)
    /\ Permutation (leaves top) (map leaf_of frequencies)
    /\ huffman (map leaf_of frequencies) (join top).
Proof.
  intros Hne.
  destruct (buildHuffmanTree_spec H Hconf frequencies Hne) as (t & Hbuild & Hh).
  destruct (huffman_shape _ _ Hh) as (top & Hj & Hp).
  exists top. rewrite Hj. auto.
Qed.

Lemma shape_leaves (top : bt HuffmanNode) (frequencies : StdMap.t Z) :
  Permutation (leaves top) (map leaf_of frequencies) ->
  StdMap.wf frequencies ->
  Forall is_leaf_node (leaves top)
  /\ NoDup (map sample_field (leaves top))
  /\ (forall k, In k (map sample_field (leaves top)) <-> In k (StdMap.keys frequencies)).
Proof.
  intros Hp Hwf.
  assert (Hkeys : Permutation (map sample_field (leaves top)) (StdMap.keys frequencies)).
  { rewrite Hp, map_map. unfold StdMap.keys.
    rewrite (map_ext _ fst leaf_of_sample). reflexivity. }
  split; [|split].
  - apply Forall_forall. intros n Hn. apply (Permutation_in n Hp) in Hn.
    apply in_map_iff in Hn. destruct Hn as ([k f] & <- & _).
    exists k, f. reflexivity.
  - apply (Permutation_NoDup (Permutation_sym Hkeys)). apply wf_NoDup. assumption.
  - intros k. split; apply Permutation_in; [|symmetry]; assumption.
Qed.

Lemma two_distinct_table (audioData : list Z) :
  two_distinct audioData -> (2 <= length (calculateFrequencies audioData))%nat.
Proof.
  intros (a & b & Ha & Hb & Hab).
  apply calculateFrequencies_keys in Ha, Hb. unfold StdMap.keys in Ha, Hb.
  destruct (calculateFrequencies audioData) as [|x [|y l]].
  - destruct Ha.
  - simpl in Ha, Hb. destruct Ha as [<-|[]], Hb as [<-|[]]. congruence.
  - simpl. lia.
Qed.

(** What the encoder writes for a sequence with two values or more and
    no -1 in it. *)
Lemma main_spec (header : WavHeader) (audioData : list Z) :
  two_distinct audioData -> ~ In (-1) audioData ->
  exists codes bits,
    valid_table codes
    /\ spells codes audioData bits
    /\ main H header audioData
       = Ok {| file_header := header;
               file_codes := codes;
               file_bit_count := to_uint32 (length bits);
               file_bytes := pack_bits bits 0 0 |}.
Proof.
  intros Htwo Hminus.
  pose proof (two_distinct_table audioData Htwo) as Hlen.
  pose proof (calculateFrequencies_wf audioData) as Hwf.
  set (frequencies := calculateFrequencies audioData) in *.
  destruct (buildHuffmanTree_shape frequencies) as (top & Hbuild & Hp & _).
  { intros E. rewrite E in Hlen. simpl in Hlen. lia. }
  destruct (shape_leaves top frequencies Hp Hwf) as (Hleaf & Hnd & Hkeys).
  assert (Hlen' : (2 <= length (leaves top))%nat).
  { apply Permutation_length in Hp. rewrite length_map in Hp.
    rewrite Hp. exact Hlen. }
  set (codes := generateCodes (join top) [] StdMap.empty).
  destruct (encodeAudioData_spells codes audioData) as (bits & Henc & Hsp).
  { intros s Hs. apply (codes_keys top Hleaf Hnd).
    - apply Hkeys. apply calculateFrequencies_keys. assumption.
    - intros ->. tauto. }
  exists codes, bits. split; [|split].
  - apply (codes_valid top Hleaf Hnd Hlen').
  - exact Hsp.
  - unfold main. fold frequencies. rewrite Hbuild. cbn [bind].
    fold codes. rewrite Henc. reflexivity.
Qed.

End EncoderRun.

(** ** Encoder, then decoder *)

Lemma to_uint32_small (n : nat) :
  Z.of_nat n < two32 -> Z.to_nat (to_uint32 n) = n.
Proof.
  intros Hn. unfold to_uint32. rewrite Z.mod_small by lia. apply Nat2Z.id.
Qed.

Lemma decoder_main_spec (indeterminate : nat -> Z) (header : WavHeader)
      (codes : StdMap.t cstring) (samples : list Z) (bits : cstring) :
  valid_table codes -> spells codes samples bits ->
  Z.of_nat (length bits) < two32 ->
  Decoder.main indeterminate
    {| file_header := header;
       file_codes := codes;
       file_bit_count := to_uint32 (length bits);
       file_bytes := Encoder.pack_bits bits 0 0 |}
  = Ok (header, samples).
Proof.
  intros Hvalid Hsp Hlen. unfold Decoder.main. cbn [file_codes file_bit_count file_bytes file_header].
  rewrite to_uint32_small by assumption.
  rewrite unpack_pack by (apply (spells_bits codes samples); [apply (vt_bits _ Hvalid)|assumption]).
  unfold Decoder.decodeAudioData.
  pose proof (walk_spells codes Hvalid samples bits Hsp [] []) as Hwalk.
  rewrite app_nil_r in Hwalk. rewrite Hwalk. reflexivity.
Qed.

Lemma spells_length (codes : StdMap.t cstring) (samples : list Z) (bits : cstring) :
  StdMap.wf codes -> spells codes samples bits ->
  length bits = encoded_bits codes samples.
Proof.
  intros Hwf. induction 1 as [|k c samples bits Hin Hsp IH]; [reflexivity|].
  rewrite length_app, IH. cbn [encoded_bits]. unfold StdMap.get_or.
  rewrite (In_find k c codes Hwf Hin). reflexivity.
Qed.

(** ** A bit count that does not fit 32 bits

    With 2^32 bits or more the recorded count is the length modulo 2^32:
    the decoder reads a proper prefix of the stream and returns a proper
    prefix of the samples. *)

Lemma unpack_pack_prefix (indeterminate : nat -> Z) (bits : cstring) (r : nat) :
  bit_string bits -> (r <= length bits)%nat ->
  Decoder.readEncodedData indeterminate (Encoder.pack_bits bits 0 0) r
  = firstn r bits.
Proof.
  intros Hbits Hr.
  assert (Hlen : length (firstn r bits) = r) by (rewrite length_firstn; lia).
  rewrite <- Hlen at 1. apply readEncodedData_ext.
  - rewrite Hlen, pack_bits_size. lia.
  - rewrite Hlen. intros i Hi.
    rewrite nth_firstn. replace (i <? r)%nat with true
      by (symmetry; apply Nat.ltb_lt; assumption).
    apply bit_char_of_bit.
    + unfold bit_string in Hbits. rewrite Forall_forall in Hbits.
      apply Hbits. apply nth_In. lia.
    + apply pack_bits_bit. lia.
Qed.

(** A proper prefix of a stream of codes ends inside the code of some
    sample, after the codes of the samples before it. *)
Lemma spells_prefix (codes : StdMap.t cstring) (samples : list Z) (bits : cstring) :
  spells codes samples bits ->
  forall r, (r < length bits)%nat ->
    exists before k after bits1 p tail,
      samples = before ++ k :: after
      /\ spells codes before bits1
      /\ In (k, p ++ tail) codes
      /\ tail <> []
      /\ firstn r bits = bits1 ++ p.
Proof.
  induction 1 as [|k c samples bits Hin Hsp IH]; intros r Hr; [simpl in Hr; lia|].
  rewrite length_app in Hr. rewrite firstn_app.
  destruct (Nat.lt_ge_cases r (length c)) as [Hlt|Hge].
  - exists [], k, samples, [], (firstn r c), (skipn r c).
    split; [reflexivity|]. split; [constructor|].
    split; [rewrite firstn_skipn; exact Hin|]. split.
    + intros E. apply (f_equal (@length ascii)) in E.
      rewrite length_skipn in E. simpl in E. lia.
    + replace (r - length c)%nat with 0%nat by lia.
      rewrite firstn_O, app_nil_r. reflexivity.
  - destruct (IH (r - length c)%nat ltac:(lia))
      as (before & k' & after & bits1 & p & tail & -> & Hsp1 & Hin' & Htail & Hfirst).
    exists (k :: before), k', after, (c ++ bits1), p, tail.
    split; [reflexivity|]. split; [constructor; assumption|].
    split; [exact Hin'|]. split; [exact Htail|].
    rewrite firstn_all2 by lia. rewrite Hfirst, app_assoc. reflexivity.
Qed.

Lemma long_stream_is_truncated (H : Encoder.HeapAlgorithms) (indeterminate : nat -> Z)
      (header : WavHeader) (audioData : list Z) (f : EncodedFile) :
  Encoder.conforming H ->
  two_distinct audioData ->
  ~ In (-1) audioData ->
  Encoder.main H header audioData = Ok f ->
  two32 <= Z.of_nat (encoded_bits (file_codes f) audioData) ->
  exists before k after,
    audioData = before ++ k :: after
    /\ Decoder.main indeterminate f = Ok (header, before).
Proof.
  intros Hconf Htwo Hminus Hmain Hlong.
  destruct (main_spec H Hconf header audioData Htwo Hminus)
    as (codes & bits & Hvalid & Hsp & Hmain').
  rewrite Hmain' in Hmain. injection Hmain as <-. cbn [file_codes] in Hlong.
  rewrite <- (spells_length codes audioData bits (vt_wf _ Hvalid) Hsp) in Hlong.
  set (r := Z.to_nat (to_uint32 (length bits))).
  assert (Hr : (r < length bits)%nat).
  { unfold r, to_uint32.
    pose proof (Z.mod_pos_bound (Z.of_nat (length bits)) two32 ltac:(reflexivity)).
    lia. }
  destruct (spells_prefix codes audioData bits Hsp r Hr)
    as (before & k & after & bits1 & p & tail & Hsplit & Hsp1 & Hin & Htail & Hfirst).
  exists before, k, after. split; [exact Hsplit|].
  unfold Decoder.main. cbn [file_codes file_bit_count file_bytes file_header].
  fold r. rewrite unpack_pack_prefix; [|apply (spells_bits codes audioData);
    [apply (vt_bits _ Hvalid)|assumption]|lia].
  rewrite Hfirst. unfold Decoder.decodeAudioData.
  rewrite (walk_spells codes Hvalid before bits1 Hsp1 p []).
  pose proof (walk_inside codes Hvalid k p [] tail before Hin Htail) as Hwalk.
  cbn [subtree app] in Hwalk |- *. rewrite Hwalk. reflexivity.
Qed.

(** ** The sorted vector is a conforming queue *)

Section SortedQueue.

Import Encoder.

Lemma insert_sorted_perm (x : HuffmanNode) (v : list HuffmanNode) :
  Permutation (insert_sorted x v) (x :: v).
Proof.
  induction v as [|y v IH]; [reflexivity|]. simpl.
  destruct (Compare y x); [reflexivity|].
  rewrite IH. apply perm_swap.
Qed.

Lemma insert_sorted_sorted (x : HuffmanNode) (v : list HuffmanNode) :
  StronglySorted by_frequency v -> StronglySorted by_frequency (insert_sorted x v).
Proof.
  induction v as [|y v IH]; intros Hs; simpl.
  - repeat constructor.
  - inversion Hs as [|? ? Hs' Hall]; subst.
    destruct (Compare y x) eqn:E.
    + unfold Compare in E. rewrite Z.gtb_ltb in E. apply Z.ltb_lt in E.
      constructor; [assumption|]. constructor; [unfold by_frequency; lia|].
      rewrite Forall_forall in Hall |- *. intros z Hz.
      specialize (Hall z Hz). unfold by_frequency in *. lia.
    + apply Compare_false in E. constructor; [apply IH; assumption|].
      rewrite Forall_forall in Hall |- *. intros z Hz.
      apply (Permutation_in z (insert_sorted_perm x v)) in Hz.
      destruct Hz as [<-|Hz]; [exact E|apply Hall; assumption].
Qed.

Lemma insert_all_sorted_perm (v : list HuffmanNode) :
  forall sorted,
    Permutation (fold_left (fun sorted x => insert_sorted x sorted) v sorted)
                (sorted ++ v).
Proof.
  induction v as [|x v IH]; intros sorted; simpl.
  - rewrite app_nil_r. reflexivity.
  - rewrite IH, insert_sorted_perm. apply Permutation_middle.
Qed.

Lemma insert_all_sorted_sorted (v : list HuffmanNode) :
  forall sorted,
    StronglySorted by_frequency sorted ->
    StronglySorted by_frequency
      (fold_left (fun sorted x => insert_sorted x sorted) v sorted).
Proof.
  induction v as [|x v IH]; intros sorted Hs; simpl; [assumption|].
  apply IH. apply insert_sorted_sorted. assumption.
Qed.

Lemma sort_nodes_perm (v : list HuffmanNode) : Permutation (sort_nodes v) v.
Proof. unfold sort_nodes. rewrite insert_all_sorted_perm. reflexivity. Qed.

Lemma sort_nodes_sorted (v : list HuffmanNode) :
  StronglySorted by_frequency (sort_nodes v).
Proof. apply insert_all_sorted_sorted. constructor. Qed.

Lemma sorted_nth (v : list HuffmanNode) :
  StronglySorted by_frequency v ->
  forall i j, (i < j < length v)%nat ->
    by_frequency (nth i v nullptr) (nth j v nullptr).
Proof.
  induction 1 as [|x v Hs IH Hall]; intros i j Hij; [simpl in Hij; lia|].
  destruct j as [|j]; [lia|]. destruct i as [|i].
  - simpl. rewrite Forall_forall in Hall. apply Hall. apply nth_In.
    simpl in Hij. lia.
  - simpl. apply IH. simpl in Hij. lia.
Qed.

Lemma sorted_is_heap (v : list HuffmanNode) :
  StronglySorted by_frequency v -> is_heap v.
Proof.
  intros Hs i Hi. apply Compare_false.
  apply (sorted_nth v Hs). lia.
Qed.

Lemma sorted_queue_conforming : conforming sorted_queue.
Proof.
  constructor.
  - intros v x _. apply sort_nodes_perm.
  - intros v x _. apply sorted_is_heap, sort_nodes_sorted.
  - intros x v _. exists (sort_nodes v). split; [reflexivity|].
    split; [apply sort_nodes_perm|apply sorted_is_heap, sort_nodes_sorted].
Qed.

End SortedQueue.

(** ** Optimality: exchanging leaves *)

Section Exchange.

Context {A : Type}.
Variable w : A -> Z.

Lemma size_leaves (t : bt A) : length (leaves t) = size t.
Proof.
  induction t as [a|l IHl r IHr]; [reflexivity|].
  simpl. rewrite length_app, IHl, IHr. reflexivity.
Qed.

Lemma size_positive (t : bt A) : (1 <= size t)%nat.
Proof. induction t; simpl; lia. Qed.

Lemma depths_length (t : bt A) : forall d, length (depths_at d t) = size t.
Proof.
  induction t as [a|l IHl r IHr]; intros d; [reflexivity|].
  simpl. rewrite length_app, IHl, IHr. reflexivity.
Qed.

Lemma height_nonneg (t : bt A) : 0 <= height t.
Proof. induction t; cbn [height]; lia. Qed.

Lemma wdot_app (ds1 : list Z) :
  forall (xs1 : list A) (ds2 : list Z) (xs2 : list A),
    length ds1 = length xs1 ->
    wdot w (ds1 ++ ds2) (xs1 ++ xs2) = wdot w ds1 xs1 + wdot w ds2 xs2.
Proof.
  induction ds1 as [|d ds1 IH]; intros xs1 ds2 xs2 Hlen;
    destruct xs1 as [|x xs1]; try discriminate; [reflexivity|].
  simpl. rewrite IH by (simpl in Hlen; lia). lia.
Qed.

Lemma cost_wdot (t : bt A) :
  forall d, cost_at w d t = wdot w (depths_at d t) (leaves t).
Proof.
  induction t as [a|l IHl r IHr]; intros d.
  - simpl. lia.
  - simpl. rewrite wdot_app by (rewrite depths_length, size_leaves; reflexivity).
    rewrite IHl, IHr. reflexivity.
Qed.

Lemma depths_bound (t : bt A) :
  forall d, Forall (fun e => e <= d + height t) (depths_at d t).
Proof.
  induction t as [a|l IHl r IHr]; intros d.
  - cbn [depths_at height]. constructor; [lia|constructor].
  - cbn [depths_at height]. apply Forall_app. split.
    + eapply Forall_impl; [|apply IHl]. intros e He. cbv beta in He. lia.
    + eapply Forall_impl; [|apply IHr]. intros e He. cbv beta in He. lia.
Qed.

(** Mirroring keeps the leaves, the height and the cost. *)
Lemma lean_height (t : bt A) : height (lean t) = height t.
Proof.
  induction t as [a|l IHl r IHr]; [reflexivity|].
  cbn [lean]. destruct (height l <? height r); cbn [height]; rewrite ?IHl, ?IHr; lia.
Qed.

Lemma lean_left_lean (t : bt A) : left_lean (lean t).
Proof.
  induction t as [a|l IHl r IHr]; [exact I|].
  cbn [lean]. destruct (height l <? height r) eqn:E; cbn [left_lean].
  - apply Z.ltb_lt in E. rewrite lean_height. split; [lia|assumption].
  - apply Z.ltb_ge in E. rewrite lean_height. split; assumption.
Qed.

Lemma lean_leaves (t : bt A) : Permutation (leaves (lean t)) (leaves t).
Proof.
  induction t as [a|l IHl r IHr]; [reflexivity|].
  cbn [lean]. destruct (height l <? height r); cbn [leaves].
  - rewrite IHr. apply Permutation_app_comm.
  - rewrite IHl. reflexivity.
Qed.

Lemma lean_cost (t : bt A) : forall d, cost_at w d (lean t) = cost_at w d t.
Proof.
  induction t as [a|l IHl r IHr]; intros d; [reflexivity|].
  cbn [lean]. destruct (height l <? height r); cbn [cost_at]; rewrite ?IHl, ?IHr; lia.
Qed.

(** Relabelling keeps the shape. *)
Lemma relabel_size (t : bt A) : forall xs, size (relabel t xs) = size t.
Proof.
  induction t as [a|l IHl r IHr]; intros xs; [reflexivity|].
  simpl. rewrite IHl, IHr. reflexivity.
Qed.

Lemma relabel_height (t : bt A) : forall xs, height (relabel t xs) = height t.
Proof.
  induction t as [a|l IHl r IHr]; intros xs; [reflexivity|].
  cbn [relabel height]. rewrite IHl, IHr. reflexivity.
Qed.

Lemma relabel_depths (t : bt A) :
  forall xs d, depths_at d (relabel t xs) = depths_at d t.
Proof.
  induction t as [a|l IHl r IHr]; intros xs d; [reflexivity|].
  simpl. rewrite IHl, IHr. reflexivity.
Qed.

Lemma relabel_left_lean (t : bt A) :
  forall xs, left_lean t -> left_lean (relabel t xs).
Proof.
  induction t as [a|l IHl r IHr]; intros xs Hl; [exact I|].
  cbn [relabel left_lean] in Hl |- *. rewrite !relabel_height.
  split; [tauto|apply IHl; tauto].
Qed.

Lemma relabel_leaves (t : bt A) :
  forall xs, length xs = size t -> leaves (relabel t xs) = xs.
Proof.
  induction t as [a|l IHl r IHr]; intros xs Hlen.
  - destruct xs as [|x [|y xs]]; try discriminate. reflexivity.
  - simpl in Hlen |- *. pose proof (size_positive l). pose proof (size_positive r).
    rewrite IHl by (rewrite length_firstn; lia).
    rewrite IHr by (rewrite length_skipn; lia).
    apply firstn_skipn.
Qed.

(** A left-lean tree starts with two sibling leaves at the greatest depth;
    [merge_front] replaces them by one leaf a level higher. *)
Lemma left_lean_front (t : bt A) :
  forall d, left_lean t -> (2 <= size t)%nat ->
    exists x y rest drest,
      leaves t = x :: y :: rest
      /\ depths_at d t = (d + height t) :: (d + height t) :: drest
      /\ forall c, leaves (merge_front c t) = c :: rest
                   /\ depths_at d (merge_front c t) = (d + height t - 1) :: drest.
Proof.
  induction t as [a|l IHl r IHr]; intros d Hlean Hsize; [simpl in Hsize; lia|].
  cbn [left_lean] in Hlean. destruct Hlean as [Hh Hl].
  destruct l as [x|l1 l2].
  - destruct r as [y|r1 r2].
    + exists x, y, [], []. cbn [leaves depths_at height merge_front app].
      replace (d + (1 + Z.max 0 0)) with (d + 1) by lia.
      split; [reflexivity|]. split; [reflexivity|].
      intros c. split; [reflexivity|]. f_equal. lia.
    + exfalso. cbn [height] in Hh.
      pose proof (height_nonneg r1). pose proof (height_nonneg r2). lia.
  - destruct (IHl (d + 1) Hl) as (x & y & rest & drest & Hlv & Hd & Hm).
    { simpl. pose proof (size_positive l1). pose proof (size_positive l2). lia. }
    exists x, y, (rest ++ leaves r), (drest ++ depths_at (d + 1) r).
    assert (Hheight : height (Br (Br l1 l2) r) = 1 + height (Br l1 l2))
      by (cbn [height] in Hh |- *; lia).
    rewrite Hheight.
    split; [cbn [leaves] in Hlv |- *; rewrite Hlv; reflexivity|].
    split.
    + cbn [depths_at] in Hd |- *. rewrite Hd. cbn [app].
      replace (d + (1 + height (Br l1 l2))) with (d + 1 + height (Br l1 l2)) by lia.
      reflexivity.
    + intros c. destruct (Hm c) as [Hm1 Hm2].
      change (merge_front c (Br (Br l1 l2) r))
        with (Br (merge_front c (Br l1 l2)) r).
      cbn [leaves depths_at]. rewrite Hm1, Hm2. cbn [app].
      split; [reflexivity|]. f_equal. lia.
Qed.

(** Bringing a lightest leaf to a deepest position does not raise the
    cost. *)
Lemma swap_to_front (d0 : Z) (ds : list Z) (xs : list A) (a : A) (R : list A) :
  Forall (fun e => e <= d0) ds ->
  length xs = S (length ds) ->
  Permutation xs (a :: R) ->
  (forall x, In x R -> w a <= w x) ->
  exists R', Permutation R' R
             /\ wdot w (d0 :: ds) (a :: R') <= wdot w (d0 :: ds) xs.
Proof.
  intros Hds Hlen Hperm Hmin.
  assert (Hin : In a xs)
    by (apply (Permutation_in a (Permutation_sym Hperm)); left; reflexivity).
  destruct (in_split _ _ Hin) as (A1 & A2 & ->).
  destruct A1 as [|x0 A1].
  - exists A2. split; [|simpl; lia].
    apply (Permutation_cons_inv (a := a)). exact Hperm.
  - exists (A1 ++ x0 :: A2).
    assert (HR : Permutation (A1 ++ x0 :: A2) R).
    { apply (Permutation_cons_inv (a := a)). rewrite <- Hperm.
      cbn [app]. rewrite <- !Permutation_middle. apply perm_swap. }
    split; [exact HR|].
    assert (Hx0 : w a <= w x0).
    { apply Hmin. apply (Permutation_in x0 HR). apply in_elt. }
    cbn [app length] in Hlen. rewrite length_app in Hlen. cbn [length] in Hlen.
    assert (Hsplit : ds = firstn (length A1) ds ++ skipn (length A1) ds)
      by (symmetry; apply firstn_skipn).
    destruct (skipn (length A1) ds) as [|dk D2] eqn:Hskip.
    { apply (f_equal (@length Z)) in Hskip. rewrite length_skipn in Hskip.
      simpl in Hskip. lia. }
    set (D1 := firstn (length A1) ds) in *.
    assert (HD1 : length D1 = length A1)
      by (unfold D1; rewrite length_firstn; lia).
    assert (Hdk : dk <= d0).
    { rewrite Forall_forall in Hds. apply Hds. rewrite Hsplit. apply in_elt. }
    rewrite Hsplit. cbn [app wdot].
    rewrite !wdot_app by assumption. cbn [wdot]. nia.
Qed.

(** The exchange step: a tree over [a], [b] and [R], where [a] and [b] are
    two lightest leaves, is not cheaper than some tree over [c] and [R]
    plus the two weights, when [c] weighs as much as [a] and [b]
    together. *)
Lemma exchange (t : bt A) (a b c : A) (R : list A) :
  Permutation (leaves t) (a :: b :: R) ->
  (forall x, In x (b :: R) -> w a <= w x) ->
  (forall x, In x R -> w b <= w x) ->
  w c = w a + w b ->
  exists t', Permutation (leaves t') (c :: R)
             /\ cost w t' + (w a + w b) <= cost w t.
Proof.
  intros Hperm Hmina Hminb Hc.
  set (t1 := lean t).
  assert (Hperm1 : Permutation (leaves t1) (a :: b :: R))
    by (unfold t1; rewrite lean_leaves; exact Hperm).
  assert (Hsize1 : size t1 = S (S (length R))).
  { rewrite <- size_leaves. apply Permutation_length in Hperm1. exact Hperm1. }
  destruct (left_lean_front t1 0 (lean_left_lean t) ltac:(lia))
    as (x & y & rest & drest & Hlv & Hd & _).
  set (h := 0 + height t1) in *.
  pose proof (depths_bound t1 0) as Hbound. rewrite Hd in Hbound. fold h in Hbound.
  inversion Hbound as [|? ? _ Hbound1]; subst.
  inversion Hbound1 as [|? ? _ Hbound2]; subst.
  assert (Hdlen : length (depths_at 0 t1) = size t1) by apply depths_length.
  rewrite Hd in Hdlen. cbn [length] in Hdlen.
  (* first [a], then [b] *)
  destruct (swap_to_front h (h :: drest) (leaves t1) a (b :: R)) as (R1 & HR1 & Hle1).
  { constructor; [lia|assumption]. }
  { rewrite size_leaves. cbn [length]. lia. }
  { exact Hperm1. }
  { exact Hmina. }
  destruct (swap_to_front h drest R1 b R) as (R2 & HR2 & Hle2).
  { assumption. }
  { apply Permutation_length in HR1. cbn [length] in HR1. lia. }
  { exact HR1. }
  { exact Hminb. }
  assert (HlenR2 : length R2 = length R) by (apply Permutation_length; exact HR2).
  set (t2 := relabel t1 (a :: b :: R2)).
  assert (Hlv2 : leaves t2 = a :: b :: R2)
    by (apply relabel_leaves; cbn [length]; lia).
  assert (Hd2 : depths_at 0 t2 = h :: h :: drest)
    by (unfold t2; rewrite relabel_depths; exact Hd).
  destruct (left_lean_front t2 0) as (x' & y' & rest' & drest' & Hlv' & Hd' & Hm).
  { apply relabel_left_lean. apply lean_left_lean. }
  { unfold t2. rewrite relabel_size. lia. }
  rewrite Hlv2 in Hlv'. injection Hlv' as <- <- <-.
  rewrite Hd2 in Hd'. injection Hd' as Hh _ <-.
  destruct (Hm c) as [Hmlv Hmd]. rewrite <- Hh in Hmd.
  exists (merge_front c t2). split.
  - rewrite Hmlv. constructor. exact HR2.
  - unfold cost. rewrite (cost_wdot (merge_front c t2)), Hmlv, Hmd.
    rewrite <- (lean_cost t 0). fold t1. rewrite (cost_wdot t1), Hd.
    cbn [wdot] in Hle1, Hle2 |- *. rewrite Hc. lia.
Qed.

Lemma single_leaf (t : bt A) (a : A) :
  Permutation (leaves t) [a] -> t = Leaf a.
Proof.
  intros Hp. destruct t as [x|l r].
  - simpl in Hp. apply Permutation_length_1 in Hp. congruence.
  - apply Permutation_length in Hp. simpl in Hp. rewrite length_app, !size_leaves in Hp.
    pose proof (size_positive l). pose proof (size_positive r). lia.
Qed.

End Exchange.

(** ** Optimality: the merge loop *)

Lemma huffman_optimal (forest : list Encoder.HuffmanNode) (t : Encoder.HuffmanNode) :
  huffman forest t ->
  exists top,
    join top = t
    /\ Permutation (leaves top) forest
    /\ forall u, Permutation (leaves u) forest ->
         cost Encoder.frequency_of top <= cost Encoder.frequency_of u.
Proof.
  induction 1 as [t|forest t1 t2 rest t Hperm Hmin1 Hmin2 Hh IH].
  - exists (Leaf t). split; [reflexivity|]. split; [reflexivity|].
    intros u Hu. apply (single_leaf Encoder.frequency_of) in Hu. subst u.
    unfold cost. simpl. lia.
  - destruct IH as (top0 & Hj & Hp & Hopt).
    destruct (split_leaf top0 t1 t2 rest Hp) as (top & Hj' & Hp' & Hcost).
    exists top. split; [congruence|]. split; [rewrite Hp'; symmetry; exact Hperm|].
    intros u Hu.
    set (c := Encoder.Node (-1)
                (Encoder.frequency_of t1 + Encoder.frequency_of t2) t1 t2) in *.
    destruct (exchange Encoder.frequency_of u t1 t2 c rest) as (u' & Hu' & Hle).
    + rewrite Hu. exact Hperm.
    + exact Hmin1.
    + exact Hmin2.
    + reflexivity.
    + specialize (Hopt u' Hu'). unfold cost in *. rewrite Hcost. lia.
Qed.

(** ** Optimality: from a prefix code to a tree *)

Section PrefixTree.

Context {A : Type}.
Variable w : A -> Z.

Lemma zsum_app (l1 l2 : list Z) : zsum (l1 ++ l2) = zsum l1 + zsum l2.
Proof. induction l1 as [|x l1 IH]; simpl; [reflexivity|]. rewrite IH. lia. Qed.

Lemma zsum_perm (l1 l2 : list Z) : Permutation l1 l2 -> zsum l1 = zsum l2.
Proof. induction 1; simpl; lia. Qed.

Lemma cost_shift (t : bt A) :
  forall d, cost_at w (d + 1) t = cost_at w d t + zsum (map w (leaves t)).
Proof.
  induction t as [a|l IHl r IHr]; intros d.
  - simpl. lia.
  - cbn [cost_at leaves]. rewrite map_app, zsum_app, IHl, IHr. lia.
Qed.

Lemma cost_paths (t : bt A) :
  forall str, cost_at w (Z.of_nat (length str)) t = code_cost w (paths t str).
Proof.
  induction t as [a|l IHl r IHr]; intros str.
  - unfold code_cost. simpl. lia.
  - cbn [cost_at paths]. unfold code_cost. rewrite map_app, zsum_app.
    fold (code_cost w (paths l (str ++ [ch0]))).
    fold (code_cost w (paths r (str ++ [ch1]))).
    rewrite <- IHl, <- IHr. rewrite !length_app. cbn [length].
    replace (Z.of_nat (length str + 1)) with (Z.of_nat (length str) + 1) by lia.
    reflexivity.
Qed.

(** Splitting a list of non-empty codes by their first character. *)
Lemma branch_fst (items : list (A * cstring)) :
  (forall a c, In (a, c) items -> c <> []) ->
  Permutation (map fst items)
              (map fst (branch true items) ++ map fst (branch false items)).
Proof.
  induction items as [|[a c] items IH]; intros Hne; [reflexivity|].
  assert (IH' := IH (fun a' c' H' => Hne a' c' (or_intror H'))).
  destruct c as [|x c]; [exfalso; apply (Hne a []); [left|]; reflexivity|].
  cbn [branch]. destruct (Ascii.eqb x ch0); cbn [Bool.eqb map fst app].
  - constructor. exact IH'.
  - rewrite <- Permutation_middle. constructor. exact IH'.
Qed.

Lemma code_cost_cons (a : A) (c : cstring) (items : list (A * cstring)) :
  code_cost w ((a, c) :: items) = w a * Z.of_nat (length c) + code_cost w items.
Proof. reflexivity. Qed.

Lemma weight_sum_cons (a : A) (c : cstring) (items : list (A * cstring)) :
  weight_sum w ((a, c) :: items) = w a + weight_sum w items.
Proof. reflexivity. Qed.

Lemma branch_cost (items : list (A * cstring)) :
  (forall a c, In (a, c) items -> c <> []) ->
  code_cost w items
  = code_cost w (branch true items) + weight_sum w (branch true items)
    + (code_cost w (branch false items) + weight_sum w (branch false items)).
Proof.
  induction items as [|[a c] items IH]; intros Hne; [reflexivity|].
  assert (IH' := IH (fun a' c' H' => Hne a' c' (or_intror H'))).
  destruct c as [|x c]; [exfalso; apply (Hne a []); [left|]; reflexivity|].
  cbn [branch]. rewrite code_cost_cons, IH'.
  destruct (Ascii.eqb x ch0); cbn [Bool.eqb];
    rewrite code_cost_cons, weight_sum_cons; cbn [length]; lia.
Qed.

Lemma branch_In (zero : bool) (items : list (A * cstring)) :
  forall a c, In (a, c) (branch zero items) ->
    exists x, In (a, x :: c) items /\ Ascii.eqb x ch0 = zero.
Proof.
  induction items as [|[a0 c0] items IH]; intros a c Hin; [destruct Hin|].
  cbn [branch] in Hin. destruct c0 as [|x c0].
  - destruct (IH a c Hin) as (y & Hy & Ey). exists y. split; [right|]; assumption.
  - destruct (Bool.eqb (Ascii.eqb x ch0) zero) eqn:E.
    + destruct Hin as [[= <- <-]|Hin].
      * exists x. split; [left; reflexivity|]. apply Bool.eqb_prop. exact E.
      * destruct (IH a c Hin) as (y & Hy & Ey). exists y. split; [right|]; assumption.
    + destruct (IH a c Hin) as (y & Hy & Ey). exists y. split; [right|]; assumption.
Qed.

Lemma same_branch_same_bit (x y : ascii) (zero : bool) :
  is_bit x -> is_bit y ->
  Ascii.eqb x ch0 = zero -> Ascii.eqb y ch0 = zero -> x = y.
Proof. intros Hx Hy Ex Ey. apply bit_eqb_ch0; congruence. Qed.

Lemma branch_incomparable (zero : bool) (items : list (A * cstring)) :
  (forall a c, In (a, c) items -> bit_string c) ->
  incomparable items -> incomparable (branch zero items).
Proof.
  intros Hbits Hinc. induction Hinc as [|a c l Hc Hl IH]; [constructor|].
  assert (Hbits' : forall a c, In (a, c) l -> bit_string c)
    by (intros a' c' H'; apply (Hbits a' c'); right; assumption).
  cbn [branch]. destruct c as [|x c]; [apply IH; assumption|].
  destruct (Bool.eqb (Ascii.eqb x ch0) zero) eqn:E; [|apply IH; assumption].
  apply Bool.eqb_prop in E. constructor; [|apply IH; assumption].
  intros b c' Hin. destruct (branch_In zero l b c' Hin) as (y & Hy & Ey).
  assert (Hxy : x = y).
  { assert (Hbx : bit_string (x :: c)) by (apply (Hbits a); left; reflexivity).
    assert (Hby : bit_string (y :: c')) by (apply (Hbits' b); assumption).
    inversion Hbx; inversion Hby; subst.
    eapply same_branch_same_bit; eauto. }
  subst y. destruct (Hc b (x :: c') Hy) as [H1 H2].
  split; intros Hp; [apply H1|apply H2]; apply is_prefix_cons; auto.
Qed.

Lemma incomparable_nonempty (items : list (A * cstring)) :
  incomparable items -> (2 <= length items)%nat ->
  forall a c, In (a, c) items -> c <> [].
Proof.
  intros Hinc. induction Hinc as [|a0 c0 l Hc Hl IH]; intros Hlen a c Hin;
    [destruct Hin|].
  destruct Hin as [[= <- <-]|Hin].
  - intros ->. destruct l as [|[b c'] l]; [simpl in Hlen; lia|].
    destruct (Hc b c' (or_introl eq_refl)) as [H1 _]. apply H1, is_prefix_nil.
  - intros ->. destruct (Hc a [] Hin) as [_ H2]. apply H2, is_prefix_nil.
Qed.

Lemma branch_nonempty_side (items : list (A * cstring)) :
  items <> [] ->
  (forall a c, In (a, c) items -> c <> []) ->
  branch true items <> [] \/ branch false items <> [].
Proof.
  intros Hne Hcodes.
  pose proof (branch_fst items Hcodes) as Hp.
  destruct (branch true items) as [|e l]; [|left; discriminate].
  destruct (branch false items) as [|e l]; [|right; discriminate].
  simpl in Hp. apply Permutation_sym, Permutation_nil in Hp.
  destruct items; [congruence|discriminate].
Qed.

(** Every prefix code costs at least as much as some full binary tree
    over the same leaves. *)
Lemma prefix_tree (n : nat) :
  forall items : list (A * cstring),
    items <> [] ->
    incomparable items ->
    (forall a c, In (a, c) items -> bit_string c /\ (length c <= n)%nat) ->
    (forall a c, In (a, c) items -> 0 <= w a) ->
    exists u, Permutation (leaves u) (map fst items)
              /\ cost w u <= code_cost w items.
Proof.
  induction n as [|n IH]; intros items Hne Hinc Hcodes Hw.
  - (* all codes are empty: there is one entry *)
    destruct items as [|[a c] [|e items]]; [congruence| |].
    + exists (Leaf a). split; [reflexivity|].
      unfold cost, code_cost. simpl. specialize (Hw a c (or_introl eq_refl)). lia.
    + exfalso.
      assert (Hc : c <> [])
        by (apply (incomparable_nonempty _ Hinc ltac:(simpl; lia) a); left; reflexivity).
      destruct (Hcodes a c (or_introl eq_refl)) as [_ Hlen].
      destruct c; [congruence|simpl in Hlen; lia].
  - destruct items as [|[a c] [|e items]]; [congruence| |].
    + exists (Leaf a). split; [reflexivity|].
      unfold cost, code_cost. simpl. specialize (Hw a c (or_introl eq_refl)). lia.
    + set (all := (a, c) :: e :: items) in *.
      assert (Hnonempty : forall a c, In (a, c) all -> c <> [])
        by (apply incomparable_nonempty; [assumption|simpl; lia]).
      assert (Hbits : forall a c, In (a, c) all -> bit_string c)
        by (intros a' c' H'; apply (Hcodes a' c' H')).
      assert (Hside : forall zero a c, In (a, c) (branch zero all) ->
                bit_string c /\ (length c <= n)%nat).
      { intros zero a' c' H'. destruct (branch_In zero all a' c' H') as (x & Hx & _).
        destruct (Hcodes a' (x :: c') Hx) as [Hb Hl].
        inversion Hb; subst. simpl in Hl. split; [assumption|lia]. }
      assert (Hwside : forall zero a c, In (a, c) (branch zero all) -> 0 <= w a).
      { intros zero a' c' H'. destruct (branch_In zero all a' c' H') as (x & Hx & _).
        apply (Hw a' (x :: c') Hx). }
      assert (Hwsum : forall zero, 0 <= weight_sum w (branch zero all)).
      { intros zero. unfold weight_sum.
        specialize (Hwside zero). induction (branch zero all) as [|[a' c'] l IHl].
        - simpl. lia.
        - simpl. pose proof (Hwside a' c' (or_introl eq_refl)).
          assert (0 <= zsum (map (fun e => w (fst e)) l))
            by (apply IHl; intros a'' c'' H''; apply (Hwside a'' c''); right; assumption).
          lia. }
      assert (Hcost_nonneg : forall zero, 0 <= code_cost w (branch zero all)).
      { intros zero. unfold code_cost.
        specialize (Hwside zero). induction (branch zero all) as [|[a' c'] l IHl].
        - simpl. lia.
        - simpl. pose proof (Hwside a' c' (or_introl eq_refl)).
          assert (0 <= zsum (map (fun e => w (fst e) * Z.of_nat (length (snd e))) l))
            by (apply IHl; intros a'' c'' H''; apply (Hwside a'' c''); right; assumption).
          nia. }
      pose proof (branch_fst all Hnonempty) as Hfst.
      pose proof (branch_cost all Hnonempty) as Hcost.
      pose proof (branch_incomparable true all Hbits Hinc) as Hinc0.
      pose proof (branch_incomparable false all Hbits Hinc) as Hinc1.
      pose proof (branch_nonempty_side all Hne Hnonempty) as Hsome.
      pose proof (Hside true) as Hs0. pose proof (Hside false) as Hs1.
      pose proof (Hwside true) as Hw0. pose proof (Hwside false) as Hw1.
      pose proof (Hwsum true) as Hsum0. pose proof (Hwsum false) as Hsum1.
      pose proof (Hcost_nonneg true) as Hc0. pose proof (Hcost_nonneg false) as Hc1.
      clear Hside Hwside Hwsum Hcost_nonneg.
      remember (branch true all) as B0 eqn:E0 in *.
      remember (branch false all) as B1 eqn:E1 in *.
      clear E0 E1.
      destruct B0 as [|e0 Z0]; destruct B1 as [|e1 Z1].
      * exfalso. destruct Hsome; congruence.
      * destruct (IH (e1 :: Z1) ltac:(discriminate) Hinc1 Hs1 Hw1) as (u & Hu & Hle).
        exists u. split; [rewrite Hu, Hfst; reflexivity|].
        rewrite Hcost. change (code_cost w []) with 0. change (weight_sum w []) with 0. lia.
      * destruct (IH (e0 :: Z0) ltac:(discriminate) Hinc0 Hs0 Hw0) as (u & Hu & Hle).
        exists u. split; [rewrite Hu, Hfst, app_nil_r; reflexivity|].
        rewrite Hcost. change (code_cost w []) with 0. change (weight_sum w []) with 0. lia.
      * destruct (IH (e0 :: Z0) ltac:(discriminate) Hinc0 Hs0 Hw0) as (u0 & Hu0 & Hle0).
        destruct (IH (e1 :: Z1) ltac:(discriminate) Hinc1 Hs1 Hw1) as (u1 & Hu1 & Hle1).
        exists (Br u0 u1). split.
        -- cbn [leaves]. rewrite Hu0, Hu1, Hfst. reflexivity.
        -- unfold cost in *. cbn [cost_at].
           replace 1 with (0 + 1) by lia. rewrite !cost_shift.
           rewrite (zsum_perm _ _ (Permutation_map w Hu0)).
           rewrite (zsum_perm _ _ (Permutation_map w Hu1)).
           rewrite !map_map. fold (weight_sum w (e0 :: Z0)). fold (weight_sum w (e1 :: Z1)).
           rewrite Hcost. lia.
Qed.

End PrefixTree.

(** ** Optimality: the cost of a table *)

Lemma table_cost_defined (huffmanCodes : StdMap.t cstring) (frequencies : StdMap.t Z) :
  (forall k, In k (StdMap.keys frequencies) ->
     exists c, StdMap.find k huffmanCodes = Some c) ->
  table_cost frequencies huffmanCodes
  = Some (code_cost Encoder.frequency_of (coded_leaves huffmanCodes frequencies)).
Proof.
  induction frequencies as [|[k f] l IH]; intros Hall; [reflexivity|].
  destruct (Hall k (or_introl eq_refl)) as [c Hc].
  cbn [table_cost]. rewrite Hc, IH by (intros k' Hk'; apply Hall; right; assumption).
  unfold coded_leaves. cbn [map]. rewrite code_cost_cons.
  unfold StdMap.get_or. cbn [fst]. rewrite Hc. reflexivity.
Qed.

Lemma table_cost_inv (huffmanCodes : StdMap.t cstring) (frequencies : StdMap.t Z) :
  forall total,
    table_cost frequencies huffmanCodes = Some total ->
    (forall k, In k (StdMap.keys frequencies) ->
       exists c, StdMap.find k huffmanCodes = Some c).
Proof.
  induction frequencies as [|[k f] l IH]; intros total Htotal k0 Hk0; [destruct Hk0|].
  cbn [table_cost] in Htotal.
  destruct (StdMap.find k huffmanCodes) as [c|] eqn:Hc; [|discriminate].
  destruct (table_cost l huffmanCodes) as [total'|] eqn:Hrest; [|discriminate].
  destruct Hk0 as [<-|Hk0]; [exists c; exact Hc|].
  apply (IH total' eq_refl). exact Hk0.
Qed.

Lemma table_cost_undefined (huffmanCodes : StdMap.t cstring)
      (frequencies : StdMap.t Z) (k : Z) :
  In k (StdMap.keys frequencies) -> StdMap.find k huffmanCodes = None ->
  table_cost frequencies huffmanCodes = None.
Proof.
  intros Hk Hnone.
  destruct (table_cost frequencies huffmanCodes) as [total|] eqn:E; [|reflexivity].
  destruct (table_cost_inv _ _ total E k Hk) as [c Hc]. congruence.
Qed.

Lemma coded_leaves_fst (huffmanCodes : StdMap.t cstring) (frequencies : StdMap.t Z) :
  map fst (coded_leaves huffmanCodes frequencies) = map leaf_of frequencies.
Proof. unfold coded_leaves. rewrite map_map. reflexivity. Qed.

Lemma coded_leaves_In (huffmanCodes : StdMap.t cstring) (frequencies : StdMap.t Z)
      (n : Encoder.HuffmanNode) (c : cstring) :
  In (n, c) (coded_leaves huffmanCodes frequencies) ->
  exists k f, In (k, f) frequencies /\ n = leaf_of (k, f)
              /\ c = StdMap.get_or [] k huffmanCodes.
Proof.
  unfold coded_leaves. intros Hin. apply in_map_iff in Hin.
  destruct Hin as ([k f] & [= <- <-] & Hin). exists k, f. auto.
Qed.

Lemma coded_leaves_incomparable (other : StdMap.t cstring) (frequencies : StdMap.t Z) :
  NoDup (StdMap.keys frequencies) ->
  (forall k1 k2, In k1 (StdMap.keys frequencies) -> In k2 (StdMap.keys frequencies) ->
     k1 <> k2 ->
     ~ is_prefix (StdMap.get_or [] k1 other) (StdMap.get_or [] k2 other)) ->
  incomparable (coded_leaves other frequencies).
Proof.
  induction frequencies as [|[k f] l IH]; intros Hnd Hpf; [constructor|].
  simpl in Hnd. inversion Hnd as [|? ? Hk Hnd']; subst.
  unfold coded_leaves. cbn [map fst]. constructor.
  - intros n c Hin. destruct (coded_leaves_In _ _ _ _ Hin) as (k' & f' & Hin' & _ & ->).
    assert (Hk' : In k' (StdMap.keys l)) by (apply (in_map fst) in Hin'; exact Hin').
    assert (Hne : k <> k') by (intros ->; tauto).
    split; apply Hpf; simpl; auto.
  - apply IH; [assumption|].
    intros k1 k2 H1 H2. apply Hpf; right; assumption.
Qed.

(** The cost of the generated table is the cost of the tree. *)
Lemma generated_cost (top : bt Encoder.HuffmanNode) (frequencies : StdMap.t Z) :
  Permutation (leaves top) (map leaf_of frequencies) ->
  StdMap.wf frequencies ->
  ~ In (-1) (StdMap.keys frequencies) ->
  table_cost frequencies (Encoder.generateCodes (join top) [] StdMap.empty)
  = Some (cost Encoder.frequency_of top).
Proof.
  intros Hp Hwf Hminus.
  destruct (shape_leaves top frequencies Hp Hwf) as (Hleaf & Hnd & Hkeys).
  assert (Hsamples : forall n, In n (leaves top) -> sample_field n <> -1).
  { intros n Hn E. apply Hminus. apply Hkeys. rewrite <- E. apply in_map. assumption. }
  set (codes := Encoder.generateCodes (join top) [] StdMap.empty).
  rewrite table_cost_defined.
  2:{ intros k Hk. apply (codes_keys top Hleaf Hnd).
      - apply Hkeys. exact Hk.
      - intros ->. tauto. }
  f_equal. unfold cost.
  change 0 with (Z.of_nat (length (@nil ascii))). rewrite cost_paths.
  set (g := fun n => Encoder.frequency_of n
                     * Z.of_nat (length (StdMap.get_or [] (sample_field n) codes))).
  transitivity (zsum (map g (map leaf_of frequencies))).
  - unfold code_cost, coded_leaves. rewrite !map_map. reflexivity.
  - rewrite <- (zsum_perm _ _ (Permutation_map g Hp)).
    rewrite <- (paths_fst top []), map_map. unfold code_cost. f_equal.
    apply map_ext_in. intros [n c] Hin. cbn [fst snd]. unfold g, StdMap.get_or, codes.
    rewrite (codes_of_leaf top Hleaf Hnd n c Hin); [reflexivity|].
    apply Hsamples. rewrite <- (paths_fst top []).
    apply (in_map fst) in Hin. exact Hin.
Qed.

Lemma list_max_bound (l : list nat) (x : nat) : In x l -> (x <= list_max l)%nat.
Proof.
  intros Hin. pose proof (proj1 (list_max_le l (list_max l)) (Nat.le_refl _)) as Hall.
  rewrite Forall_forall in Hall. apply Hall. exact Hin.
Qed.

(** Every prefix code for the table costs at least as much as some full
    binary tree over the leaves of the table. *)
Lemma assignment_tree (other : StdMap.t cstring) (frequencies : StdMap.t Z) (total : Z) :
  StdMap.wf frequencies ->
  frequencies <> [] ->
  (forall k f, In (k, f) frequencies -> 0 <= f) ->
  prefix_assignment frequencies other ->
  table_cost frequencies other = Some total ->
  exists u, Permutation (leaves u) (map leaf_of frequencies)
            /\ cost Encoder.frequency_of u <= total.
Proof.
  intros Hwf Hne Hpos Hpa Htotal.
  pose proof (table_cost_inv _ _ _ Htotal) as Hall.
  rewrite table_cost_defined in Htotal by exact Hall. injection Htotal as <-.
  assert (Hget : forall k, In k (StdMap.keys frequencies) ->
            StdMap.find k other = Some (StdMap.get_or [] k other)).
  { intros k Hk. destruct (Hall k Hk) as [c Hc]. unfold StdMap.get_or.
    rewrite Hc. reflexivity. }
  set (items := coded_leaves other frequencies).
  set (n := list_max (map (fun e => length (snd e)) items)).
  destruct (prefix_tree Encoder.frequency_of n items) as (u & Hu & Hle).
  - unfold items, coded_leaves. destruct frequencies; [congruence|discriminate].
  - apply coded_leaves_incomparable; [apply wf_NoDup; assumption|].
    intros k1 k2 H1 H2 Hne'.
    apply (pa_prefix_free _ _ Hpa k1 _ k2 _ H1 H2 Hne' (Hget k1 H1) (Hget k2 H2)).
  - intros a c Hin. split.
    + destruct (coded_leaves_In _ _ _ _ Hin) as (k & f & Hin' & _ & ->).
      assert (Hk : In k (StdMap.keys frequencies))
        by (apply (in_map fst) in Hin'; exact Hin').
      apply (pa_bits _ _ Hpa k _ Hk (Hget k Hk)).
    + unfold n. apply list_max_bound.
      apply (in_map (fun e => length (snd e))) in Hin. exact Hin.
  - intros a c Hin.
    destruct (coded_leaves_In _ _ _ _ Hin) as (k & f & Hin' & -> & _).
    simpl. apply (Hpos k f Hin').
  - exists u. split; [|exact Hle].
    rewrite Hu. unfold items. rewrite coded_leaves_fst. reflexivity.
Qed.

(** ** The [int] arithmetic of the encoder never overflows

    [readWavFile] returns [data_size / 2] samples for a 32-bit
    [data_size], hence at most [INT_MAX] of them; the counts and their
    sums then stay within [int], and the unbounded integers of the
    embedding compute what the program computes. *)

Section IntRange.

Import Encoder.

Lemma set_total (k v : Z) (m : StdMap.t Z) :
  StdMap.wf m ->
  zsum (map snd (StdMap.set k v m)) = zsum (map snd m) - StdMap.get_or 0 k m + v.
Proof.
  unfold StdMap.wf, StdMap.get_or.
  induction m as [|[k' v'] m IH]; intros Hwf.
  - simpl. lia.
  - simpl in Hwf. inversion Hwf as [|? ? Hwf' Hall]; subst.
    cbn [StdMap.set StdMap.find].
    destruct (k <? k') eqn:Hlt.
    + apply Z.ltb_lt in Hlt.
      replace (k =? k') with false by (symmetry; apply Z.eqb_neq; lia).
      assert (Hnone : StdMap.find k m = None).
      { apply find_None_keys. intros Hin. rewrite Forall_forall in Hall.
        specialize (Hall k Hin). lia. }
      rewrite Hnone. simpl. lia.
    + destruct (k =? k') eqn:Heq.
      * simpl. lia.
      * cbn [map snd zsum fold_right]. fold (zsum (map snd (StdMap.set k v m))).
        fold (zsum (map snd m)). rewrite (IH Hwf'). lia.
Qed.

Lemma count_samples_total (audioData : list Z) :
  forall m, StdMap.wf m ->
    zsum (map snd (fold_left count_sample audioData m))
    = zsum (map snd m) + Z.of_nat (length audioData).
Proof.
  induction audioData as [|s rest IH]; intros m Hwf.
  - simpl. lia.
  - cbn [fold_left length]. rewrite IH by (apply wf_set; assumption).
    unfold count_sample. rewrite set_total by assumption. lia.
Qed.

Lemma calculateFrequencies_total (audioData : list Z) :
  zsum (map snd (calculateFrequencies audioData)) = Z.of_nat (length audioData).
Proof.
  unfold calculateFrequencies. rewrite count_samples_total by constructor.
  reflexivity.
Qed.

Lemma join_frequencies (top : bt HuffmanNode) :
  Forall is_leaf_node (leaves top) ->
  (forall n, In n (leaves top) -> 0 < frequency_of n) ->
  frequency_of (join top) = zsum (map frequency_of (leaves top))
  /\ 0 < zsum (map frequency_of (leaves top))
  /\ Forall (fun f => 0 < f <= zsum (map frequency_of (leaves top)))
            (all_frequencies (join top)).
Proof.
  induction top as [n|l IHl r IHr]; intros Hleaf Hpos.
  - simpl in Hleaf. inversion Hleaf as [|? ? (s & f & ->) _]; subst.
    specialize (Hpos _ (or_introl eq_refl)). simpl in Hpos |- *.
    split; [lia|]. split; [lia|]. constructor; [lia|constructor].
  - simpl in Hleaf. apply Forall_app in Hleaf. destruct Hleaf as [Hl Hr].
    destruct (IHl Hl) as (Hfl & Hposl & Hall_l).
    { intros n Hn. apply Hpos. simpl. apply in_or_app. left. assumption. }
    destruct (IHr Hr) as (Hfr & Hposr & Hall_r).
    { intros n Hn. apply Hpos. simpl. apply in_or_app. right. assumption. }
    cbn [join frequency_of all_frequencies leaves].
    rewrite map_app, zsum_app, Hfl, Hfr.
    split; [reflexivity|]. split; [lia|].
    constructor; [lia|]. apply Forall_app. split.
    + eapply Forall_impl; [|exact Hall_l]. intros f Hf. cbv beta in Hf. lia.
    + eapply Forall_impl; [|exact Hall_r]. intros f Hf. cbv beta in Hf. lia.
Qed.

(** On any input [readWavFile] can return, every frequency of the tree is
    a positive [int], and the root counts the samples. *)
Lemma frequencies_fit_int (H : HeapAlgorithms) (audioData : list Z) :
  conforming H ->
  audioData <> [] ->
  Z.of_nat (length audioData) <= INT_MAX ->
  exists huffmanTree,
    buildHuffmanTree H (calculateFrequencies audioData) = Ok huffmanTree
    /\ frequency_of huffmanTree = Z.of_nat (length audioData)
    /\ Forall (fun f => 0 < f <= INT_MAX) (all_frequencies huffmanTree).
Proof.
  intros Hconf Hne Hlen.
  set (frequencies := calculateFrequencies audioData).
  destruct (buildHuffmanTree_shape H Hconf frequencies) as (top & Hbuild & Hp & _).
  { intros E. destruct audioData as [|s rest]; [congruence|].
    assert (Hs : In s (StdMap.keys frequencies))
      by (apply calculateFrequencies_keys; left; reflexivity).
    rewrite E in Hs. destruct Hs. }
  destruct (shape_leaves top frequencies Hp (calculateFrequencies_wf audioData))
    as (Hleaf & _ & _).
  assert (Hpos : forall n, In n (leaves top) -> 0 < frequency_of n).
  { intros n Hn. apply (Permutation_in n Hp) in Hn. apply in_map_iff in Hn.
    destruct Hn as ([k f] & <- & Hin). simpl.
    apply (calculateFrequencies_positive audioData k f Hin). }
  destruct (join_frequencies top Hleaf Hpos) as (Hroot & _ & Hall).
  assert (Htotal : zsum (map frequency_of (leaves top)) = Z.of_nat (length audioData)).
  { rewrite (zsum_perm _ _ (Permutation_map frequency_of Hp)), map_map.
    rewrite (map_ext _ snd leaf_of_frequency). apply calculateFrequencies_total. }
  exists (join top). split; [exact Hbuild|]. split; [congruence|].
  eapply Forall_impl; [|exact Hall]. intros f Hf. cbv beta in Hf. lia.
Qed.

End IntRange.

(* ===================================================================== *)
(** * Part III. The properties of the specification *)
(* ===================================================================== *)

(** ** C1: round trip *)

(** The encoder completes on every sequence with two values or more and
    no -1, and the decoder inverts it when the bit count fits 32 bits. *)
Lemma roundtrip_spec (H : Encoder.HeapAlgorithms) (indeterminate : nat -> Z)
      (header : WavHeader) (audioData : list Z) :
  Encoder.conforming H ->
  two_distinct audioData ->
  ~ In (-1) audioData ->
  exists f,
    Encoder.main H header audioData = Ok f
    /\ (Z.of_nat (encoded_bits (file_codes f) audioData) < two32 ->
        Decoder.main indeterminate f = Ok (header, audioData)).
Proof.
  intros Hconf Htwo Hminus.
  destruct (main_spec H Hconf header audioData Htwo Hminus)
    as (codes & bits & Hvalid & Hsp & Hmain).
  eexists. split; [exact Hmain|].
  cbn [file_codes]. intros Hlen.
  apply decoder_main_spec; try assumption.
  rewrite (spells_length codes audioData bits (vt_wf _ Hvalid) Hsp). exact Hlen.
Qed.



(** Repeated values, negative values and the two extremes of [int16_t]. *)
Example roundtrip_extremes :
  roundtrip sorted_queue (fun _ => 0) example_header
    [-32768; 32767; 0; -32768; -2; 32767; 32767]
  = Ok (example_header, [-32768; 32767; 0; -32768; -2; 32767; 32767]).
Proof. reflexivity. Qed.


(** ** C2: a single distinct value *)

(** Over a conforming queue the tree of a table with one binding is the
    leaf itself: the merge loop never runs, no inner node is put above
    it. *)
Lemma singleton_tree_is_leaf (H : Encoder.HeapAlgorithms) (sample frequency : Z) :
  Encoder.conforming H ->
  Encoder.buildHuffmanTree H [(sample, frequency)]
  = Ok (Encoder.new_node sample frequency).
Proof.
  intros Hconf. unfold Encoder.buildHuffmanTree, Encoder.push_leaves.
  cbn [fold_left fst snd]. unfold Encoder.pq_push. cbn [app].
  pose proof (Encoder.push_heap_perm H Hconf [] (Encoder.new_node sample frequency)
                is_heap_nil) as Hp.
  cbn [app] in Hp. apply Permutation_sym, Permutation_length_1_inv in Hp.
  rewrite Hp. reflexivity.
Qed.

Lemma count_repeat (sample : Z) (n : nat) :
  forall f,
    fold_left Encoder.count_sample (repeat sample n) [(sample, f)]
    = [(sample, f + Z.of_nat n)].
Proof.
  induction n as [|n IH]; intros f.
  - simpl. f_equal. f_equal. lia.
  - cbn [repeat fold_left]. unfold Encoder.count_sample at 2.
    unfold StdMap.get_or. cbn [StdMap.find StdMap.set].
    rewrite Z.eqb_refl, Z.ltb_irrefl. rewrite IH. f_equal. f_equal. lia.
Qed.

Lemma encode_repeat_empty_code (sample : Z) (n : nat) :
  Encoder.encodeAudioData (repeat sample n) [(sample, [])] = Ok [].
Proof.
  induction n as [|n IH]; [reflexivity|].
  cbn [repeat Encoder.encodeAudioData]. unfold StdMap.at_. cbn [StdMap.find].
  rewrite Z.eqb_refl. cbn [bind]. rewrite IH. reflexivity.
Qed.

(** Whatever the value (other than -1) and however often it is repeated,
    a sequence of one value is written with an empty code and no bits,
    and decodes to nothing. *)
Lemma single_value_decodes_to_nothing (H : Encoder.HeapAlgorithms)
      (indeterminate : nat -> Z) (header : WavHeader) (sample : Z) (n : nat) :
  Encoder.conforming H ->
  sample <> -1 ->
  Encoder.main H header (repeat sample (S n))
  = Ok {| file_header := header;
          file_codes := [(sample, [])];
          file_bit_count := 0;
          file_bytes := [] |}
  /\ roundtrip H indeterminate header (repeat sample (S n)) = Ok (header, []).
Proof.
  intros Hconf Hs.
  assert (Hmain : Encoder.main H header (repeat sample (S n))
                  = Ok {| file_header := header;
                          file_codes := [(sample, [])];
                          file_bit_count := 0;
                          file_bytes := [] |}).
  { unfold Encoder.main, Encoder.calculateFrequencies.
    cbn [repeat fold_left]. unfold Encoder.count_sample at 2.
    unfold StdMap.get_or. cbn [StdMap.find StdMap.empty StdMap.set].
    rewrite count_repeat, (singleton_tree_is_leaf H _ _ Hconf). cbn [bind].
    unfold Encoder.new_node. cbn [Encoder.generateCodes].
    replace (negb (sample =? -1)) with true
      by (symmetry; apply negb_true_iff, Z.eqb_neq; assumption).
    cbn [StdMap.set StdMap.empty].
    change (sample :: repeat sample n) with (repeat sample (S n)).
    rewrite encode_repeat_empty_code. reflexivity. }
  split; [exact Hmain|].
  unfold roundtrip. rewrite Hmain. reflexivity.
Qed.

(** C2, on the code: for the sequence 0,0,0,0 the tree is a lone leaf with
    no inner node above it, the code of the value is the empty string, no
    bit is written, and the decoder returns no sample at all. *)
Theorem C2_single_value_gets_empty_code :
  Encoder.buildHuffmanTree sorted_queue (Encoder.calculateFrequencies [0; 0; 0; 0])
    = Ok (Encoder.new_node 0 4)
  /\ Encoder.generateCodes (Encoder.new_node 0 4) [] StdMap.empty = [(0, [])]
  /\ Encoder.main sorted_queue example_header [0; 0; 0; 0]
     = Ok {| file_header := example_header;
             file_codes := [(0, [])];
             file_bit_count := 0;
             file_bytes := [] |}
  /\ roundtrip sorted_queue (fun _ => 0) example_header [0; 0; 0; 0]
     = Ok (example_header, []).
Proof. repeat split; reflexivity. Qed.

(** ** C3: the empty sequence *)

(** C3, on the code: with no sample the queue stays empty, and
    [buildHuffmanTree] reads [top()] of the empty queue; no table and no
    bit count are produced, whatever the queue implementation.  The rest
    of the pipeline is ready for a null tree: from it [generateCodes]
    leaves the table empty, no bit is written, and the decoder returns no
    sample. *)
Theorem C3_empty_input_reads_empty_queue :
  forall (H : Encoder.HeapAlgorithms) (indeterminate : nat -> Z) (header : WavHeader),
    Encoder.calculateFrequencies [] = StdMap.empty
    /\ Encoder.push_leaves H StdMap.empty = []
    /\ Encoder.buildHuffmanTree H StdMap.empty = Undefined
    /\ Encoder.main H header [] = Undefined
    /\ Encoder.generateCodes Encoder.nullptr [] StdMap.empty = StdMap.empty
    /\ Decoder.main indeterminate
         (Encoder.saveEncodedFile header [] StdMap.empty) = Ok (header, []).
Proof. intros H indeterminate header. repeat split; reflexivity. Qed.

(** ** C4: the sample -1 *)

(** C4.  For every sequence that holds -1 and some other value, over any
    conforming queue, the tree is built, the table [generateCodes] fills
    has no binding for -1, and the lookup [at(-1)] of [encodeAudioData]
    throws: the encoder ends in [std::out_of_range]. *)
Theorem C4_minus_one_has_no_code :
  forall (H : Encoder.HeapAlgorithms) (header : WavHeader) (audioData : list Z),
    Encoder.conforming H ->
    In (-1) audioData ->
    (exists other, In other audioData /\ other <> -1) ->
    exists huffmanTree,
      Encoder.buildHuffmanTree H (Encoder.calculateFrequencies audioData)
        = Ok huffmanTree
      /\ StdMap.find (-1) (Encoder.generateCodes huffmanTree [] StdMap.empty) = None
      /\ StdMap.at_ (-1) (Encoder.generateCodes huffmanTree [] StdMap.empty)
         = OutOfRange
      /\ Encoder.encodeAudioData audioData
           (Encoder.generateCodes huffmanTree [] StdMap.empty) = OutOfRange
      /\ Encoder.main H header audioData = OutOfRange.
Proof.
  intros H header audioData Hconf Hminus _.
  destruct (buildHuffmanTree_spec H Hconf (Encoder.calculateFrequencies audioData))
    as (t & Hbuild & _).
  { intros E. apply calculateFrequencies_keys in Hminus.
    rewrite E in Hminus. destruct Hminus. }
  assert (Hnone : StdMap.find (-1) (Encoder.generateCodes t [] StdMap.empty) = None)
    by (rewrite generateCodes_skips_minus_one; reflexivity).
  assert (Henc : Encoder.encodeAudioData audioData
                   (Encoder.generateCodes t [] StdMap.empty) = OutOfRange)
    by (apply (encodeAudioData_throws _ _ (-1)); assumption).
  exists t. split; [exact Hbuild|]. split; [exact Hnone|].
  split; [unfold StdMap.at_; rewrite Hnone; reflexivity|].
  split; [exact Henc|].
  unfold Encoder.main. rewrite Hbuild. cbn [bind]. rewrite Henc. reflexivity.
Qed.

Lemma C4_minus_one_has_no_code_witness :
  Encoder.conforming sorted_queue
  /\ In (-1) [3; -1; 3; 2]
  /\ (exists other, In other [3; -1; 3; 2] /\ other <> -1)
  /\ exists huffmanTree,
      Encoder.buildHuffmanTree sorted_queue (Encoder.calculateFrequencies [3; -1; 3; 2])
        = Ok huffmanTree
      /\ StdMap.find (-1) (Encoder.generateCodes huffmanTree [] StdMap.empty) = None
      /\ StdMap.at_ (-1) (Encoder.generateCodes huffmanTree [] StdMap.empty)
         = OutOfRange
      /\ Encoder.encodeAudioData [3; -1; 3; 2]
           (Encoder.generateCodes huffmanTree [] StdMap.empty) = OutOfRange
      /\ Encoder.main sorted_queue example_header [3; -1; 3; 2] = OutOfRange.
Proof.
  assert (H1 : In (-1) [3; -1; 3; 2]) by (simpl; auto).
  assert (H2 : exists other, In other [3; -1; 3; 2] /\ other <> -1)
    by (exists 3; split; [simpl; auto|lia]).
  split; [exact sorted_queue_conforming|]. split; [exact H1|]. split; [exact H2|].
  exact (C4_minus_one_has_no_code sorted_queue example_header [3; -1; 3; 2]
           sorted_queue_conforming H1 H2).
Defined.

(** ** C5: the generated table is a prefix code of non-empty strings *)

(** Where the frequency table has two keys or more, the generated table
    is a prefix code of non-empty bit strings. *)
Lemma generated_table_valid (H : Encoder.HeapAlgorithms) (frequencies : StdMap.t Z) :
  Encoder.conforming H ->
  StdMap.wf frequencies ->
  (2 <= length frequencies)%nat ->
  exists huffmanTree,
    Encoder.buildHuffmanTree H frequencies = Ok huffmanTree
    /\ valid_table (Encoder.generateCodes huffmanTree [] StdMap.empty).
Proof.
  intros Hconf Hwf Hlen.
  destruct (buildHuffmanTree_shape H Hconf frequencies) as (top & Hbuild & Hp & _).
  { intros E. rewrite E in Hlen. simpl in Hlen. lia. }
  destruct (shape_leaves top frequencies Hp Hwf) as (Hleaf & Hnd & Hkeys).
  exists (join top). split; [exact Hbuild|].
  apply codes_valid; try assumption.
  apply Permutation_length in Hp. rewrite length_map in Hp. rewrite Hp. exact Hlen.
Qed.

(** C5, on the code: the table generated from the frequency table with
    the single binding 12 -> 4 binds 12 to the empty string. *)
Theorem C5_single_binding_gets_empty_code :
  Encoder.buildHuffmanTree sorted_queue [(12, 4)] = Ok (Encoder.new_node 12 4)
  /\ Encoder.generateCodes (Encoder.new_node 12 4) [] StdMap.empty = [(12, [])]
  /\ StdMap.find 12 (Encoder.generateCodes (Encoder.new_node 12 4) [] StdMap.empty)
     = Some [].
Proof. repeat split; reflexivity. Qed.

(** ** C6: a stream that ends inside a code *)

(** C6, as amended.  When the declared bits end inside a code of the
    table, after the codes of some samples, the walk stops on an inner
    node, not on the root, and nothing reports it: [decodeAudioData]
    returns normally, with the samples of the complete codes. *)
Theorem C6_unfinished_code_is_dropped :
  forall (codes : StdMap.t cstring) (samples : list Z) (bits : cstring)
         (k : Z) (p tail : cstring),
    valid_table codes ->
    spells codes samples bits ->
    In (k, p ++ tail) codes -> p <> [] -> tail <> [] ->
    let root := Decoder.buildHuffmanTree codes in
    Decoder.decode_walk root root (bits ++ p) [] = Ok (samples, subtree p root)
    /\ subtree p root <> root
    /\ Decoder.decodeAudioData (bits ++ p) root = Ok samples.
Proof.
  intros codes samples bits k p tail Hvalid Hsp Hin Hp Htail root.
  assert (Hwalk : Decoder.decode_walk root root (bits ++ p) []
                  = Ok (samples, subtree p root)).
  { unfold root. rewrite (walk_spells codes Hvalid samples bits Hsp p []).
    apply (walk_inside codes Hvalid k p [] tail samples Hin Htail). }
  split; [exact Hwalk|]. split.
  - apply subtree_not_root; [assumption|]. apply root_allocated.
  - unfold Decoder.decodeAudioData. rewrite Hwalk. reflexivity.
Qed.

Lemma example_table_valid : valid_table example_table.
Proof.
  constructor.
  - repeat constructor.
  - intros k c [E|[E|[E|[]]]]; injection E as <- <-;
      repeat constructor; (left; reflexivity) || (right; reflexivity).
  - intros k c [E|[E|[E|[]]]]; injection E as <- <-; discriminate.
  - intros k1 c1 k2 c2 [E1|[E1|[E1|[]]]] [E2|[E2|[E2|[]]]] Hne [d Hd];
      injection E1 as <- <-; injection E2 as <- <-;
      try congruence; discriminate.
Qed.

Lemma C6_unfinished_code_is_dropped_witness :
  valid_table example_table
  /\ spells example_table [0; 1] ([ch0] ++ [ch1; ch1] ++ [])
  /\ In (-5, [ch1] ++ [ch0]) example_table
  /\ [ch1] <> [] /\ [ch0] <> []
  /\ Decoder.decode_walk (Decoder.buildHuffmanTree example_table)
       (Decoder.buildHuffmanTree example_table)
       (([ch0] ++ [ch1; ch1] ++ []) ++ [ch1]) []
     = Ok ([0; 1], subtree [ch1] (Decoder.buildHuffmanTree example_table))
  /\ subtree [ch1] (Decoder.buildHuffmanTree example_table)
     <> Decoder.buildHuffmanTree example_table
  /\ Decoder.decodeAudioData (([ch0] ++ [ch1; ch1] ++ []) ++ [ch1])
       (Decoder.buildHuffmanTree example_table) = Ok [0; 1].
Proof.
  assert (Hsp : spells example_table [0; 1] ([ch0] ++ [ch1; ch1] ++ [])).
  { apply spells_cons; [simpl; auto|].
    apply spells_cons; [simpl; auto|]. apply spells_nil. }
  assert (Hin : In (-5, [ch1] ++ [ch0]) example_table) by (simpl; auto).
  assert (Hne1 : [ch1] <> []) by discriminate.
  assert (Hne0 : [ch0] <> []) by discriminate.
  split; [exact example_table_valid|]. split; [exact Hsp|]. split; [exact Hin|].
  split; [exact Hne1|]. split; [exact Hne0|].
  exact (C6_unfinished_code_is_dropped example_table [0; 1]
           ([ch0] ++ [ch1; ch1] ++ []) (-5) [ch1] [ch0]
           example_table_valid Hsp Hin Hne1 Hne0).
Defined.

(** C6 as stated fails: on the table of the example, the two bits "01"
    end on an inner node, and the decoder returns the sample 0 as if
    nothing had happened. *)
Lemma C6_counterexample :
  exists stop,
    Decoder.decode_walk (Decoder.buildHuffmanTree example_table)
      (Decoder.buildHuffmanTree example_table) [ch0; ch1] [] = Ok ([0], stop)
    /\ stop <> Decoder.buildHuffmanTree example_table
    /\ Decoder.main (fun _ => 0)
         {| file_header := example_header;
            file_codes := example_table;
            file_bit_count := 2;
            file_bytes := [2] |}
       = Ok (example_header, [0]).
Proof.
  eexists. split; [reflexivity|]. split; [discriminate|reflexivity].
Qed.

(** ** C7: packing and unpacking *)

(** C7.  For every bit string, [saveEncodedFile] writes ceil(N/8) bytes
    with bit [i] of the string at bit [i mod 8] of byte [i / 8];
    [readEncodedData], given these bytes and the count N, returns the
    string; and it returns the same for any other buffer that agrees with
    them on the first N bits, whatever its padding bits and whatever the
    reads past the end of the buffer leave in [c]. *)
Theorem C7_pack_unpack :
  forall (indeterminate : nat -> Z) (bits : cstring),
    bit_string bits ->
    length (Encoder.pack_bits bits 0 0) = ((length bits + 7) / 8)%nat
    /\ (forall i, (i < length bits)%nat ->
          bitset_get (nth (i / 8) (Encoder.pack_bits bits 0 0) 0) (i mod 8)
          = Ascii.eqb (nth i bits ch0) ch1)
    /\ Decoder.readEncodedData indeterminate (Encoder.pack_bits bits 0 0) (length bits)
       = bits
    /\ (forall bytes,
          length bytes = length (Encoder.pack_bits bits 0 0) ->
          (forall i, (i < length bits)%nat ->
             bitset_get (nth (i / 8) bytes 0) (i mod 8)
             = bitset_get (nth (i / 8) (Encoder.pack_bits bits 0 0) 0) (i mod 8)) ->
          Decoder.readEncodedData indeterminate bytes (length bits) = bits).
Proof.
  intros indeterminate bits Hbits.
  split; [apply pack_bits_size|].
  split; [intros i Hi; apply pack_bits_bit; assumption|].
  split; [apply unpack_pack; assumption|].
  intros bytes Hlen Hagree. apply readEncodedData_ext.
  - rewrite Hlen, pack_bits_size. lia.
  - intros i Hi. apply bit_char_of_bit.
    + unfold bit_string in Hbits. rewrite Forall_forall in Hbits.
      apply Hbits. apply nth_In. assumption.
    + rewrite Hagree by assumption. apply pack_bits_bit. assumption.
Qed.

Lemma C7_pack_unpack_witness :
  bit_string [ch0; ch0; ch0; ch1; ch1; ch1; ch1; ch1; ch0]
  /\ Encoder.pack_bits [ch0; ch0; ch0; ch1; ch1; ch1; ch1; ch1; ch0] 0 0 = [248; 0]
  /\ Decoder.readEncodedData (fun _ => 255)
       (Encoder.pack_bits [ch0; ch0; ch0; ch1; ch1; ch1; ch1; ch1; ch0] 0 0) 9
     = [ch0; ch0; ch0; ch1; ch1; ch1; ch1; ch1; ch0].
Proof.
  assert (Hb : bit_string [ch0; ch0; ch0; ch1; ch1; ch1; ch1; ch1; ch0])
    by (repeat constructor; (left; reflexivity) || (right; reflexivity)).
  split; [exact Hb|]. split; [reflexivity|].
  exact (proj1 (proj2 (proj2
    (C7_pack_unpack (fun _ => 255) [ch0; ch0; ch0; ch1; ch1; ch1; ch1; ch1; ch0] Hb)))).
Defined.

(** ** C8: the walk over a stream of codes *)

(** A table either has only non-empty codes or holds an empty one. *)
Lemma empty_code_or_none (codes : StdMap.t cstring) :
  (forall k c, In (k, c) codes -> c <> []) \/ (exists k, In (k, []) codes).
Proof.
  induction codes as [|[k c] codes IH].
  - left. intros k c [].
  - destruct c as [|x c]; [right; exists k; left; reflexivity|].
    destruct IH as [IH|[k' Hk']].
    + left. intros k' c' [[= <- <-]|Hin]; [discriminate|apply (IH k' c' Hin)].
    + right. exists k'. right. exact Hk'.
Qed.

(** In a prefix code with an empty code every stream of codes is empty. *)
Lemma spells_empty_code (codes : StdMap.t cstring) (k : Z)
      (samples : list Z) (bits : cstring) :
  StdMap.wf codes -> prefix_free codes -> In (k, []) codes ->
  spells codes samples bits -> bits = [].
Proof.
  intros Hwf Hpf Hk.
  assert (Hall : forall k' c', In (k', c') codes -> c' = []).
  { intros k' c' Hin. destruct (Z.eq_dec k k') as [<-|Hne].
    - apply (NoDup_keys_functional codes k c' []); [apply wf_NoDup| |]; assumption.
    - exfalso. apply (Hpf k [] k' c' Hk Hin Hne). apply is_prefix_nil. }
  induction 1 as [|k' c samples bits Hin Hsp IH]; [reflexivity|].
  rewrite (Hall k' c Hin), IH. reflexivity.
Qed.

(** C8, as amended.  For every prefix-free code table of bit strings and
    every stream that is a concatenation of codes of the table, the walk
    over the rebuilt tree never steps onto a null child and stands on the
    root after the last bit; when no code of the table is empty, it emits
    exactly the sample sequence the stream was made from. *)
Theorem C8_walk_follows_codes :
  forall (codes : StdMap.t cstring) (samples : list Z) (bits : cstring),
    StdMap.wf codes ->
    (forall k c, In (k, c) codes -> bit_string c) ->
    prefix_free codes ->
    spells codes samples bits ->
    exists emitted,
      Decoder.decode_walk (Decoder.buildHuffmanTree codes)
        (Decoder.buildHuffmanTree codes) bits []
      = Ok (emitted, Decoder.buildHuffmanTree codes)
      /\ Decoder.decodeAudioData bits (Decoder.buildHuffmanTree codes) = Ok emitted
      /\ ((forall k c, In (k, c) codes -> c <> []) -> emitted = samples).
Proof.
  intros codes samples bits Hwf Hbits Hpf Hsp.
  destruct (empty_code_or_none codes) as [Hne|[k Hk]].
  - assert (Hvalid : valid_table codes) by (constructor; assumption).
    pose proof (walk_spells codes Hvalid samples bits Hsp [] []) as Hwalk.
    rewrite app_nil_r in Hwalk. cbn [app Decoder.decode_walk] in Hwalk.
    exists samples. split; [exact Hwalk|]. split; [|reflexivity].
    unfold Decoder.decodeAudioData. rewrite Hwalk. reflexivity.
  - rewrite (spells_empty_code codes k samples bits Hwf Hpf Hk Hsp).
    exists []. split; [reflexivity|]. split; [reflexivity|].
    intros Hne. exfalso. apply (Hne k [] Hk). reflexivity.
Qed.

Lemma C8_walk_follows_codes_witness :
  StdMap.wf example_table
  /\ (forall k c, In (k, c) example_table -> bit_string c)
  /\ prefix_free example_table
  /\ spells example_table [1; -5; 0] ([ch1; ch1] ++ [ch1; ch0] ++ [ch0] ++ [])
  /\ exists emitted,
      Decoder.decode_walk (Decoder.buildHuffmanTree example_table)
        (Decoder.buildHuffmanTree example_table)
        ([ch1; ch1] ++ [ch1; ch0] ++ [ch0] ++ []) []
      = Ok (emitted, Decoder.buildHuffmanTree example_table)
      /\ Decoder.decodeAudioData ([ch1; ch1] ++ [ch1; ch0] ++ [ch0] ++ [])
           (Decoder.buildHuffmanTree example_table) = Ok emitted
      /\ ((forall k c, In (k, c) example_table -> c <> []) -> emitted = [1; -5; 0]).
Proof.
  assert (Hsp : spells example_table [1; -5; 0] ([ch1; ch1] ++ [ch1; ch0] ++ [ch0] ++ [])).
  { apply spells_cons; [simpl; auto|]. apply spells_cons; [simpl; auto|].
    apply spells_cons; [simpl; auto|]. apply spells_nil. }
  pose proof example_table_valid as Hvalid.
  split; [exact (vt_wf _ Hvalid)|]. split; [exact (vt_bits _ Hvalid)|].
  split; [exact (vt_prefix_free _ Hvalid)|]. split; [exact Hsp|].
  exact (C8_walk_follows_codes example_table [1; -5; 0]
           ([ch1; ch1] ++ [ch1; ch0] ++ [ch0] ++ [])
           (vt_wf _ Hvalid) (vt_bits _ Hvalid) (vt_prefix_free _ Hvalid) Hsp).
Defined.

(** C8 as stated fails on a table whose only code is empty, which is a
    prefix code: the empty stream is the code of the sample 5, and the
    walk emits nothing for it. *)
Lemma C8_counterexample :
  StdMap.wf [(5, @nil ascii)]
  /\ (forall k c, In (k, c) [(5, @nil ascii)] -> bit_string c)
  /\ prefix_free [(5, [])]
  /\ spells [(5, [])] [5] ([] ++ [])
  /\ Decoder.decodeAudioData ([] ++ []) (Decoder.buildHuffmanTree [(5, [])]) = Ok [].
Proof.
  split; [repeat constructor|]. split.
  - intros k c [[= <- <-]|[]]. constructor.
  - split.
    + intros k1 c1 k2 c2 [E1|[]] [E2|[]] Hne. congruence.
    + split; [|reflexivity].
      apply spells_cons; [left; reflexivity|apply spells_nil].
Qed.

(** ** C9: determinism *)

Lemma merge_loop_run_deterministic (H : Encoder.HeapAlgorithms)
      (minHeap : list Encoder.HuffmanNode)
      (r1 r2 : outcome (list Encoder.HuffmanNode)) :
  merge_loop_run H minHeap r1 -> merge_loop_run H minHeap r2 -> r1 = r2.
Proof.
  intros Hrun1. revert r2.
  induction Hrun1 as [heap Hlen|heap heap' r Hlen Hstep Hrun IH|heap r Hlen Hstep Herr];
    intros r2 Hrun2.
  - inversion Hrun2 as [? Hlen2|? ? ? Hlen2|? ? Hlen2]; subst; [reflexivity|lia|lia].
  - inversion Hrun2 as [? Hlen2|? heap2 ? Hlen2 Hstep2 Hrun2'|? ? Hlen2 Hstep2 Herr2]; subst.
    + lia.
    + rewrite Hstep in Hstep2. injection Hstep2 as <-. apply IH. exact Hrun2'.
    + rewrite Hstep in Herr2. destruct Herr2.
  - inversion Hrun2 as [? Hlen2|? heap2 ? Hlen2 Hstep2 Hrun2'|? ? Hlen2 Hstep2 Herr2]; subst.
    + lia.
    + rewrite Hstep2 in Herr. destruct Herr.
    + reflexivity.
Qed.

(** The budgeted loop and the relation agree wherever the budget was
    enough. *)
Lemma merge_loop_run_complete (H : Encoder.HeapAlgorithms) (fuel : nat) :
  forall minHeap r,
    Encoder.merge_loop H fuel minHeap = r -> r <> Diverges ->
    merge_loop_run H minHeap r.
Proof.
  induction fuel as [|fuel IH]; intros minHeap r Hloop Hr.
  - cbn [Encoder.merge_loop] in Hloop.
    destruct (1 <? length minHeap)%nat eqn:E; [congruence|].
    apply Nat.ltb_ge in E. subst r. apply loop_exit. exact E.
  - cbn [Encoder.merge_loop] in Hloop.
    destruct (1 <? length minHeap)%nat eqn:E.
    + apply Nat.ltb_lt in E.
      destruct (Encoder.merge_step H minHeap) as [minHeap'| | |] eqn:Hstep;
        cbn [bind] in Hloop.
      * apply (loop_next H minHeap minHeap' r E Hstep). apply IH; assumption.
      * subst r. apply (loop_abort H minHeap OutOfRange E Hstep). exact I.
      * subst r. apply (loop_abort H minHeap Undefined E Hstep). exact I.
      * congruence.
    + apply Nat.ltb_ge in E. subst r. apply loop_exit. exact E.
Qed.

Lemma encoder_run_main (H : Encoder.HeapAlgorithms) (header : WavHeader)
      (audioData : list Z) (r : outcome EncodedFile) :
  Encoder.main H header audioData = r -> r <> Diverges ->
  encoder_run H header audioData r.
Proof.
  intros Hmain Hr. unfold Encoder.main, Encoder.buildHuffmanTree in Hmain.
  set (minHeap := Encoder.push_leaves H (Encoder.calculateFrequencies audioData)) in *.
  destruct (Encoder.merge_loop H (length minHeap) minHeap) as [heap'| | |] eqn:Hloop.
  - rewrite <- Hmain.
    apply (encoder_run_intro H header audioData (Ok heap')).
    apply (merge_loop_run_complete H (length minHeap)); [exact Hloop|discriminate].
  - rewrite <- Hmain.
    apply (encoder_run_intro H header audioData OutOfRange).
    apply (merge_loop_run_complete H (length minHeap)); [exact Hloop|discriminate].
  - rewrite <- Hmain.
    apply (encoder_run_intro H header audioData Undefined).
    apply (merge_loop_run_complete H (length minHeap)); [exact Hloop|discriminate].
  - cbn [bind] in Hmain. congruence.
Qed.

Lemma encodeAudioData_ends (audioData : list Z) (codes : StdMap.t cstring) :
  (exists bits, Encoder.encodeAudioData audioData codes = Ok bits)
  \/ Encoder.encodeAudioData audioData codes = OutOfRange.
Proof.
  induction audioData as [|s rest IH]; [left; exists []; reflexivity|].
  cbn [Encoder.encodeAudioData]. unfold StdMap.at_.
  destruct (StdMap.find s codes) as [c|]; [|right; reflexivity].
  cbn [bind]. destruct IH as [[bits Hb]|Hb]; rewrite Hb;
    [left; eexists|right]; reflexivity.
Qed.

(** Over a conforming queue the encoder always ends: every input has a
    run, and by determinism exactly one outcome. *)
Lemma encoder_run_total (H : Encoder.HeapAlgorithms) (header : WavHeader)
      (audioData : list Z) :
  Encoder.conforming H ->
  encoder_run H header audioData (Encoder.main H header audioData).
Proof.
  intros Hconf. apply encoder_run_main; [reflexivity|].
  unfold Encoder.main.
  destruct (Encoder.calculateFrequencies audioData) as [|b l] eqn:E.
  - discriminate.
  - destruct (buildHuffmanTree_spec H Hconf (b :: l) ltac:(discriminate))
      as (t & -> & _).
    cbn [bind].
    destruct (encodeAudioData_ends audioData
                (Encoder.generateCodes t [] StdMap.empty)) as [[bits Hb]|Hb];
      rewrite Hb; discriminate.
Qed.

(** C9.  With the priority queue fixed, two runs of the encoder on the
    same header and samples end alike; when they complete, the code
    table, the recorded bit count and the packed bytes are identical. *)
Theorem C9_encoding_deterministic :
  forall (H : Encoder.HeapAlgorithms) (header : WavHeader) (audioData : list Z)
         (r1 r2 : outcome EncodedFile),
    encoder_run H header audioData r1 ->
    encoder_run H header audioData r2 ->
    r1 = r2
    /\ forall f1 f2, r1 = Ok f1 -> r2 = Ok f2 ->
         file_codes f1 = file_codes f2
         /\ file_bit_count f1 = file_bit_count f2
         /\ file_bytes f1 = file_bytes f2.
Proof.
  intros H header audioData r1 r2 Hrun1 Hrun2.
  assert (E : r1 = r2).
  { destruct Hrun1 as [l1 Hl1]. destruct Hrun2 as [l2 Hl2].
    rewrite (merge_loop_run_deterministic H _ l1 l2 Hl1 Hl2). reflexivity. }
  split; [exact E|].
  intros f1 f2 E1 E2. subst r1 r2. injection E2 as <-. auto.
Qed.

Lemma C9_encoding_deterministic_witness :
  encoder_run sorted_queue example_header [0; 0; 0; 1; 1; -5]
    (Ok {| file_header := example_header;
           file_codes := example_table;
           file_bit_count := 9;
           file_bytes := [248; 0] |})
  /\ (Ok {| file_header := example_header;
            file_codes := example_table;
            file_bit_count := 9;
            file_bytes := [248; 0] |}
      = Ok {| file_header := example_header;
              file_codes := example_table;
              file_bit_count := 9;
              file_bytes := [248; 0] |}).
Proof.
  assert (Hrun : encoder_run sorted_queue example_header [0; 0; 0; 1; 1; -5]
                   (Ok {| file_header := example_header;
                          file_codes := example_table;
                          file_bit_count := 9;
                          file_bytes := [248; 0] |})).
  { apply encoder_run_main; [reflexivity|discriminate]. }
  split; [exact Hrun|].
  exact (proj1 (C9_encoding_deterministic sorted_queue example_header
                  [0; 0; 0; 1; 1; -5] _ _ Hrun Hrun)).
Defined.

(** ** C10: optimality *)

(** The example of the specification: frequencies 0:3, 1:2, -5:1 give
    code lengths 1, 2, 2 and 9 bits. *)
Example spec_example_cost :
  exists huffmanTree,
    Encoder.buildHuffmanTree sorted_queue
      (Encoder.calculateFrequencies [0; 0; 0; 1; 1; -5]) = Ok huffmanTree
    /\ Encoder.generateCodes huffmanTree [] StdMap.empty = example_table
    /\ table_cost (Encoder.calculateFrequencies [0; 0; 0; 1; 1; -5]) example_table
       = Some 9.
Proof. eexists. repeat split; reflexivity. Qed.

(** A table with the key -1, over any conforming priority queue: the
    tree holds the leaf of -1 among the leaves of the table, but
    [generateCodes] takes it for a [combined] node.  Every other sample
    gets a code, -1 gets none, and the total bit length under the
    generated table has no value. *)
Lemma minus_one_leaf_gets_no_code (H : Encoder.HeapAlgorithms)
      (frequencies : StdMap.t Z) :
  Encoder.conforming H ->
  StdMap.wf frequencies ->
  In (-1) (StdMap.keys frequencies) ->
  exists top,
    Encoder.buildHuffmanTree H frequencies = Ok (join top)
    /\ Permutation (leaves top) (map leaf_of frequencies)
    /\ (forall k, In k (StdMap.keys frequencies) -> k <> -1 ->
          exists c,
            StdMap.find k (Encoder.generateCodes (join top) [] StdMap.empty) = Some c)
    /\ StdMap.find (-1) (Encoder.generateCodes (join top) [] StdMap.empty) = None
    /\ table_cost frequencies (Encoder.generateCodes (join top) [] StdMap.empty) = None.
Proof.
  intros Hconf Hwf Hminus.
  assert (Hne : frequencies <> []) by (intros E; rewrite E in Hminus; destruct Hminus).
  destruct (buildHuffmanTree_shape H Hconf frequencies Hne) as (top & Hbuild & Hp & _).
  destruct (shape_leaves top frequencies Hp Hwf) as (Hleaf & Hnd & Hkeys).
  assert (Hnone : StdMap.find (-1) (Encoder.generateCodes (join top) [] StdMap.empty)
                  = None)
    by (rewrite generateCodes_skips_minus_one; reflexivity).
  exists top. split; [exact Hbuild|]. split; [exact Hp|]. split; [|split].
  - intros k Hk Hk1. apply (codes_keys top Hleaf Hnd); [|exact Hk1].
    apply Hkeys. exact Hk.
  - exact Hnone.
  - apply (table_cost_undefined _ _ (-1)); assumption.
Qed.

(** C10, on the code: the samples -1, 0 give the table -1: 1, 0: 1, and
    the tree holds a leaf for each of the two.  [generateCodes] tells a
    leaf from a [combined] node by its sample, which is -1 in a
    [combined] node, and so passes over the leaf of -1: the generated
    table holds a code for 0 only.  The total bit length under it has no
    value and the encoder ends in [std::out_of_range], while the prefix
    code -1: "0", 0: "1" encodes the table in 2 bits. *)
Theorem C10_minus_one_leaf_gets_no_code :
  Encoder.calculateFrequencies [-1; 0] = [(-1, 1); (0, 1)]
  /\ Encoder.buildHuffmanTree sorted_queue [(-1, 1); (0, 1)]
     = Ok (Encoder.Node (-1) 2 (Encoder.new_node (-1) 1) (Encoder.new_node 0 1))
  /\ Encoder.generateCodes
       (Encoder.Node (-1) 2 (Encoder.new_node (-1) 1) (Encoder.new_node 0 1))
       [] StdMap.empty = [(0, [ch1])]
  /\ table_cost [(-1, 1); (0, 1)] [(0, [ch1])] = None
  /\ Encoder.main sorted_queue example_header [-1; 0] = OutOfRange
  /\ prefix_assignment [(-1, 1); (0, 1)] [(-1, [ch0]); (0, [ch1])]
  /\ table_cost [(-1, 1); (0, 1)] [(-1, [ch0]); (0, [ch1])] = Some 2.
Proof.
  split; [reflexivity|]. split; [reflexivity|]. split; [reflexivity|].
  split; [reflexivity|]. split; [reflexivity|]. split; [|reflexivity].
  constructor.
  - intros k c [<-|[<-|[]]] [= <-];
      repeat constructor; (left; reflexivity) || (right; reflexivity).
  - intros k1 c1 k2 c2 [<-|[<-|[]]] [<-|[<-|[]]] Hne [= <-] [= <-] [d Hd];
      try congruence; discriminate.
Qed.

(** Another prefix code for the table of the example: it gives the rare
    sample the short code and costs 11 bits, two more than the generated
    one. *)
Example other_assignment_costs_more :
  prefix_assignment [(-5, 1); (0, 3); (1, 2)]
    [(-5, [ch1]); (0, [ch0; ch0]); (1, [ch0; ch1])]
  /\ table_cost [(-5, 1); (0, 3); (1, 2)]
       [(-5, [ch1]); (0, [ch0; ch0]); (1, [ch0; ch1])] = Some 11.
Proof.
  split; [|reflexivity]. constructor.
  - intros k c [<-|[<-|[<-|[]]]] [= <-];
      repeat constructor; (left; reflexivity) || (right; reflexivity).
  - intros k1 c1 k2 c2 [<-|[<-|[<-|[]]]] [<-|[<-|[<-|[]]]] Hne [= <-] [= <-] [d Hd];
      try congruence; discriminate.
Qed.

(* ===================================================================== *)
(** * Part IV. The programs on files, and further properties of the code *)
(* ===================================================================== *)

(** ** Bytes and scalars *)

Lemma le_bytes_length (n : nat) : forall v, length (le_bytes n v) = n.
Proof. induction n as [|n IH]; intros v; cbn [le_bytes length]; [reflexivity|]. now rewrite IH. Qed.

Lemma le_bytes_bytes (n : nat) : forall v, Forall is_byte (le_bytes n v).
Proof.
  induction n as [|n IH]; intros v; cbn [le_bytes]; constructor; [|apply IH].
  unfold is_byte. apply Z.mod_pos_bound. lia.
Qed.

Lemma le_value_le_bytes (n : nat) :
  forall v, le_value (le_bytes n v) = v mod 256 ^ Z.of_nat n.
Proof.
  induction n as [|n IH]; intros v.
  - cbn [le_bytes le_value]. change (256 ^ Z.of_nat 0) with 1. now rewrite Z.mod_1_r.
  - cbn [le_bytes le_value]. rewrite IH.
    replace (Z.of_nat (S n)) with (Z.succ (Z.of_nat n)) by lia.
    rewrite Z.pow_succ_r by lia.
    assert (Hp : 0 < 256 ^ Z.of_nat n) by (apply Z.pow_pos_nonneg; lia).
    rewrite (Z.rem_mul_r v 256 (256 ^ Z.of_nat n)) by lia. reflexivity.
Qed.

Lemma le_bytes_le_value (bs : list Z) :
  Forall is_byte bs -> le_bytes (length bs) (le_value bs) = bs.
Proof.
  induction 1 as [|b bs Hb _ IH]; [reflexivity|].
  cbn [length le_value le_bytes]. unfold is_byte in Hb.
  replace ((b + 256 * le_value bs) mod 256) with b by lia.
  replace ((b + 256 * le_value bs) / 256) with (le_value bs) by lia.
  now rewrite IH.
Qed.

Lemma le_value_range (bs : list Z) :
  Forall is_byte bs -> 0 <= le_value bs < 256 ^ Z.of_nat (length bs).
Proof.
  induction 1 as [|b bs Hb _ IH]; [cbn; lia|].
  cbn [length le_value]. unfold is_byte in Hb.
  replace (Z.of_nat (S (length bs))) with (Z.succ (Z.of_nat (length bs))) by lia.
  rewrite Z.pow_succ_r by lia. lia.
Qed.

Lemma to_int16_range (u : Z) : 0 <= u < 65536 -> is_int16 (to_int16 u).
Proof. unfold is_int16, to_int16. destruct (Z.ltb_spec u 32768); lia. Qed.

Lemma to_int16_le_bytes (s : Z) :
  is_int16 s -> to_int16 (le_value (le_bytes 2 s)) = s.
Proof.
  intros Hs. rewrite le_value_le_bytes. change (256 ^ Z.of_nat 2) with 65536.
  unfold is_int16 in Hs. unfold to_int16.
  destruct (Z.ltb_spec (s mod 65536) 32768); lia.
Qed.

Lemma le_bytes_to_int16 (u : Z) :
  0 <= u < 65536 -> le_bytes 2 (to_int16 u) = le_bytes 2 u.
Proof.
  intros Hu. unfold to_int16. destruct (Z.ltb_spec u 32768); [reflexivity|].
  cbn [le_bytes]. f_equal; [|f_equal]; lia.
Qed.

Lemma char_of_byte_of_char (c : ascii) : char_of_byte (byte_of_char c) = c.
Proof. unfold char_of_byte, byte_of_char. rewrite N2Z.id. apply ascii_N_embedding. Qed.

Lemma byte_of_char_of_byte (b : Z) : is_byte b -> byte_of_char (char_of_byte b) = b.
Proof.
  intros Hb. unfold char_of_byte, byte_of_char, is_byte in *.
  rewrite N_ascii_embedding by lia. lia.
Qed.

Lemma byte_of_char_byte (c : ascii) : is_byte (byte_of_char c).
Proof.
  unfold is_byte, byte_of_char. pose proof (N_ascii_bounded c). lia.
Qed.

Lemma chars_of_bytes_of_chars (s : cstring) :
  map char_of_byte (map byte_of_char s) = s.
Proof.
  induction s as [|c s IH]; [reflexivity|].
  cbn [map]. now rewrite char_of_byte_of_char, IH.
Qed.

Lemma bytes_of_chars_of_bytes (bs : list Z) :
  Forall is_byte bs -> map byte_of_char (map char_of_byte bs) = bs.
Proof.
  induction 1 as [|b bs Hb _ IH]; [reflexivity|].
  cbn [map]. now rewrite byte_of_char_of_byte, IH.
Qed.

Lemma cstring_eqb_eq (a b : cstring) : cstring_eqb a b = true <-> a = b.
Proof.
  revert b. induction a as [|x a IH]; intros [|y b]; cbn [cstring_eqb];
    try (split; [discriminate|discriminate]); try tauto.
  rewrite andb_true_iff, Ascii.eqb_eq, IH. split.
  - now intros [-> ->].
  - now intros [= -> ->].
Qed.

(** ** The header and its 44 bytes *)

Lemma le_value_le_bytes_4 (v : Z) : 0 <= v < two32 -> le_value (le_bytes 4 v) = v.
Proof.
  intros Hv. rewrite le_value_le_bytes. change (256 ^ Z.of_nat 4) with two32.
  now apply Z.mod_small.
Qed.

Lemma le_value_le_bytes_2 (v : Z) : 0 <= v < 65536 -> le_value (le_bytes 2 v) = v.
Proof.
  intros Hv. rewrite le_value_le_bytes. change (256 ^ Z.of_nat 2) with 65536.
  now apply Z.mod_small.
Qed.

Lemma header_of_bytes_header_bytes (h : WavHeader) :
  header_ok h -> header_of_bytes (header_bytes h) = h.
Proof.
  intros [H1 H2 H3 H4 H5 H6 H7 H8 H9 H10 H11 H12 H13].
  destruct h as [r os w f lf ft ch sr br ba bp dc ds].
  cbn [riff overall_size wave fmt_chunk_marker length_of_fmt format_type channels
       sample_rate byterate block_align bits_per_sample data_chunk_header data_size] in *.
  four_chars r H1. four_chars w H3. four_chars f H4. four_chars dc H12.
  unfold header_of_bytes, header_bytes.
  cbn [riff overall_size wave fmt_chunk_marker length_of_fmt format_type channels
       sample_rate byterate block_align bits_per_sample data_chunk_header data_size
       map app le_bytes slice firstn skipn].
  rewrite !char_of_byte_of_char.
  change [os mod 256; os / 256 mod 256; os / 256 / 256 mod 256; os / 256 / 256 / 256 mod 256]
    with (le_bytes 4 os).
  change [lf mod 256; lf / 256 mod 256; lf / 256 / 256 mod 256; lf / 256 / 256 / 256 mod 256]
    with (le_bytes 4 lf).
  change [sr mod 256; sr / 256 mod 256; sr / 256 / 256 mod 256; sr / 256 / 256 / 256 mod 256]
    with (le_bytes 4 sr).
  change [br mod 256; br / 256 mod 256; br / 256 / 256 mod 256; br / 256 / 256 / 256 mod 256]
    with (le_bytes 4 br).
  change [ds mod 256; ds / 256 mod 256; ds / 256 / 256 mod 256; ds / 256 / 256 / 256 mod 256]
    with (le_bytes 4 ds).
  change [ft mod 256; ft / 256 mod 256] with (le_bytes 2 ft).
  change [ch mod 256; ch / 256 mod 256] with (le_bytes 2 ch).
  change [ba mod 256; ba / 256 mod 256] with (le_bytes 2 ba).
  change [bp mod 256; bp / 256 mod 256] with (le_bytes 2 bp).
  rewrite !le_value_le_bytes_4, !le_value_le_bytes_2 by assumption.
  reflexivity.
Qed.

Lemma header_bytes_length (h : WavHeader) :
  header_ok h -> length (header_bytes h) = 44%nat.
Proof.
  intros [H1 _ H3 H4 _ _ _ _ _ _ _ H12 _]. unfold header_bytes.
  rewrite !length_app, !length_map, !le_bytes_length, H1, H3, H4, H12. reflexivity.
Qed.

Lemma header_bytes_bytes (h : WavHeader) : Forall is_byte (header_bytes h).
Proof.
  unfold header_bytes.
  repeat (apply Forall_app; split);
    try apply le_bytes_bytes;
    apply Forall_forall; intros b Hb; apply in_map_iff in Hb as (c & <- & _);
    apply byte_of_char_byte.
Qed.

Lemma firstn_bytes (n : nat) (bs : list Z) : Forall is_byte bs -> Forall is_byte (firstn n bs).
Proof.
  intros Hb. rewrite <- (firstn_skipn n bs) in Hb. apply Forall_app in Hb. tauto.
Qed.

Lemma skipn_bytes (n : nat) (bs : list Z) : Forall is_byte bs -> Forall is_byte (skipn n bs).
Proof.
  intros Hb. rewrite <- (firstn_skipn n bs) in Hb. apply Forall_app in Hb. tauto.
Qed.

Lemma header_bytes_header_of_bytes (bs : list Z) :
  length bs = 44%nat -> Forall is_byte bs -> header_bytes (header_of_bytes bs) = bs.
Proof.
  intros Hlen Hb.
  take_bytes bs Hlen 44.
  unfold header_of_bytes, header_bytes.
  cbn [riff overall_size wave fmt_chunk_marker length_of_fmt format_type channels
       sample_rate byterate block_align bits_per_sample data_chunk_header data_size
       map slice firstn skipn].
  repeat match goal with
  | H : Forall is_byte (_ :: _) |- _ =>
      let Hx := fresh "Hx" in
      pose proof (Forall_inv H) as Hx; apply Forall_inv_tail in H
  end.
  rewrite !byte_of_char_of_byte by assumption.
  repeat match goal with
  | |- context [le_bytes 4%nat (le_value [?a; ?b; ?c; ?d])] =>
      change (le_bytes 4%nat (le_value [a; b; c; d]))
        with (le_bytes (length [a; b; c; d]) (le_value [a; b; c; d]));
      rewrite (le_bytes_le_value [a; b; c; d]) by (repeat (apply Forall_cons; [assumption|]); apply Forall_nil)
  | |- context [le_bytes 2%nat (le_value [?a; ?b])] =>
      change (le_bytes 2%nat (le_value [a; b]))
        with (le_bytes (length [a; b]) (le_value [a; b]));
      rewrite (le_bytes_le_value [a; b]) by (repeat (apply Forall_cons; [assumption|]); apply Forall_nil)
  end.
  reflexivity.
Qed.

Lemma header_of_bytes_ok (bs : list Z) :
  length bs = 44%nat -> Forall is_byte bs -> header_ok (header_of_bytes bs).
Proof.
  intros Hlen Hb.
  assert (H4 : forall from, (from + 4 <= 44)%nat ->
            length (slice from 4 bs) = 4%nat /\ 0 <= le_value (slice from 4 bs) < two32).
  { intros from Hf.
    assert (Hl : length (slice from 4 bs) = 4%nat)
      by (unfold slice; rewrite length_firstn, length_skipn; lia).
    split; [exact Hl|].
    pose proof (le_value_range (slice from 4 bs)
                  (firstn_bytes _ _ (skipn_bytes _ _ Hb))) as Hr.
    rewrite Hl in Hr. exact Hr. }
  assert (H2 : forall from, (from + 2 <= 44)%nat ->
            0 <= le_value (slice from 2 bs) < 65536).
  { intros from Hf.
    assert (Hl : length (slice from 2 bs) = 2%nat)
      by (unfold slice; rewrite length_firstn, length_skipn; lia).
    pose proof (le_value_range (slice from 2 bs)
                  (firstn_bytes _ _ (skipn_bytes _ _ Hb))) as Hr.
    rewrite Hl in Hr. exact Hr. }
  constructor; unfold header_of_bytes;
    cbn [riff overall_size wave fmt_chunk_marker length_of_fmt format_type channels
         sample_rate byterate block_align bits_per_sample data_chunk_header data_size];
    rewrite ?length_map;
    try (apply H4; lia); try (apply H2; lia).
Qed.

(** ** Samples and their bytes *)

Lemma sample_bytes_length (audioData : list Z) :
  length (sample_bytes audioData) = (2 * length audioData)%nat.
Proof.
  induction audioData as [|s l IH]; [reflexivity|].
  unfold sample_bytes in *. cbn [flat_map]. rewrite length_app, IH, le_bytes_length.
  cbn [length]. lia.
Qed.

Lemma sample_bytes_bytes (audioData : list Z) : Forall is_byte (sample_bytes audioData).
Proof.
  induction audioData as [|s l IH]; [constructor|].
  unfold sample_bytes in *. cbn [flat_map]. apply Forall_app. split; [apply le_bytes_bytes|exact IH].
Qed.

Lemma samples_of_sample_bytes (audioData : list Z) :
  Forall is_int16 audioData -> samples_of (sample_bytes audioData) = audioData.
Proof.
  induction 1 as [|s l Hs _ IH]; [reflexivity|].
  unfold sample_bytes in *. cbn [flat_map].
  change (le_bytes 2 s ++ flat_map (le_bytes 2) l)
    with (s mod 256 :: s / 256 mod 256 :: flat_map (le_bytes 2) l).
  cbn [samples_of]. rewrite IH.
  change [s mod 256; s / 256 mod 256] with (le_bytes 2 s).
  now rewrite to_int16_le_bytes.
Qed.

Lemma sample_bytes_zeros (n : nat) :
  sample_bytes (repeat 0 n) = repeat 0 (2 * n).
Proof.
  induction n as [|n IH]; [reflexivity|].
  replace (2 * S n)%nat with (S (S (2 * n))) by lia.
  unfold sample_bytes in *. cbn [repeat flat_map]. rewrite IH. reflexivity.
Qed.

(** Lists of even length, two elements at a time. *)
Lemma pairs_ind (P : list Z -> Prop) :
  P [] -> (forall a b l, P l -> P (a :: b :: l)) ->
  forall l, Nat.Even (length l) -> P l.
Proof.
  intros Hnil Hcons l.
  enough (Hboth : (Nat.Even (length l) -> P l)
                  /\ forall a, Nat.Even (length (a :: l)) -> P (a :: l)) by apply Hboth.
  induction l as [|b l [IH1 IH2]].
  - split; [intros _; exact Hnil|]. intros a [k Hk]. cbn [length] in Hk. lia.
  - split; [apply IH2|]. intros a [k Hk]. apply Hcons, IH1.
    exists (k - 1)%nat. cbn [length] in Hk. lia.
Qed.

Lemma sample_bytes_samples_of (bs : list Z) :
  Nat.Even (length bs) -> Forall is_byte bs -> sample_bytes (samples_of bs) = bs.
Proof.
  revert bs.
  apply (pairs_ind (fun bs => Forall is_byte bs -> sample_bytes (samples_of bs) = bs));
    [reflexivity|].
  intros a b l IH Hb.
  pose proof (Forall_inv Hb) as Ha. apply Forall_inv_tail in Hb.
  pose proof (Forall_inv Hb) as Hb'. apply Forall_inv_tail in Hb.
  cbn [samples_of]. unfold sample_bytes in *. cbn [flat_map]. rewrite (IH Hb).
  rewrite le_bytes_to_int16.
  - change 2%nat with (length [a; b]). rewrite le_bytes_le_value; [reflexivity|].
    repeat (apply Forall_cons; [assumption|]). apply Forall_nil.
  - pose proof (le_value_range [a; b]) as Hr. cbn [length] in Hr.
    change (256 ^ Z.of_nat 2) with 65536 in Hr. apply Hr.
    repeat (apply Forall_cons; [assumption|]). apply Forall_nil.
Qed.

Lemma samples_of_length (bs : list Z) :
  Nat.Even (length bs) -> (2 * length (samples_of bs) = length bs)%nat.
Proof.
  revert bs.
  apply (pairs_ind (fun bs => (2 * length (samples_of bs) = length bs)%nat));
    [reflexivity|].
  intros a b l IH. cbn [samples_of length]. lia.
Qed.

Lemma samples_of_int16 (bs : list Z) :
  Forall is_byte bs -> Forall is_int16 (samples_of bs).
Proof.
  revert bs. fix IH 1. intros [|a [|b l]] Hb; try constructor.
  - pose proof (Forall_inv Hb) as Ha. apply Forall_inv_tail in Hb.
    pose proof (Forall_inv Hb) as Hb'.
    apply to_int16_range. pose proof (le_value_range [a; b]) as Hr. cbn [length] in Hr.
    change (256 ^ Z.of_nat 2) with 65536 in Hr. apply Hr.
    repeat (apply Forall_cons; [assumption|]). apply Forall_nil.
  - apply IH. apply Forall_inv_tail in Hb. apply Forall_inv_tail in Hb. exact Hb.
Qed.

(** ** [readWavFile] *)

Lemma read_over_zeros (data : list Z) (n m : nat) :
  (m <= n)%nat -> (length (firstn n data) <= m)%nat ->
  firstn n data ++ skipn (length (firstn n data)) (repeat 0 m)
  = firstn m (data ++ repeat 0 m).
Proof.
  intros Hmn Hgot. rewrite length_firstn in *.
  rewrite firstn_app.
  assert (Hzeros : forall a b : nat, skipn a (repeat 0 b) = repeat 0 (b - a)).
  { intros a. induction a as [|a IH]; intros [|b]; cbn [skipn repeat Nat.sub];
      try reflexivity. apply IH. }
  assert (Hfirst : forall a b : nat, (a <= b)%nat -> firstn a (repeat 0 b) = repeat 0 a).
  { intros a. induction a as [|a IH]; intros [|b] Hab; cbn [firstn repeat];
      try reflexivity; try lia. f_equal. apply IH. lia. }
  rewrite Hzeros, Hfirst by lia.
  destruct (Nat.le_gt_cases (length data) m) as [Hshort|Hlong].
  - rewrite !firstn_all2 by lia. f_equal. f_equal. lia.
  - assert (n = m) by lia. subst n. f_equal. f_equal. lia.
Qed.

Lemma readWavFile_inv (file : option (list Z)) (header : WavHeader) (audioData : list Z) :
  EncoderIO.readWavFile file = Ok (Returned (header, audioData)) ->
  exists stream,
    file = Some stream
    /\ (44 <= length stream)%nat
    /\ header = header_of_bytes (firstn 44 stream)
    /\ riff header = EncoderIO.RIFF
    /\ wave header = EncoderIO.WAVE
    /\ (length (firstn (Z.to_nat (data_size header)) (skipn 44 stream))
        <= 2 * Z.to_nat (data_size header / 2))%nat
    /\ audioData
       = samples_of (firstn (2 * Z.to_nat (data_size header / 2))
                            (skipn 44 stream
                             ++ repeat 0 (2 * Z.to_nat (data_size header / 2)))).
Proof.
  unfold EncoderIO.readWavFile. destruct file as [stream|]; [|discriminate].
  remember (header_of_bytes (firstn 44 stream)) as h0 eqn:Hh0.
  remember (skipn 44 stream) as data eqn:Hdata.
  unfold filled.
  destruct (Nat.ltb_spec (length stream) 4) as [|H4]; [discriminate|].
  cbn [bind].
  destruct (cstring_eqb _ EncoderIO.RIFF) eqn:Hriff; [|discriminate]. cbn [negb].
  destruct (Nat.ltb_spec (length stream) 12) as [|H12]; [discriminate|].
  cbn [bind].
  destruct (cstring_eqb _ EncoderIO.WAVE) eqn:Hwave; [|discriminate]. cbn [negb].
  destruct (Nat.ltb_spec (length stream) 44) as [|H44]; [discriminate|].
  cbn [bind]. unfold read_into.
  rewrite sample_bytes_zeros, repeat_length.
  match goal with |- context [(?a <? ?b)%nat] => destruct (Nat.ltb_spec a b) as [|Hfit] end;
    [discriminate|].
  cbn [bind fst]. intros [= <- <-].
  exists stream. subst data. repeat split; try assumption.
  - now apply cstring_eqb_eq.
  - now apply cstring_eqb_eq.
  - f_equal. apply read_over_zeros; [|exact Hfit]. lia.
Qed.

Lemma firstn_header (h : WavHeader) (data : list Z) :
  header_ok h -> firstn 44 (header_bytes h ++ data) = header_bytes h.
Proof.
  intros Hok. rewrite <- (header_bytes_length h Hok).
  now rewrite firstn_app, Nat.sub_diag, firstn_O, app_nil_r, firstn_all.
Qed.

Lemma skipn_header (h : WavHeader) (data : list Z) :
  header_ok h -> skipn 44 (header_bytes h ++ data) = data.
Proof.
  intros Hok. rewrite <- (header_bytes_length h Hok).
  now rewrite skipn_app, Nat.sub_diag, skipn_O, skipn_all.
Qed.

Lemma readWavFile_spec (h : WavHeader) (data : list Z) :
  header_ok h -> riff h = EncoderIO.RIFF -> wave h = EncoderIO.WAVE ->
  EncoderIO.readWavFile (Some (header_bytes h ++ data))
  = if (2 * Z.to_nat (data_size h / 2)
        <? length (firstn (Z.to_nat (data_size h)) data))%nat
    then Undefined
    else Ok (Returned (h, samples_of (firstn (2 * Z.to_nat (data_size h / 2))
                                       (data ++ repeat 0 (2 * Z.to_nat (data_size h / 2)))))).
Proof.
  intros Hok Hriff Hwave. unfold EncoderIO.readWavFile.
  rewrite (firstn_header h data Hok), (header_of_bytes_header_bytes h Hok).
  rewrite (skipn_header h data Hok).
  assert (Hlen : (44 <= length (header_bytes h ++ data))%nat)
    by (rewrite length_app, (header_bytes_length h Hok); lia).
  unfold filled.
  destruct (Nat.ltb_spec (length (header_bytes h ++ data)) 4); [lia|].
  destruct (Nat.ltb_spec (length (header_bytes h ++ data)) 12); [lia|].
  destruct (Nat.ltb_spec (length (header_bytes h ++ data)) 44); [lia|].
  cbn [bind]. rewrite Hriff, Hwave.
  replace (cstring_eqb EncoderIO.RIFF EncoderIO.RIFF) with true by reflexivity.
  replace (cstring_eqb EncoderIO.WAVE EncoderIO.WAVE) with true by reflexivity.
  cbn [negb]. unfold read_into. rewrite sample_bytes_zeros, repeat_length.
  match goal with |- context [(?a <? ?b)%nat] => destruct (Nat.ltb_spec a b) as [|Hfit] end;
    [reflexivity|].
  cbn [bind fst]. do 4 f_equal. apply read_over_zeros; [|exact Hfit]. lia.
Qed.

(** ** The code table in the file: [saveEncodedFile] against [readHuffmanCodes] *)

Lemma read_scalar_le_bytes (n : nat) (v : Z) (rest : list Z) :
  read_scalar n (le_bytes n v ++ rest) = Ok (v mod 256 ^ Z.of_nat n, rest).
Proof.
  unfold read_scalar, filled. rewrite length_app, le_bytes_length.
  destruct (Nat.ltb_spec (n + length rest) n); [lia|]. cbn [bind].
  rewrite <- (le_bytes_length n v) at 1 3.
  rewrite firstn_app, Nat.sub_diag, firstn_O, app_nil_r, firstn_all.
  rewrite skipn_app, Nat.sub_diag, skipn_O, skipn_all.
  now rewrite le_value_le_bytes.
Qed.

Lemma read_into_exact (buffer written rest : list Z) :
  length buffer = length written ->
  read_into buffer (length written) (written ++ rest) = Ok (written, rest).
Proof.
  intros Hlen. unfold read_into.
  rewrite firstn_app, Nat.sub_diag, firstn_O, app_nil_r, firstn_all.
  rewrite skipn_app, Nat.sub_diag, skipn_O, skipn_all.
  destruct (Nat.ltb_spec (length buffer) (length written)); [lia|].
  rewrite <- Hlen, skipn_all. now rewrite app_nil_r.
Qed.

Lemma set_last {V : Type} (m : StdMap.t V) (k : Z) (v : V) :
  StdMap.wf (m ++ [(k, v)]) -> StdMap.set k v m = m ++ [(k, v)].
Proof.
  unfold StdMap.wf, StdMap.keys. induction m as [|[k' v'] m IH]; intros Hwf; [reflexivity|].
  cbn [map app] in Hwf. inversion Hwf as [|? ? Hwf' Hall]; subst.
  cbn [StdMap.set app].
  assert (Hlt : k' < k).
  { rewrite Forall_forall in Hall. apply Hall. rewrite map_app. apply in_or_app.
    right. left. reflexivity. }
  destruct (Z.ltb_spec k k'); [lia|]. destruct (Z.eqb_spec k k'); [lia|].
  now rewrite IH.
Qed.

Lemma sorted_keys_bound (l : list Z) :
  forall a b, StronglySorted Z.lt l -> Forall (fun k => a <= k < b) l ->
    a <= b -> Z.of_nat (length l) <= b - a.
Proof.
  induction l as [|x l IH]; intros a b Hs Hr Hab; [cbn [length]; lia|].
  inversion Hs as [|? ? Hs' Hall]; subst.
  pose proof (Forall_inv Hr) as Hx. cbv beta in Hx. apply Forall_inv_tail in Hr.
  assert (Hl : Z.of_nat (length l) <= b - (x + 1)).
  { apply IH; [exact Hs'| |lia].
    rewrite Forall_forall in *. intros k Hk. specialize (Hall k Hk). specialize (Hr k Hk). cbv beta in Hr. lia. }
  cbn [length]. lia.
Qed.

Lemma table_ok_size (codes : StdMap.t cstring) :
  table_ok codes -> Z.of_nat (StdMap.size codes) <= 65536.
Proof.
  intros [Hwf Hkeys _]. unfold StdMap.size.
  rewrite <- (length_map fst codes).
  change 65536 with (32768 - -32768). apply sorted_keys_bound; [exact Hwf| |lia].
  apply Forall_forall. intros k Hk. apply in_map_iff in Hk as ([k' c] & <- & Hin).
  apply (Hkeys k' c Hin).
Qed.

Lemma write_entry_read (pair : Z * cstring) (count : nat) (rest : list Z)
      (huffmanCodes : StdMap.t cstring) :
  is_int16 (fst pair) -> Z.of_nat (length (snd pair)) < two32 ->
  DecoderIO.read_entries (S count) (write_entry pair ++ rest) huffmanCodes
  = DecoderIO.read_entries count rest (StdMap.set (fst pair) (snd pair) huffmanCodes).
Proof.
  destruct pair as [k c]. cbn [fst snd]. intros Hk Hc.
  cbn [DecoderIO.read_entries]. unfold write_entry. cbn [fst snd].
  rewrite (to_uint32_small (length c)) by exact Hc.
  assert (Hu : to_uint32 (length c) = Z.of_nat (length c))
    by (unfold to_uint32; apply Z.mod_small; lia).
  rewrite Hu, firstn_all, <- !app_assoc.
  rewrite read_scalar_le_bytes. cbn [bind fst snd].
  rewrite read_scalar_le_bytes. cbn [bind fst snd].
  change (256 ^ Z.of_nat 4) with two32. rewrite (Z.mod_small (Z.of_nat (length c))) by lia.
  rewrite Nat2Z.id.
  rewrite <- (length_map byte_of_char c) at 2.
  rewrite read_into_exact by (rewrite repeat_length, length_map; reflexivity).
  cbn [bind fst snd]. rewrite chars_of_bytes_of_chars.
  change (256 ^ Z.of_nat 2) with 65536.
  replace (to_int16 (k mod 65536)) with k; [reflexivity|].
  unfold is_int16 in Hk. unfold to_int16. destruct (Z.ltb_spec (k mod 65536) 32768); lia.
Qed.

Lemma read_entries_written (l : list (Z * cstring)) :
  forall (acc : StdMap.t cstring) (rest : list Z),
    StdMap.wf (acc ++ l) ->
    (forall k c, In (k, c) l -> is_int16 k /\ Z.of_nat (length c) < two32) ->
    DecoderIO.read_entries (length l) (flat_map write_entry l ++ rest) acc
    = Ok (acc ++ l, rest).
Proof.
  induction l as [|[k c] l IH]; intros acc rest Hwf Hok.
  - cbn [length flat_map app DecoderIO.read_entries]. now rewrite app_nil_r.
  - cbn [length flat_map]. rewrite <- app_assoc.
    destruct (Hok k c (or_introl eq_refl)) as [Hk Hc].
    rewrite write_entry_read by assumption. cbn [fst snd].
    assert (Hwf' : StdMap.wf ((acc ++ [(k, c)]) ++ l)) by now rewrite <- app_assoc.
    rewrite set_last.
    + rewrite IH; [now rewrite <- app_assoc|exact Hwf'|].
      intros k' c' Hin. apply Hok. now right.
    + unfold StdMap.wf, StdMap.keys in *. rewrite map_app in Hwf'.
      clear - Hwf'. revert Hwf'.
      generalize (map fst (acc ++ [(k, c)])). intros ks.
      induction ks as [|x ks IHk]; intros Hs; [constructor|].
      cbn [app] in Hs. inversion Hs as [|? ? Hs' Hall]; subst.
      constructor; [now apply IHk|]. apply Forall_app in Hall. tauto.
Qed.

Lemma readHuffmanCodes_written (codes : StdMap.t cstring) (rest : list Z) :
  table_ok codes ->
  DecoderIO.readHuffmanCodes
    (le_bytes 4 (to_uint32 (StdMap.size codes)) ++ flat_map write_entry codes ++ rest)
  = Ok (codes, rest).
Proof.
  intros Hok. pose proof (table_ok_size codes Hok) as Hsize.
  destruct Hok as [Hwf Hkeys Hlens].
  unfold DecoderIO.readHuffmanCodes. rewrite read_scalar_le_bytes. cbn [bind fst snd].
  change (256 ^ Z.of_nat 4) with two32.
  unfold to_uint32. rewrite Z.mod_mod by (unfold two32; lia).
  rewrite Z.mod_small by (unfold two32; lia). rewrite Nat2Z.id.
  unfold StdMap.size.
  rewrite (read_entries_written codes StdMap.empty rest); [reflexivity|exact Hwf|].
  intros k c Hin. split; [apply (Hkeys k c Hin)|apply (Hlens k c Hin)].
Qed.

Lemma read_file_layout (f : EncodedFile) :
  file_ok f -> DecoderIO.read_file (file_layout f) = Ok f.
Proof.
  intros [Hh Hc Hb]. destruct f as [h codes n bytes_].
  cbn [file_header file_codes file_bit_count file_bytes] in *.
  unfold DecoderIO.read_file, file_layout.
  cbn [file_header file_codes file_bit_count file_bytes].
  rewrite (firstn_header h _ Hh), (skipn_header h _ Hh).
  rewrite (header_of_bytes_header_bytes h Hh).
  rewrite (readHuffmanCodes_written codes _ Hc). cbn [bind fst snd].
  rewrite read_scalar_le_bytes. cbn [bind fst snd].
  change (256 ^ Z.of_nat 4) with two32. now rewrite Z.mod_small.
Qed.

(** ** The table the encoder writes fits the file format *)

Lemma paths_length {A : Type} (t : bt A) :
  forall str a c, In (a, c) (paths t str) -> (length c + 1 <= length str + size t)%nat.
Proof.
  induction t as [a0|l IHl r IHr]; intros str a c Hin; cbn [paths size] in *.
  - destruct Hin as [[= _ <-]|[]]. lia.
  - apply in_app_or in Hin. destruct Hin as [Hin|Hin].
    + apply IHl in Hin. rewrite length_app in Hin. cbn [length] in Hin.
      pose proof (size_positive (fun _ => 0) r). lia.
    + apply IHr in Hin. rewrite length_app in Hin. cbn [length] in Hin.
      pose proof (size_positive (fun _ => 0) l). lia.
Qed.

Section EncoderTable.

Variable H : Encoder.HeapAlgorithms.
Hypothesis Hconf : Encoder.conforming H.

(** The tree and the table of a non-empty sequence: one code for every
    value other than -1, shorter than the number of values. *)
Lemma encoder_table (audioData : list Z) :
  audioData <> [] ->
  exists huffmanTree,
    Encoder.buildHuffmanTree H (Encoder.calculateFrequencies audioData) = Ok huffmanTree
    /\ let codes := Encoder.generateCodes huffmanTree [] StdMap.empty in
       StdMap.wf codes
       /\ (forall k, In k (StdMap.keys codes) <-> In k audioData /\ k <> -1)
       /\ (forall k c, In (k, c) codes ->
             (length c < StdMap.size (Encoder.calculateFrequencies audioData))%nat).
Proof.
  intros Hne.
  pose proof (calculateFrequencies_wf audioData) as Hwf.
  assert (Hfne : Encoder.calculateFrequencies audioData <> []).
  { intros E. destruct audioData as [|s l]; [congruence|].
    assert (Hs : In s (StdMap.keys (Encoder.calculateFrequencies (s :: l))))
      by (apply calculateFrequencies_keys; now left).
    rewrite E in Hs. destruct Hs. }
  destruct (buildHuffmanTree_shape H Hconf _ Hfne) as (top & Hbuild & Hp & _).
  destruct (shape_leaves top _ Hp Hwf) as (Hleaf & Hnd & Hkeys).
  exists (join top). split; [exact Hbuild|]. cbv zeta.
  pose proof (codes_wf top Hleaf) as Hcwf.
  split; [exact Hcwf|]. split.
  - intros k. split.
    + intros Hk. apply find_Some_keys in Hk. destruct Hk as [c Hc].
      apply find_In in Hc.
      destruct (codes_In top Hleaf Hnd k c Hc) as (n & Hn & Hs).
      split.
      * apply calculateFrequencies_keys, Hkeys. rewrite <- Hs.
        apply in_map. rewrite <- (paths_fst top []).
        apply (in_map fst) in Hn. exact Hn.
      * intros ->. apply (In_find _ _ _ Hcwf) in Hc.
        rewrite generateCodes_skips_minus_one in Hc. discriminate.
    + intros [Hk Hm]. apply find_Some_keys.
      apply (codes_keys top Hleaf Hnd); [|exact Hm].
      apply Hkeys, calculateFrequencies_keys. exact Hk.
  - intros k c Hc. destruct (codes_In top Hleaf Hnd k c Hc) as (n & Hn & _).
    apply paths_length in Hn. cbn [length] in Hn.
    apply Permutation_length in Hp. rewrite length_map, size_leaves in Hp.
    unfold StdMap.size. lia.
Qed.

End EncoderTable.

(** ** The packed bytes are bytes, and their padding is zero *)

Lemma bitset_assign_nonneg (b : Z) (i : nat) (v : bool) :
  0 <= b -> 0 <= bitset_assign b i v.
Proof.
  intros Hb. unfold bitset_assign. destruct v.
  - unfold Z.setbit. apply Z.lor_nonneg. split; [exact Hb|].
    apply Z.shiftl_nonneg. lia.
  - unfold Z.clearbit. apply Z.ldiff_nonneg. now left.
Qed.

Lemma low_bits_byte (b : Z) :
  0 <= b -> (forall j : nat, (8 <= j)%nat -> bitset_get b j = false) -> is_byte b.
Proof.
  intros Hb Hbits. unfold is_byte. split; [exact Hb|].
  destruct (Z.lt_ge_cases b 256) as [|Hge]; [assumption|exfalso].
  assert (Hlog : 8 <= Z.log2 b).
  { change 8 with (Z.log2 256). apply Z.log2_le_mono. exact Hge. }
  pose proof (Z.bit_log2 b ltac:(lia)) as Hone.
  specialize (Hbits (Z.to_nat (Z.log2 b)) ltac:(lia)).
  unfold bitset_get in Hbits. rewrite Z2Nat.id in Hbits by lia. congruence.
Qed.

Lemma pack_bits_bytes_from (rest : cstring) :
  forall (i : nat) (byte : Z),
    0 <= byte ->
    (forall j : nat, (i mod 8 <= j)%nat -> bitset_get byte j = false) ->
    Forall is_byte (Encoder.pack_bits rest i byte).
Proof.
  induction rest as [|c rest' IH]; intros i byte Hb Hhigh; [constructor|].
  cbn [Encoder.pack_bits].
  assert (Hk8 : (i mod 8 < 8)%nat) by (apply Nat.mod_upper_bound; lia).
  set (byte' := bitset_assign byte (i mod 8) (Ascii.eqb c ch1)).
  assert (Hb' : 0 <= byte') by (apply bitset_assign_nonneg; exact Hb).
  assert (Hhigh' : forall j : nat, (i mod 8 < j)%nat -> bitset_get byte' j = false).
  { intros j Hj. unfold byte'. rewrite bitset_get_assign_other by lia. apply Hhigh. lia. }
  destruct ((i mod 8 =? 7)%nat || match rest' with [] => true | _ :: _ => false end)%bool
    eqn:Hflush.
  - constructor.
    + apply low_bits_byte; [exact Hb'|]. intros j Hj. apply Hhigh'. lia.
    + apply IH; [lia|]. intros j _. apply bitset_get_zero.
  - apply orb_false_iff in Hflush. destruct Hflush as [H7 _]. apply Nat.eqb_neq in H7.
    apply IH; [exact Hb'|]. intros j Hj. apply Hhigh'. lia.
Qed.

Lemma pack_bits_bytes (bits : cstring) : Forall is_byte (Encoder.pack_bits bits 0 0).
Proof.
  apply pack_bits_bytes_from; [lia|]. intros j _. apply bitset_get_zero.
Qed.

Lemma pack_bits_padding_from (rest : cstring) :
  forall (i k : nat) (byte : Z),
    k = (i mod 8)%nat ->
    (forall j : nat, (k <= j)%nat -> bitset_get byte j = false) ->
    forall q : nat, (k + length rest <= q)%nat ->
      bitset_get (nth (q / 8) (Encoder.pack_bits rest i byte) 0) (q mod 8) = false.
Proof.
  induction rest as [|c rest' IH]; intros i k byte Hk Hhigh q Hq.
  - cbn [Encoder.pack_bits]. destruct (q / 8)%nat; apply bitset_get_zero.
  - assert (Hk8 : (k < 8)%nat) by (subst k; apply Nat.mod_upper_bound; lia).
    cbn [Encoder.pack_bits]. replace (i mod 8)%nat with k by assumption.
    set (byte' := bitset_assign byte k (Ascii.eqb c ch1)).
    assert (Hhigh' : forall j : nat, (k < j)%nat -> bitset_get byte' j = false).
    { intros j Hj. unfold byte'. rewrite bitset_get_assign_other by lia. apply Hhigh. lia. }
    cbn [length] in Hq.
    destruct ((k =? 7)%nat || match rest' with [] => true | _ :: _ => false end)%bool
      eqn:Hflush.
    + destruct (q / 8)%nat as [|m] eqn:Hdiv.
      * cbn [nth]. apply Hhigh'. lia.
      * cbn [nth]. apply orb_true_iff in Hflush. destruct Hflush as [H7|Hnil].
        -- apply Nat.eqb_eq in H7.
           replace m with ((q - 8) / 8)%nat by lia.
           replace (q mod 8)%nat with ((q - 8) mod 8)%nat by lia.
           apply (IH (S i) 0%nat 0); [lia| |lia].
           intros j _. apply bitset_get_zero.
        -- destruct rest'; [|discriminate]. cbn [Encoder.pack_bits].
           destruct m; apply bitset_get_zero.
    + apply orb_false_iff in Hflush. destruct Hflush as [H7 _].
      apply Nat.eqb_neq in H7.
      apply (IH (S i) (S k) byte'); [lia| |lia].
      intros j Hj. apply Hhigh'. lia.
Qed.

(** ** The two programs on files *)

Lemma encoder_main_files (H : Encoder.HeapAlgorithms) (input : option (list Z))
      (creatable : bool) :
  EncoderIO.main H 3 input creatable
  = (r <- EncoderIO.readWavFile input ;;
     match r with
     | Exited status => Ok (status, None)
     | Returned (header, audioData) =>
         f <- Encoder.main H header audioData ;;
         if creatable then Ok (0, Some (file_layout f)) else Ok (1, None)
     end).
Proof.
  unfold EncoderIO.main. cbn [Z.eqb Pos.eqb negb].
  destruct (EncoderIO.readWavFile input) as [[[header audioData]|status]| | |];
    cbn [bind]; try reflexivity.
  unfold Encoder.main, EncoderIO.saveEncodedFile.
  destruct (Encoder.buildHuffmanTree H _) as [huffmanTree| | |]; cbn [bind]; try reflexivity.
  destruct (Encoder.encodeAudioData audioData _) as [encodedData| | |];
    cbn [bind]; try reflexivity.
  destruct creatable; reflexivity.
Qed.

Lemma firstn_add (a b : nat) (l : list Z) :
  firstn (a + b) l = firstn a l ++ firstn b (skipn a l).
Proof.
  revert l. induction a as [|a IH]; intros l; [reflexivity|].
  destruct l as [|x l]; [cbn [Nat.add firstn skipn app]; now rewrite firstn_nil|].
  cbn [Nat.add firstn skipn app]. now rewrite IH.
Qed.

Lemma to_uint32_range (n : nat) : 0 <= to_uint32 n < two32.
Proof. unfold to_uint32. apply Z.mod_pos_bound. reflexivity. Qed.

Lemma int16_table_size (audioData : list Z) :
  Forall is_int16 audioData ->
  Z.of_nat (StdMap.size (Encoder.calculateFrequencies audioData)) <= 65536.
Proof.
  intros Hint. unfold StdMap.size.
  rewrite <- (length_map fst (Encoder.calculateFrequencies audioData)).
  change 65536 with (32768 - -32768).
  apply sorted_keys_bound; [apply calculateFrequencies_wf| |lia].
  apply Forall_forall. intros k Hk.
  apply (calculateFrequencies_keys audioData k) in Hk.
  rewrite Forall_forall in Hint. apply (Hint k Hk).
Qed.

Section FileRoundTrip.

Variable H : Encoder.HeapAlgorithms.
Hypothesis Hconf : Encoder.conforming H.
Variable indeterminate : nat -> Z.

(** What the encoder writes for the samples of a WAV file is a file the
    decoder reads back without loss. *)
Lemma encoder_file_ok (header : WavHeader) (audioData : list Z) (f : EncodedFile) :
  header_ok header -> Forall is_int16 audioData ->
  Encoder.main H header audioData = Ok f -> file_ok f.
Proof.
  intros Hh Hint Hmain.
  assert (Hne : audioData <> []).
  { intros ->. unfold Encoder.main in Hmain.
    change (Encoder.calculateFrequencies []) with (@StdMap.empty Z) in Hmain.
    rewrite buildHuffmanTree_empty in Hmain. discriminate. }
  destruct (encoder_table H Hconf audioData Hne) as (t & Hbuild & Hwf & Hkeys & Hlen).
  unfold Encoder.main in Hmain. rewrite Hbuild in Hmain. cbn [bind] in Hmain.
  destruct (Encoder.encodeAudioData audioData _) as [bits| | |]; try discriminate.
  cbn [bind] in Hmain. injection Hmain as <-.
  pose proof (int16_table_size audioData Hint) as Hsize.
  constructor; cbn [file_header file_codes file_bit_count Encoder.saveEncodedFile].
  - exact Hh.
  - constructor.
    + exact Hwf.
    + intros k c Hin. rewrite Forall_forall in Hint. apply Hint.
      apply (Hkeys k). unfold StdMap.keys. apply in_map_iff. now exists (k, c).
    + intros k c Hin. specialize (Hlen k c Hin). unfold two32. lia.
  - apply to_uint32_range.
Qed.

End FileRoundTrip.

Lemma file_layout_bytes (f : EncodedFile) :
  Forall is_byte (file_bytes f) -> Forall is_byte (file_layout f).
Proof.
  intros Hb. unfold file_layout.
  apply Forall_app. split; [apply header_bytes_bytes|].
  apply Forall_app. split; [apply le_bytes_bytes|].
  apply Forall_app. split; [|apply Forall_app; split; [apply le_bytes_bytes|exact Hb]].
  apply Forall_forall. intros b Hin. apply in_flat_map in Hin.
  destruct Hin as ([k c] & _ & Hin). unfold write_entry in Hin. cbn [fst snd] in Hin.
  apply in_app_or in Hin. destruct Hin as [Hin|Hin].
  - pose proof (le_bytes_bytes 2 k) as Hle. rewrite Forall_forall in Hle. now apply Hle.
  - apply in_app_or in Hin. destruct Hin as [Hin|Hin].
    + pose proof (le_bytes_bytes 4 (to_uint32 (length c))) as Hle.
      rewrite Forall_forall in Hle. now apply Hle.
    + apply in_map_iff in Hin. destruct Hin as (x & <- & _). apply byte_of_char_byte.
Qed.

Lemma int16_table_fits (audioData : list Z) :
  Forall is_int16 audioData ->
  (StdMap.size (Encoder.calculateFrequencies audioData) <= 2 ^ 16)%nat.
Proof.
  intros Hint. pose proof (int16_table_size audioData Hint) as Hsize.
  apply Nat2Z.inj_le. rewrite Nat2Z.inj_pow.
  change (Z.of_nat 2 ^ Z.of_nat 16) with 65536. exact Hsize.
Qed.

(** ** The example *)

Lemma example_samples_distinct : two_distinct example_samples.
Proof. exists 0, 1. unfold example_samples. cbn [In]. repeat split; auto. lia. Qed.

Lemma example_samples_no_minus_one : ~ In (-1) example_samples.
Proof.
  unfold example_samples. cbn [In]. intros [E|[E|[E|[E|[E|[E|[]]]]]]]; discriminate.
Qed.

Lemma example_samples_int16 : Forall is_int16 example_samples.
Proof.
  unfold example_samples.
  repeat (apply Forall_cons; [unfold is_int16; lia|]). apply Forall_nil.
Qed.

Lemma example_wav_bytes : Forall is_byte example_wav.
Proof.
  unfold example_wav. apply Forall_app.
  split; [apply header_bytes_bytes|apply sample_bytes_bytes].
Qed.

(** ** A file and what [readWavFile] makes of it *)

Lemma stream_header (stream : list Z) :
  (44 <= length stream)%nat -> Forall is_byte stream ->
  header_ok (header_of_bytes (firstn 44 stream))
  /\ header_bytes (header_of_bytes (firstn 44 stream)) = firstn 44 stream.
Proof.
  intros Hlen Hb.
  assert (H44 : length (firstn 44 stream) = 44%nat) by (rewrite length_firstn; lia).
  split.
  - apply header_of_bytes_ok; [exact H44|now apply firstn_bytes].
  - apply header_bytes_header_of_bytes; [exact H44|now apply firstn_bytes].
Qed.

(** What [readWavFile] returns from a file that holds the data its
    header declares: the declared size is even and the samples are the
    data, two bytes each. *)
Lemma readWavFile_whole (stream : list Z) (header : WavHeader) (audioData : list Z) :
  Forall is_byte stream ->
  EncoderIO.readWavFile (Some stream) = Ok (Returned (header, audioData)) ->
  (44 + Z.to_nat (data_size header) <= length stream)%nat ->
  header_ok header
  /\ Forall is_int16 audioData
  /\ header_bytes header ++ sample_bytes audioData
     = firstn (44 + Z.to_nat (data_size header)) stream.
Proof.
  intros Hb Hread Hlong.
  apply readWavFile_inv in Hread.
  destruct Hread as (stream' & [= <-] & H44 & Hh & _ & _ & Hfit & Ha).
  destruct (stream_header stream H44 Hb) as [Hok Hbytes].
  rewrite <- Hh in Hok, Hbytes.
  set (ds := Z.to_nat (data_size header)) in *.
  set (c := Z.to_nat (data_size header / 2)) in *.
  assert (Hds : ds = (2 * c)%nat).
  { rewrite length_firstn, length_skipn in Hfit. unfold ds, c in *. lia. }
  assert (Hdata : firstn (2 * c) (skipn 44 stream ++ repeat 0 (2 * c))
                  = firstn ds (skipn 44 stream)).
  { rewrite firstn_app, length_skipn.
    replace (2 * c - (length stream - 44))%nat with 0%nat by lia.
    now rewrite firstn_O, app_nil_r, Hds. }
  rewrite Hdata in Ha.
  assert (Hdb : Forall is_byte (firstn ds (skipn 44 stream)))
    by (apply firstn_bytes, skipn_bytes, Hb).
  split; [exact Hok|]. split.
  - rewrite Ha. apply samples_of_int16. exact Hdb.
  - rewrite Hbytes, Ha, sample_bytes_samples_of; [now rewrite firstn_add|exists c|exact Hdb].
    rewrite length_firstn, length_skipn. lia.
Qed.

(** ** [readWavFile]: what is read when the file and its header disagree *)

Lemma samples_of_nth (bs : list Z) :
  forall i : nat, (2 * i + 1 < length bs)%nat ->
    nth i (samples_of bs) 0 = to_int16 (le_value [nth (2 * i) bs 0; nth (2 * i + 1) bs 0]).
Proof.
  revert bs. fix IH 1. intros [|a [|b l]] i Hi; cbn [length] in Hi; try lia.
  destruct i as [|i].
  - reflexivity.
  - cbn [samples_of nth]. rewrite IH by (cbn [length]; lia).
    replace (2 * S i)%nat with (S (S (2 * i))) by lia.
    replace (S (S (2 * i)) + 1)%nat with (S (S (2 * i + 1))) by lia.
    reflexivity.
Qed.

Lemma samples_of_count (bs : list Z) (c : nat) :
  length bs = (2 * c)%nat -> length (samples_of bs) = c.
Proof.
  intros Hlen. pose proof (samples_of_length bs ltac:(exists c; exact Hlen)). lia.
Qed.

Lemma readWavFile_count (file : option (list Z)) (header : WavHeader)
      (audioData : list Z) :
  EncoderIO.readWavFile file = Ok (Returned (header, audioData)) ->
  length audioData = Z.to_nat (data_size header / 2).
Proof.
  intros Hread. apply readWavFile_inv in Hread.
  destruct Hread as (stream & _ & _ & _ & _ & _ & _ & ->).
  apply samples_of_count. rewrite length_firstn, length_app, repeat_length. lia.
Qed.

Lemma nth_zero_padded (data : list Z) (n j : nat) :
  (j < n)%nat -> nth j (firstn n (data ++ repeat 0 n)) 0 = nth j data 0.
Proof.
  intros Hj. rewrite nth_firstn.
  replace (j <? n)%nat with true by (symmetry; apply Nat.ltb_lt; exact Hj).
  destruct (Nat.lt_ge_cases j (length data)) as [Hin|Hout].
  - now rewrite app_nth1.
  - rewrite app_nth2 by exact Hout. rewrite (nth_overflow data) by exact Hout.
    apply nth_repeat.
Qed.

Lemma nth_skipn_add (n j : nat) (l : list Z) : nth j (skipn n l) 0 = nth (n + j) l 0.
Proof.
  revert l. induction n as [|n IH]; intros l; [reflexivity|].
  destruct l as [|x l]; [now destruct j|]. cbn [skipn Nat.add nth]. apply IH.
Qed.

(** X2.  [readWavFile] returns [data_size / 2] samples whatever the file
    holds after the header: sample [i] is made of the bytes 44 + 2i and
    45 + 2i of the file, and a byte the file does not have counts as 0.
    A file shorter than its header declares is padded with silence and
    not reported. *)
Theorem readWavFile_samples :
  forall (file : option (list Z)) (header : WavHeader) (audioData : list Z),
    EncoderIO.readWavFile file = Ok (Returned (header, audioData)) ->
    exists stream,
      file = Some stream
      /\ length audioData = Z.to_nat (data_size header / 2)
      /\ forall i : nat, (i < length audioData)%nat ->
           nth i audioData 0
           = to_int16 (le_value [nth (44 + 2 * i) stream 0;
                                 nth (44 + 2 * i + 1) stream 0]).
Proof.
  intros file header audioData Hread.
  apply readWavFile_inv in Hread.
  destruct Hread as (stream & -> & _ & _ & _ & _ & _ & ->).
  set (c := Z.to_nat (data_size header / 2)).
  assert (Hlen : length (firstn (2 * c) (skipn 44 stream ++ repeat 0 (2 * c))) = (2 * c)%nat).
  { rewrite length_firstn, length_app, repeat_length. lia. }
  exists stream. split; [reflexivity|].
  rewrite (samples_of_count _ c Hlen). split; [reflexivity|].
  intros i Hi. rewrite samples_of_nth by lia.
  rewrite !nth_zero_padded by lia. rewrite !nth_skipn_add.
  now rewrite Nat.add_assoc.
Qed.

Lemma readWavFile_samples_witness :
  EncoderIO.readWavFile (Some (firstn 51 example_wav))
  = Ok (Returned (example_header, [0; 0; 0; 1; 0; 0]))
  /\ exists stream,
       Some (firstn 51 example_wav) = Some stream
       /\ length [0; 0; 0; 1; 0; 0] = Z.to_nat (data_size example_header / 2)
       /\ forall i : nat, (i < length [0; 0; 0; 1; 0; 0])%nat ->
            nth i [0; 0; 0; 1; 0; 0] 0
            = to_int16 (le_value [nth (44 + 2 * i) stream 0;
                                  nth (44 + 2 * i + 1) stream 0]).
Proof.
  assert (Hread : EncoderIO.readWavFile (Some (firstn 51 example_wav))
                  = Ok (Returned (example_header, [0; 0; 0; 1; 0; 0])))
    by (vm_compute; reflexivity).
  split; [exact Hread|].
  exact (readWavFile_samples (Some (firstn 51 example_wav)) example_header
           [0; 0; 0; 1; 0; 0] Hread).
Defined.

(** X3.  When [data_size] is odd and the file holds that many bytes of
    data, [read] is asked for one byte more than the vector of
    [data_size / 2] samples has room for: the last byte is written past
    the end of the vector. *)
Theorem readWavFile_odd_size :
  forall (header : WavHeader) (data : list Z),
    header_ok header ->
    riff header = EncoderIO.RIFF ->
    wave header = EncoderIO.WAVE ->
    Z.odd (data_size header) = true ->
    (Z.to_nat (data_size header) <= length data)%nat ->
    EncoderIO.readWavFile (Some (header_bytes header ++ data)) = Undefined.
Proof.
  intros header data Hok Hriff Hwave Hodd Hdata.
  rewrite (readWavFile_spec header data Hok Hriff Hwave).
  destruct (Nat.ltb_spec (2 * Z.to_nat (data_size header / 2))
              (length (firstn (Z.to_nat (data_size header)) data))) as [|Hfit];
    [reflexivity|exfalso].
  rewrite length_firstn in Hfit.
  pose proof (ok_data_size header Hok) as Hds.
  rewrite Z.odd_spec in Hodd. destruct Hodd as [m Hm]. lia.
Qed.

Lemma example_header_ok : header_ok example_header.
Proof.
  constructor; unfold example_header;
    cbn [riff overall_size wave fmt_chunk_marker length_of_fmt format_type channels
         sample_rate byterate block_align bits_per_sample data_chunk_header data_size];
    first [reflexivity | unfold two32; lia].
Qed.

Lemma with_data_size_ok (h : WavHeader) (n : Z) :
  header_ok h -> 0 <= n < two32 -> header_ok (with_data_size h n).
Proof. intros [] Hn. constructor; assumption. Qed.

Lemma readWavFile_odd_size_witness :
  header_ok (with_data_size example_header 13)
  /\ riff (with_data_size example_header 13) = EncoderIO.RIFF
  /\ wave (with_data_size example_header 13) = EncoderIO.WAVE
  /\ Z.odd (data_size (with_data_size example_header 13)) = true
  /\ (Z.to_nat (data_size (with_data_size example_header 13))
      <= length [1; 0; 2; 0; 3; 0; 4; 0; 5; 0; 6; 0; 7])%nat
  /\ EncoderIO.readWavFile
       (Some (header_bytes (with_data_size example_header 13)
              ++ [1; 0; 2; 0; 3; 0; 4; 0; 5; 0; 6; 0; 7])) = Undefined.
Proof.
  assert (Hok : header_ok (with_data_size example_header 13)).
  { apply with_data_size_ok; [exact example_header_ok|unfold two32; lia]. }
  assert (Hlen : (Z.to_nat (data_size (with_data_size example_header 13))
                  <= length [1; 0; 2; 0; 3; 0; 4; 0; 5; 0; 6; 0; 7])%nat)
    by (vm_compute; lia).
  split; [exact Hok|]. split; [reflexivity|]. split; [reflexivity|].
  split; [reflexivity|]. split; [exact Hlen|].
  exact (readWavFile_odd_size (with_data_size example_header 13)
           [1; 0; 2; 0; 3; 0; 4; 0; 5; 0; 6; 0; 7] Hok eq_refl eq_refl eq_refl Hlen).
Defined.

(** X6.  A file [saveWavFile] wrote is read back by [readWavFile] as the
    same header and samples when the header carries the RIFF and WAVE
    marks and its [data_size] is the size of the samples; whatever
    follows the data in the file is ignored. *)
Theorem saveWavFile_readWavFile :
  forall (header : WavHeader) (audioData written trailing : list Z),
    header_ok header ->
    riff header = EncoderIO.RIFF ->
    wave header = EncoderIO.WAVE ->
    Forall is_int16 audioData ->
    data_size header = 2 * Z.of_nat (length audioData) ->
    DecoderIO.saveWavFile true header audioData = Returned written ->
    EncoderIO.readWavFile (Some (written ++ trailing))
    = Ok (Returned (header, audioData)).
Proof.
  intros header audioData written trailing Hok Hriff Hwave Hint Hsize [= <-].
  rewrite <- app_assoc, (readWavFile_spec header _ Hok Hriff Hwave).
  assert (Hc : (2 * Z.to_nat (data_size header / 2))%nat = length (sample_bytes audioData)).
  { rewrite sample_bytes_length, Hsize. lia. }
  assert (Hn : Z.to_nat (data_size header) = length (sample_bytes audioData)).
  { rewrite sample_bytes_length, Hsize. lia. }
  rewrite Hc, Hn.
  rewrite firstn_app, Nat.sub_diag, firstn_O, app_nil_r, firstn_all.
  destruct (Nat.ltb_spec (length (sample_bytes audioData)) (length (sample_bytes audioData)));
    [lia|].
  rewrite <- app_assoc, firstn_app, Nat.sub_diag, firstn_O, app_nil_r, firstn_all.
  now rewrite samples_of_sample_bytes.
Qed.

Lemma saveWavFile_readWavFile_witness :
  header_ok example_header
  /\ riff example_header = EncoderIO.RIFF
  /\ wave example_header = EncoderIO.WAVE
  /\ Forall is_int16 example_samples
  /\ data_size example_header = 2 * Z.of_nat (length example_samples)
  /\ DecoderIO.saveWavFile true example_header example_samples = Returned example_wav
  /\ EncoderIO.readWavFile (Some (example_wav ++ [76; 73; 83; 84]))
     = Ok (Returned (example_header, example_samples)).
Proof.
  split; [exact example_header_ok|]. split; [reflexivity|]. split; [reflexivity|].
  split; [exact example_samples_int16|]. split; [reflexivity|]. split; [reflexivity|].
  exact (saveWavFile_readWavFile example_header example_samples example_wav
           [76; 73; 83; 84] example_header_ok eq_refl eq_refl example_samples_int16
           eq_refl eq_refl).
Defined.

(** ** The encoded file: what [saveEncodedFile] writes, [main] of the decoder reads *)

(** X16.  The decoder reads back what [saveEncodedFile] laid out:
    [readHuffmanCodes], started behind the header, returns the code table
    and stops in front of the bit count, and [main] is left with the
    header, the table, the bit count and the packed bytes.  This holds
    for every table whose keys are [int16_t] values and whose codes are
    shorter than 2^32 characters. *)
Theorem encoded_file_read_back :
  forall f : EncodedFile,
    file_ok f ->
    DecoderIO.readHuffmanCodes (skipn 44 (file_layout f))
    = Ok (file_codes f, le_bytes 4 (file_bit_count f) ++ file_bytes f)
    /\ DecoderIO.read_file (file_layout f) = Ok f.
Proof.
  intros f Hok. split; [|exact (read_file_layout f Hok)].
  destruct Hok as [Hh Hc _]. unfold file_layout.
  rewrite (skipn_header _ _ Hh). apply (readHuffmanCodes_written _ _ Hc).
Qed.

Lemma example_table_ok : table_ok example_table.
Proof.
  constructor.
  - unfold StdMap.wf, example_table. cbn [StdMap.keys map fst].
    repeat (apply SSorted_cons || apply SSorted_nil || apply Forall_cons
            || apply Forall_nil || lia).
  - intros k c [[= <- <-]|[[= <- <-]|[[= <- <-]|[]]]]; unfold is_int16; lia.
  - intros k c [[= <- <-]|[[= <- <-]|[[= <- <-]|[]]]]; cbn [length]; unfold two32; lia.
Qed.

Lemma example_file_ok : file_ok example_file.
Proof.
  constructor; cbn [example_file file_header file_codes file_bit_count].
  - exact example_header_ok.
  - exact example_table_ok.
  - unfold two32. lia.
Qed.

Lemma encoded_file_read_back_witness :
  file_ok example_file
  /\ DecoderIO.readHuffmanCodes (skipn 44 (file_layout example_file))
     = Ok (file_codes example_file,
           le_bytes 4 (file_bit_count example_file) ++ file_bytes example_file)
  /\ DecoderIO.read_file (file_layout example_file) = Ok example_file.
Proof.
  split; [exact example_file_ok|].
  exact (encoded_file_read_back example_file example_file_ok).
Defined.

(** ** A truncated encoded file *)

Lemma read_scalar_cut (n : nat) (v : Z) (rest : list Z) (m : nat) :
  read_scalar n (firstn m (le_bytes n v ++ rest))
  = if (m <? n)%nat then Undefined
    else Ok (v mod 256 ^ Z.of_nat n, firstn (m - n) rest).
Proof.
  destruct (Nat.ltb_spec m n) as [Hlt|Hge].
  - unfold read_scalar, filled.
    destruct (Nat.ltb_spec (length (firstn m (le_bytes n v ++ rest))) n) as [|Hlen];
      [reflexivity|].
    rewrite length_firstn in Hlen. lia.
  - rewrite firstn_app, le_bytes_length.
    rewrite (firstn_all2 (le_bytes n v)) by (rewrite le_bytes_length; lia).
    apply read_scalar_le_bytes.
Qed.

Lemma read_into_cut (filler : Z) (written rest : list Z) (m : nat) :
  exists buffer,
    read_into (repeat filler (length written)) (length written)
              (firstn m (written ++ rest))
    = Ok (buffer, firstn (m - length written) rest).
Proof.
  unfold read_into. rewrite repeat_length.
  match goal with |- context [(?a <? ?b)%nat] => destruct (Nat.ltb_spec a b) as [Hlt|_] end.
  - rewrite length_firstn in Hlt. lia.
  - eexists. f_equal. f_equal.
    rewrite skipn_firstn_comm, skipn_app, skipn_all, Nat.sub_diag. reflexivity.
Qed.

Lemma write_entry_eq (k : Z) (c : cstring) :
  Z.of_nat (length c) < two32 ->
  write_entry (k, c)
  = le_bytes 2 k ++ le_bytes 4 (Z.of_nat (length c)) ++ map byte_of_char c.
Proof.
  intros Hc. unfold write_entry. cbn [fst snd].
  assert (Hu : to_uint32 (length c) = Z.of_nat (length c))
    by (unfold to_uint32; apply Z.mod_small; lia).
  now rewrite Hu, Nat2Z.id, firstn_all.
Qed.

Lemma read_entries_cut (l : list (Z * cstring)) :
  forall (acc : StdMap.t cstring) (tail : list Z) (m : nat),
    (forall k c, In (k, c) l -> Z.of_nat (length c) < two32) ->
    (m < length (flat_map write_entry l) + 4)%nat ->
    DecoderIO.read_entries (length l) (firstn m (flat_map write_entry l ++ tail)) acc
    = Undefined
    \/ exists r,
         DecoderIO.read_entries (length l) (firstn m (flat_map write_entry l ++ tail)) acc
         = Ok r
         /\ read_scalar 4 (snd r) = Undefined.
Proof.
  induction l as [|[k c] l IH]; intros acc tail m Hok Hm.
  - right. cbn [length flat_map app DecoderIO.read_entries] in *.
    eexists. split; [reflexivity|]. cbn [snd]. unfold read_scalar, filled.
    destruct (Nat.ltb_spec (length (firstn m tail)) 4) as [|Hlen]; [reflexivity|].
    rewrite length_firstn in Hlen. lia.
  - cbn [length flat_map] in *. rewrite <- app_assoc.
    rewrite length_app in Hm.
    assert (Hc : Z.of_nat (length c) < two32) by (apply (Hok k c); now left).
    rewrite (write_entry_eq k c Hc) in *.
    rewrite !length_app, !le_bytes_length, length_map in Hm.
    rewrite <- !app_assoc. cbn [DecoderIO.read_entries].
    rewrite read_scalar_cut.
    destruct (Nat.ltb_spec m 2) as [|H2]; [now left|]. cbn [bind fst snd].
    rewrite read_scalar_cut.
    destruct (Nat.ltb_spec (m - 2) 4) as [|H6]; [now left|]. cbn [bind fst snd].
    change (256 ^ Z.of_nat 4) with two32. rewrite (Z.mod_small (Z.of_nat (length c))) by lia.
    rewrite Nat2Z.id.
    destruct (read_into_cut (byte_of_char ch0) (map byte_of_char c)
                (flat_map write_entry l ++ tail) (m - 2 - 4)) as [buffer Hread].
    rewrite length_map in Hread. rewrite Hread. cbn [bind fst snd].
    apply IH; [|lia]. intros k' c' Hin. apply (Hok k' c'). now right.
Qed.

(** X17.  The decoder does not notice a truncated file.  When the file
    ends before the packed bytes begin (inside the header, the code
    table or the bit count), [read] leaves an integer the decoder reads
    into uninitialised, and the decoder goes on with that indeterminate
    value: no error is reported. *)
Theorem truncated_file_undefined :
  forall (indeterminate : nat -> Z) (f : EncodedFile) (n : nat) (creatable : bool),
    file_ok f ->
    (n < length (file_layout f) - length (file_bytes f))%nat ->
    DecoderIO.main indeterminate 3 (Some (firstn n (file_layout f))) creatable
    = Undefined.
Proof.
  intros indeterminate f n creatable [Hh Hc Hb] Hn.
  pose proof (table_ok_size _ Hc) as Hsize. destruct Hc as [Hwf Hkeys Hlens].
  destruct f as [h codes bit_count bytes_].
  cbn [file_header file_codes file_bit_count file_bytes] in *.
  unfold file_layout in *. cbn [file_header file_codes file_bit_count file_bytes] in *.
  rewrite !length_app, (header_bytes_length h Hh), !le_bytes_length in Hn.
  unfold DecoderIO.main. cbn [Z.eqb Pos.eqb negb].
  enough (Hread : DecoderIO.read_file
                    (firstn n (header_bytes h
                               ++ le_bytes 4 (to_uint32 (StdMap.size codes))
                               ++ flat_map write_entry codes
                               ++ le_bytes 4 bit_count ++ bytes_)) = Undefined)
    by now rewrite Hread.
  unfold DecoderIO.read_file, DecoderIO.readHuffmanCodes.
  rewrite skipn_firstn_comm, (skipn_header h _ Hh), read_scalar_cut.
  destruct (Nat.ltb_spec (n - 44) 4) as [|H48]; [reflexivity|]. cbn [bind fst snd].
  change (256 ^ Z.of_nat 4) with two32.
  unfold to_uint32. rewrite Z.mod_mod by (unfold two32; lia).
  rewrite Z.mod_small by (unfold two32; lia). rewrite Nat2Z.id. unfold StdMap.size.
  destruct (read_entries_cut codes StdMap.empty (le_bytes 4 bit_count ++ bytes_)
              (n - 44 - 4) Hlens ltac:(lia)) as [Hcut|(r & Hcut & Hnext)];
    rewrite Hcut; [reflexivity|].
  cbn [bind]. now rewrite Hnext.
Qed.

(** ** The decoder on any payload *)

Lemma bit_char_bit (byte : Z) (j : nat) : is_bit (bit_char byte j).
Proof. unfold bit_char, is_bit. destruct (bitset_get byte j); auto. Qed.

Lemma push_bits_bits (count : nat) (byte : Z) (j n : nat) (acc : cstring) :
  bit_string acc -> bit_string (Decoder.push_bits byte j count n acc).
Proof.
  intros Hacc. rewrite push_bits_eq. apply Forall_app. split; [exact Hacc|].
  assert (Hall : bit_string (map (bit_char byte) (seq j count))).
  { apply Forall_forall. intros c Hc.
    apply in_map_iff in Hc. destruct Hc as (i & <- & _). apply bit_char_bit. }
  unfold bit_string in *.
  rewrite <- (firstn_skipn (n - length acc)) in Hall. apply Forall_app in Hall. tauto.
Qed.

Lemma read_bytes_bits (indeterminate : nat -> Z) (remaining : nat) :
  forall (i : nat) (file : list Z) (n : nat) (acc : cstring),
    bit_string acc -> bit_string (Decoder.read_bytes indeterminate remaining i file n acc).
Proof.
  induction remaining as [|remaining IH]; intros i file n acc Hacc; [exact Hacc|].
  cbn [Decoder.read_bytes]. apply IH. now apply push_bits_bits.
Qed.

Lemma readEncodedData_bits (indeterminate : nat -> Z) (file : list Z) (n : nat) :
  bit_string (Decoder.readEncodedData indeterminate file n).
Proof. apply read_bytes_bits. constructor. Qed.

Lemma paths_inhabited {A : Type} (t : bt A) :
  forall str, exists a q, In (a, str ++ q) (paths t str).
Proof.
  induction t as [a|l IHl r _]; intros str.
  - exists a, []. rewrite app_nil_r. now left.
  - destruct (IHl (str ++ [ch0])) as (a & q & Hin).
    exists a, (ch0 :: q). cbn [paths]. apply in_or_app. left.
    now rewrite <- app_assoc in Hin.
Qed.

Lemma app_first_char (str : cstring) (x y : ascii) (u v : cstring) :
  is_prefix (str ++ [x]) (str ++ y :: v) -> x = y.
Proof.
  intros [d Hd]. rewrite <- app_assoc in Hd. apply app_inv_head in Hd.
  now injection Hd.
Qed.

(** The codes of a tree leave no gap. *)
Lemma paths_complete {A : Type} (t : bt A) :
  forall str a p b q,
    In (a, str ++ p ++ b :: q) (paths t str) ->
    forall b', is_bit b' -> exists a' q', In (a', str ++ p ++ b' :: q') (paths t str).
Proof.
  induction t as [a0|l IHl r IHr]; intros str a p b q Hin b' Hb'.
  - destruct Hin as [[= _ Hstr]|[]]. exfalso.
    apply (f_equal (@length ascii)) in Hstr.
    rewrite !length_app in Hstr. cbn [length] in Hstr. lia.
  - cbn [paths] in *. apply in_app_or in Hin.
    assert (Hside : forall (side : bt A) (x : ascii),
              In (a, str ++ p ++ b :: q) (paths side (str ++ [x])) ->
              (forall str0 a0 p0 b0 q0,
                 In (a0, str0 ++ p0 ++ b0 :: q0) (paths side str0) ->
                 forall b1, is_bit b1 ->
                   exists a1 q1, In (a1, str0 ++ p0 ++ b1 :: q1) (paths side str0)) ->
              (p = [] /\ b = x)
              \/ exists p', p = x :: p'
                   /\ forall b1, is_bit b1 ->
                        exists a1 q1,
                          In (a1, str ++ p ++ b1 :: q1) (paths side (str ++ [x]))).
    { intros side x Hs IH. pose proof (paths_extend side _ _ _ Hs) as Hpre.
      destruct p as [|y p'].
      - left. split; [reflexivity|]. symmetry. apply (app_first_char str x b [] q Hpre).
      - right. assert (x = y) by apply (app_first_char str x y [] (p' ++ b :: q) Hpre).
        subst y. exists p'. split; [reflexivity|]. intros b1 Hb1.
        assert (E : forall tl, str ++ (x :: p') ++ tl = (str ++ [x]) ++ p' ++ tl)
          by (intros tl; now rewrite <- app_assoc).
        rewrite E in Hs.
        destruct (IH _ _ _ _ _ Hs b1 Hb1) as (a1 & q1 & H1).
        exists a1, q1. now rewrite E. }
    assert (Hother : forall (side : bt A) (x : ascii),
              exists a1 q1, In (a1, str ++ [] ++ x :: q1) (paths side (str ++ [x]))).
    { intros side x. destruct (paths_inhabited side (str ++ [x])) as (a1 & q1 & H1).
      exists a1, q1. cbn [app]. now rewrite <- app_assoc in H1. }
    destruct Hin as [Hin|Hin].
    + destruct (Hside l ch0 Hin IHl) as [[-> ->]|(p' & -> & Hall)].
      * destruct Hb' as [->| ->].
        -- destruct (Hother l ch0) as (a1 & q1 & H1). exists a1, q1.
           apply in_or_app. now left.
        -- destruct (Hother r ch1) as (a1 & q1 & H1). exists a1, q1.
           apply in_or_app. now right.
      * destruct (Hall b' Hb') as (a1 & q1 & H1). exists a1, q1.
        apply in_or_app. now left.
    + destruct (Hside r ch1 Hin IHr) as [[-> ->]|(p' & -> & Hall)].
      * destruct Hb' as [->| ->].
        -- destruct (Hother l ch0) as (a1 & q1 & H1). exists a1, q1.
           apply in_or_app. now left.
        -- destruct (Hother r ch1) as (a1 & q1 & H1). exists a1, q1.
           apply in_or_app. now right.
      * destruct (Hall b' Hb') as (a1 & q1 & H1). exists a1, q1.
        apply in_or_app. now right.
Qed.

Section CompleteTable.

Variable codes : StdMap.t cstring.
Hypothesis Hvalid : valid_table codes.
Hypothesis Hcomplete : complete_table codes.

Let D := Decoder.buildHuffmanTree codes.

(** From a node inside the tree any bit string is walked without a
    missing child, and only samples of the table are emitted. *)
Lemma walk_total (bits : cstring) :
  bit_string bits ->
  forall (p : cstring) (audioData : list Z),
    (exists k q, q <> [] /\ In (k, p ++ q) codes) ->
    (forall s, In s audioData -> In s (StdMap.keys codes)) ->
    exists emitted node,
      Decoder.decode_walk D (subtree p D) bits audioData = Ok (emitted, node)
      /\ forall s, In s emitted -> In s (StdMap.keys codes).
Proof.
  induction 1 as [|b bits Hb _ IH]; intros p audioData Hp Hacc.
  - exists audioData, (subtree p D). split; [reflexivity|exact Hacc].
  - destruct Hp as (k & q & Hq & Hin).
    destruct q as [|b0 q]; [congruence|].
    destruct (Hcomplete k p b0 q Hin b Hb) as (k' & q' & Hin').
    destruct (table_inner codes Hvalid k' p b q' Hin') as (s & l & r & Hnode & Hnext & Hnn).
    fold D in Hnode, Hnext, Hnn.
    cbn [Decoder.decode_walk]. rewrite Hnode, Hnext.
    destruct q' as [|b2 q2].
    + pose proof (table_leaf codes Hvalid k' (p ++ [b]) Hin') as Hl. fold D in Hl.
      rewrite Hl. cbn [Decoder.is_leaf].
      apply (IH []).
      * exists k, (p ++ b0 :: q). split; [|exact Hin].
        intros E. apply app_eq_nil in E. destruct E as [_ E]. discriminate.
      * intros s0 Hs0. apply in_app_or in Hs0. destruct Hs0 as [Hs0|[<-|[]]].
        -- now apply Hacc.
        -- unfold StdMap.keys. apply in_map_iff. now exists (k', p ++ [b]).
    + assert (Hin2 : In (k', (p ++ [b]) ++ b2 :: q2) codes)
        by now rewrite <- app_assoc.
      destruct (table_inner codes Hvalid k' (p ++ [b]) b2 q2 Hin2)
        as (s2 & l2 & r2 & Hnode2 & Hnext2 & Hnn2).
      fold D in Hnode2, Hnext2, Hnn2. rewrite Hnode2.
      assert (Hleaf : Decoder.is_leaf (Decoder.Node s2 l2 r2) = false).
      { cbn [Decoder.is_leaf]. destruct (Ascii.eqb b2 ch0).
        - destruct l2; [congruence|reflexivity].
        - destruct l2; [|reflexivity]. destruct r2; [congruence|reflexivity]. }
      rewrite Hleaf, <- Hnode2.
      apply IH; [|exact Hacc].
      exists k', (b2 :: q2). split; [discriminate|exact Hin2].
Qed.

Lemma complete_table_inhabited : codes <> [] -> exists k q, q <> [] /\ In (k, [] ++ q) codes.
Proof.
  intros Hne.
  assert (Hex : exists k c, In (k, c) codes).
  { clear - Hne. revert Hne. generalize codes.
    intros [|[k c] rest] Hne; [congruence|]. exists k, c. now left. }
  destruct Hex as (k & c & Hin). exists k, c. split; [|exact Hin].
  apply (vt_nonempty _ Hvalid k c Hin).
Qed.

Lemma decodeAudioData_total (bits : cstring) :
  codes <> [] -> bit_string bits ->
  exists samples,
    Decoder.decodeAudioData bits D = Ok samples
    /\ forall s, In s samples -> In s (StdMap.keys codes).
Proof.
  intros Hne Hbits.
  destruct (walk_total bits Hbits [] [] (complete_table_inhabited Hne))
    as (emitted & node & Hwalk & Hkeys); [intros s []|].
  cbn [subtree] in Hwalk. exists emitted. split; [|exact Hkeys].
  unfold Decoder.decodeAudioData. now rewrite Hwalk.
Qed.

End CompleteTable.

Section EncoderTableComplete.

Variable H : Encoder.HeapAlgorithms.
Hypothesis Hconf : Encoder.conforming H.

(** The table of a sequence with two values or more and no -1: a prefix
    code without gaps, with a code for every value. *)
Lemma encoder_table_complete (header : WavHeader) (audioData : list Z) (f : EncodedFile) :
  two_distinct audioData -> ~ In (-1) audioData ->
  Encoder.main H header audioData = Ok f ->
  file_header f = header
  /\ valid_table (file_codes f)
  /\ complete_table (file_codes f)
  /\ file_codes f <> []
  /\ forall k, In k (StdMap.keys (file_codes f)) -> In k audioData.
Proof.
  intros Htwo Hminus Hmain.
  pose proof (two_distinct_table audioData Htwo) as Hlen.
  pose proof (calculateFrequencies_wf audioData) as Hwf.
  set (frequencies := Encoder.calculateFrequencies audioData) in *.
  destruct (buildHuffmanTree_shape H Hconf frequencies) as (top & Hbuild & Hp & _).
  { intros E. rewrite E in Hlen. cbn [length] in Hlen. lia. }
  destruct (shape_leaves top frequencies Hp Hwf) as (Hleaf & Hnd & Hkeys).
  assert (Hlen' : (2 <= length (leaves top))%nat).
  { apply Permutation_length in Hp. rewrite length_map in Hp. rewrite Hp. exact Hlen. }
  unfold Encoder.main in Hmain. fold frequencies in Hmain. rewrite Hbuild in Hmain.
  cbn [bind] in Hmain.
  set (codes := Encoder.generateCodes (join top) [] StdMap.empty) in *.
  destruct (Encoder.encodeAudioData audioData codes) as [bits| | |]; try discriminate.
  cbn [bind] in Hmain. injection Hmain as <-.
  cbn [Encoder.saveEncodedFile file_header file_codes].
  pose proof (codes_valid top Hleaf Hnd Hlen') as Hvalid. fold codes in Hvalid.
  assert (Hsample : forall n, In n (leaves top) -> sample_field n <> -1).
  { intros n Hn E. apply Hminus. apply calculateFrequencies_keys. fold frequencies.
    apply Hkeys. rewrite <- E. now apply in_map. }
  split; [reflexivity|]. split; [exact Hvalid|]. split; [|split].
  - intros k p b q Hin b' Hb'.
    destruct (codes_In top Hleaf Hnd k _ Hin) as (n & Hn & Hk).
    destruct (paths_complete top [] n p b q Hn b' Hb') as (n' & q' & Hn').
    cbn [app] in Hn'. exists (sample_field n'), q'.
    apply find_In. apply (codes_of_leaf top Hleaf Hnd n' _ Hn').
    apply Hsample. rewrite <- (paths_fst top []). apply (in_map fst) in Hn'. exact Hn'.
  - destruct top as [n|l r]; [cbn [leaves length] in Hlen'; lia|].
    destruct (paths_inhabited (Br l r) []) as (n & q & Hn). cbn [app] in Hn.
    assert (Hfind : StdMap.find (sample_field n) codes = Some q).
    { apply (codes_of_leaf (Br l r) Hleaf Hnd n q Hn).
      apply Hsample. rewrite <- (paths_fst (Br l r) []). apply (in_map fst) in Hn. exact Hn. }
    intros E. rewrite E in Hfind. discriminate.
  - intros k Hk. apply find_Some_keys in Hk. destruct Hk as [c Hc]. apply find_In in Hc.
    destruct (codes_In top Hleaf Hnd k c Hc) as (n & Hn & <-).
    apply calculateFrequencies_keys. fold frequencies. apply Hkeys.
    apply in_map. rewrite <- (paths_fst top []). apply (in_map fst) in Hn. exact Hn.
Qed.

End EncoderTableComplete.

(** X21.  With the table the encoder wrote for a sequence of two values
    or more, the decoder completes on any bit count and any packed
    bytes: the tree it rebuilds has both children at every inner node,
    so no bit leads to a missing child, and every sample it returns is a
    sample of the encoded sequence.  (A stream that ends inside a code
    loses the unfinished code, as for a valid file.) *)
Theorem decoder_total_on_encoder_table :
  forall (H : Encoder.HeapAlgorithms) (indeterminate : nat -> Z)
         (header : WavHeader) (audioData : list Z) (f : EncodedFile)
         (bit_count : Z) (payload : list Z),
    Encoder.conforming H ->
    two_distinct audioData ->
    ~ In (-1) audioData ->
    Encoder.main H header audioData = Ok f ->
    exists samples,
      Decoder.main indeterminate
        {| file_header := file_header f;
           file_codes := file_codes f;
           file_bit_count := bit_count;
           file_bytes := payload |}
      = Ok (header, samples)
      /\ forall s, In s samples -> In s audioData.
Proof.
  intros H indeterminate header audioData f bit_count payload Hconf Htwo Hminus Hmain.
  destruct (encoder_table_complete H Hconf header audioData f Htwo Hminus Hmain)
    as (Hh & Hvalid & Hcomplete & Hne & Hkeys).
  unfold Decoder.main. cbn [file_header file_codes file_bit_count file_bytes].
  destruct (decodeAudioData_total (file_codes f) Hvalid Hcomplete
              (Decoder.readEncodedData indeterminate payload (Z.to_nat bit_count))
              Hne (readEncodedData_bits _ _ _)) as (samples & Hdec & Hin).
  exists samples. rewrite Hdec, Hh. cbn [bind]. split; [reflexivity|].
  intros s Hs. apply Hkeys, Hin, Hs.
Qed.

Lemma decoder_total_on_encoder_table_witness :
  Encoder.conforming sorted_queue
  /\ two_distinct example_samples
  /\ ~ In (-1) example_samples
  /\ Encoder.main sorted_queue example_header example_samples = Ok example_file
  /\ exists samples,
       Decoder.main (fun _ => 255)
         {| file_header := file_header example_file;
            file_codes := file_codes example_file;
            file_bit_count := 100;
            file_bytes := [77; 1] |}
       = Ok (example_header, samples)
       /\ forall s, In s samples -> In s example_samples.
Proof.
  assert (Hmain : Encoder.main sorted_queue example_header example_samples
                  = Ok example_file) by (vm_compute; reflexivity).
  split; [exact sorted_queue_conforming|]. split; [exact example_samples_distinct|].
  split; [exact example_samples_no_minus_one|]. split; [exact Hmain|].
  exact (decoder_total_on_encoder_table sorted_queue (fun _ => 255) example_header
           example_samples example_file 100 [77; 1] sorted_queue_conforming
           example_samples_distinct example_samples_no_minus_one Hmain).
Defined.

(** ** The decoder on a table with a gap *)

Lemma decode_walk_app (root : Decoder.HuffmanNode) (a : cstring) :
  forall (b : cstring) (node : Decoder.HuffmanNode) (audioData : list Z),
    Decoder.decode_walk root node (a ++ b) audioData
    = (r <- Decoder.decode_walk root node a audioData ;;
       Decoder.decode_walk root (snd r) b (fst r)).
Proof.
  induction a as [|x a IH]; intros b node audioData; [reflexivity|].
  cbn [app Decoder.decode_walk].
  destruct node as [|s l r]; [reflexivity|].
  destruct (if Ascii.eqb x ch0 then l else r) as [|s' l' r']; [reflexivity|].
  destruct (Decoder.is_leaf (Decoder.Node s' l' r')); apply IH.
Qed.

(** X22.  The decoder follows a missing child when the stream leaves the
    table: after any number of whole codes, the bits [p] of the way to
    some code followed by a bit [b] that no code has after [p] lead to a
    null pointer, whose members the next step reads.  The table of a
    file is not checked for such gaps. *)
Theorem decoder_follows_missing_child :
  forall (codes : StdMap.t cstring) (samples : list Z) (bits : cstring)
         (k : Z) (p : cstring) (b0 : ascii) (q : cstring) (b : ascii) (rest : cstring),
    valid_table codes ->
    spells codes samples bits ->
    In (k, p ++ b0 :: q) codes ->
    is_bit b ->
    (forall k' c', In (k', c') codes -> ~ is_prefix (p ++ [b]) c') ->
    Decoder.decodeAudioData (bits ++ p ++ b :: rest) (Decoder.buildHuffmanTree codes)
    = Undefined.
Proof.
  intros codes samples bits k p b0 q b rest Hvalid Hsp Hin Hb Hgap.
  set (D := Decoder.buildHuffmanTree codes).
  assert (Hbits : forall k' c', In (k', c') codes -> bit_string c')
    by apply (vt_bits _ Hvalid).
  assert (Hp : bit_string (p ++ [b])).
  { apply Forall_app. split; [|constructor; [exact Hb|constructor]].
    pose proof (Hbits _ _ Hin) as Hc. apply Forall_app in Hc. tauto. }
  assert (Hnull : subtree (p ++ [b]) D = Decoder.nullptr).
  { destruct (subtree (p ++ [b]) D) as [|s l r] eqn:E; [reflexivity|exfalso].
    assert (Hnn : subtree (p ++ [b]) D <> Decoder.nullptr) by (rewrite E; discriminate).
    unfold D in Hnn. rewrite buildHuffmanTree_insert_all in Hnn.
    apply insert_all_dom in Hnn; [|discriminate|exact Hbits|exact Hp].
    destruct Hnn as [Hnew|(k' & c' & Hin' & Hpre)].
    - apply Hnew. apply subtree_new_node. intros E'. apply app_eq_nil in E'.
      destruct E' as [_ E']. discriminate.
    - apply (Hgap k' c' Hin' Hpre). }
  destruct (table_inner codes Hvalid k p b0 q Hin) as (s & l & r & Hnode & _ & _).
  fold D in Hnode.
  unfold Decoder.decodeAudioData. fold D.
  pose proof (walk_spells codes Hvalid samples bits Hsp (p ++ b :: rest) []) as Hw.
  fold D in Hw. rewrite Hw.
  rewrite decode_walk_app.
  pose proof (walk_inside codes Hvalid k p [] (b0 :: q) ([] ++ samples) Hin
                ltac:(discriminate)) as Hwalk.
  fold D in Hwalk. cbn [subtree app] in Hwalk. cbn [app]. rewrite Hwalk.
  cbn [bind fst snd]. rewrite Hnode. cbn [Decoder.decode_walk].
  rewrite subtree_app, Hnode in Hnull. cbn [subtree] in Hnull. now rewrite Hnull.
Qed.

Lemma gap_table_valid : valid_table gap_table.
Proof.
  constructor.
  - repeat constructor.
  - intros k c [E|[E|[]]]; injection E as <- <-;
      repeat constructor; (left; reflexivity) || (right; reflexivity).
  - intros k c [E|[E|[]]]; injection E as <- <-; discriminate.
  - intros k1 c1 k2 c2 [E1|[E1|[]]] [E2|[E2|[]]] Hne [d Hd];
      injection E1 as <- <-; injection E2 as <- <-;
      try congruence; discriminate.
Qed.

Lemma decoder_follows_missing_child_witness :
  valid_table gap_table
  /\ spells gap_table [0] ([ch0] ++ [])
  /\ In (1, [ch1] ++ ch0 :: []) gap_table
  /\ is_bit ch1
  /\ (forall k' c', In (k', c') gap_table -> ~ is_prefix ([ch1] ++ [ch1]) c')
  /\ Decoder.decodeAudioData (([ch0] ++ []) ++ [ch1] ++ ch1 :: [ch0])
       (Decoder.buildHuffmanTree gap_table) = Undefined.
Proof.
  assert (Hsp : spells gap_table [0] ([ch0] ++ [])).
  { apply spells_cons; [cbn [In gap_table]; auto|]. apply spells_nil. }
  assert (Hin : In (1, [ch1] ++ ch0 :: []) gap_table) by (cbn [In gap_table app]; auto).
  assert (Hb : is_bit ch1) by (right; reflexivity).
  assert (Hgap : forall k' c', In (k', c') gap_table -> ~ is_prefix ([ch1] ++ [ch1]) c').
  { intros k' c' [E|[E|[]]] [d Hd]; injection E as <- <-; discriminate. }
  split; [exact gap_table_valid|]. split; [exact Hsp|]. split; [exact Hin|].
  split; [exact Hb|]. split; [exact Hgap|].
  exact (decoder_follows_missing_child gap_table [0] ([ch0] ++ []) 1 [ch1] ch0 []
           ch1 [ch0] gap_table_valid Hsp Hin Hb Hgap).
Defined.

(** ** [calculateFrequencies] counts *)

Lemma count_samples_get (audioData : list Z) :
  forall (m : StdMap.t Z) (k : Z),
    StdMap.get_or 0 k (fold_left Encoder.count_sample audioData m)
    = StdMap.get_or 0 k m + Z.of_nat (count_occ Z.eq_dec audioData k).
Proof.
  induction audioData as [|s l IH]; intros m k; [cbn [fold_left count_occ]; lia|].
  cbn [fold_left count_occ]. rewrite IH. unfold Encoder.count_sample.
  destruct (Z.eq_dec s k) as [->|Hne].
  - unfold StdMap.get_or at 1. rewrite find_set_same. lia.
  - unfold StdMap.get_or at 1. rewrite find_set_other by congruence.
    fold (StdMap.get_or 0 k m). lia.
Qed.

(** X7.  [calculateFrequencies] binds every value of the sequence to the
    number of its occurrences, and binds no other value. *)
Theorem calculateFrequencies_counts :
  forall (audioData : list Z) (sample : Z),
    StdMap.find sample (Encoder.calculateFrequencies audioData)
    = if (count_occ Z.eq_dec audioData sample =? 0)%nat then None
      else Some (Z.of_nat (count_occ Z.eq_dec audioData sample)).
Proof.
  intros audioData sample.
  pose proof (count_samples_get audioData StdMap.empty sample) as Hget.
  fold (Encoder.calculateFrequencies audioData) in Hget.
  unfold StdMap.get_or in Hget. cbn [StdMap.find StdMap.empty] in Hget.
  destruct (Nat.eqb_spec (count_occ Z.eq_dec audioData sample) 0) as [Hzero|Hpos].
  - apply find_None_keys. rewrite calculateFrequencies_keys.
    now apply count_occ_not_In in Hzero.
  - destruct (StdMap.find sample (Encoder.calculateFrequencies audioData)) as [v|] eqn:E.
    + f_equal. lia.
    + apply find_None_keys in E. rewrite calculateFrequencies_keys in E.
      apply (count_occ_not_In Z.eq_dec) in E. contradiction.
Qed.

(** ** The [int] counts of a file *)

Lemma positive_terms_bound (l : list Z) :
  Forall (fun f => 0 < f) l -> Forall (fun f => 0 < f <= zsum l) l.
Proof.
  induction 1 as [|x l Hx Hl IH]; [constructor|].
  assert (Hsum : 0 <= zsum l).
  { clear - Hl. induction Hl as [|y l Hy _ IH]; [cbn; lia|].
    unfold zsum in *. cbn [fold_right]. lia. }
  unfold zsum in *. cbn [fold_right]. constructor; [lia|].
  rewrite Forall_forall in *. intros f Hf. specialize (IH f Hf). cbv beta in IH. lia.
Qed.

(** X8.  No [int] of the encoder overflows, whatever the file: a WAV
    header declares fewer than 2^32 bytes of data, so [readWavFile]
    returns at most 2^31 - 1 samples, and every count of
    [calculateFrequencies] and every [frequency] field of the tree, the
    root included, lies between 1 and the number of samples. *)
Theorem counts_fit_int :
  forall (H : Encoder.HeapAlgorithms) (stream : list Z)
         (header : WavHeader) (audioData : list Z),
    Encoder.conforming H ->
    Forall is_byte stream ->
    EncoderIO.readWavFile (Some stream) = Ok (Returned (header, audioData)) ->
    audioData <> [] ->
    Z.of_nat (length audioData) <= INT_MAX
    /\ (forall sample count,
          In (sample, count) (Encoder.calculateFrequencies audioData) ->
          0 < count <= Z.of_nat (length audioData))
    /\ exists huffmanTree,
         Encoder.buildHuffmanTree H (Encoder.calculateFrequencies audioData)
         = Ok huffmanTree
         /\ Encoder.frequency_of huffmanTree = Z.of_nat (length audioData)
         /\ Forall (fun f => 0 < f <= INT_MAX) (all_frequencies huffmanTree).
Proof.
  intros H stream header audioData Hconf Hb Hread Hne.
  assert (Hmax : Z.of_nat (length audioData) <= INT_MAX).
  { pose proof (readWavFile_count _ _ _ Hread) as Hlen.
    apply readWavFile_inv in Hread.
    destruct Hread as (stream' & [= <-] & H44 & Hh & _).
    destruct (stream_header stream H44 Hb) as [Hok _]. rewrite <- Hh in Hok.
    pose proof (ok_data_size header Hok) as Hds. unfold two32 in Hds.
    rewrite Hlen. unfold INT_MAX. lia. }
  split; [exact Hmax|]. split.
  - intros sample count Hin.
    assert (Hpos : Forall (fun f => 0 < f) (map snd (Encoder.calculateFrequencies audioData))).
    { apply Forall_forall. intros f Hf. apply in_map_iff in Hf.
      destruct Hf as ([k f'] & <- & Hin'). apply (calculateFrequencies_positive _ _ _ Hin'). }
    apply positive_terms_bound in Hpos. rewrite calculateFrequencies_total in Hpos.
    rewrite Forall_forall in Hpos. apply (Hpos count).
    apply in_map_iff. now exists (sample, count).
  - apply frequencies_fit_int; assumption.
Qed.

Lemma counts_fit_int_witness :
  Encoder.conforming sorted_queue
  /\ Forall is_byte example_wav
  /\ EncoderIO.readWavFile (Some example_wav)
     = Ok (Returned (example_header, example_samples))
  /\ example_samples <> []
  /\ Z.of_nat (length example_samples) <= INT_MAX
  /\ (forall sample count,
        In (sample, count) (Encoder.calculateFrequencies example_samples) ->
        0 < count <= Z.of_nat (length example_samples))
  /\ exists huffmanTree,
       Encoder.buildHuffmanTree sorted_queue
         (Encoder.calculateFrequencies example_samples) = Ok huffmanTree
       /\ Encoder.frequency_of huffmanTree = Z.of_nat (length example_samples)
       /\ Forall (fun f => 0 < f <= INT_MAX) (all_frequencies huffmanTree).
Proof.
  assert (Hread : EncoderIO.readWavFile (Some example_wav)
                  = Ok (Returned (example_header, example_samples)))
    by (vm_compute; reflexivity).
  assert (Hne : example_samples <> []) by discriminate.
  split; [exact sorted_queue_conforming|]. split; [exact example_wav_bytes|].
  split; [exact Hread|].
  split; [exact Hne|].
  exact (counts_fit_int sorted_queue example_wav example_header example_samples
           sorted_queue_conforming example_wav_bytes Hread Hne).
Defined.

(** ** The length of the encoded stream *)

Lemma zsum_nil : zsum [] = 0.
Proof. reflexivity. Qed.

Lemma zsum_cons (x : Z) (l : list Z) : zsum (x :: l) = x + zsum l.
Proof. reflexivity. Qed.

Lemma weighted_sum_set (g : Z -> Z) (k v : Z) (m : StdMap.t Z) :
  StdMap.wf m ->
  weighted_sum g (StdMap.set k v m)
  = weighted_sum g m - StdMap.get_or 0 k m * g k + v * g k.
Proof.
  unfold StdMap.wf, StdMap.keys, weighted_sum, StdMap.get_or, zsum.
  induction m as [|[k' v'] m IH]; intros Hwf.
  - cbn [StdMap.set StdMap.find map fold_right fst snd]. lia.
  - cbn [map] in Hwf. inversion Hwf as [|? ? Hwf' Hall]; subst.
    cbn [StdMap.set StdMap.find].
    destruct (Z.ltb_spec k k') as [Hlt|Hge].
    + destruct (Z.eqb_spec k k'); [lia|].
      assert (Hnone : StdMap.find k m = None).
      { apply find_None_keys. intros Hk. rewrite Forall_forall in Hall.
        specialize (Hall k Hk). lia. }
      rewrite Hnone. cbn [map fold_right fst snd]. lia.
    + destruct (Z.eqb_spec k k') as [->|Hne].
      * cbn [map fold_right fst snd]. lia.
      * cbn [map fold_right fst snd]. rewrite (IH Hwf'). lia.
Qed.

Lemma weighted_sum_counts (g : Z -> Z) (audioData : list Z) :
  forall m, StdMap.wf m ->
    weighted_sum g (fold_left Encoder.count_sample audioData m)
    = weighted_sum g m + zsum (map g audioData).
Proof.
  induction audioData as [|s l IH]; intros m Hwf.
  - cbn [fold_left map]. rewrite zsum_nil. lia.
  - cbn [fold_left map]. rewrite IH by (apply wf_set; exact Hwf).
    unfold Encoder.count_sample. rewrite weighted_sum_set by exact Hwf.
    rewrite zsum_cons. lia.
Qed.

Lemma encodeAudioData_length (codes : StdMap.t cstring) (audioData : list Z) :
  forall bits,
    Encoder.encodeAudioData audioData codes = Ok bits ->
    (forall s, In s audioData -> exists c, StdMap.find s codes = Some c)
    /\ Z.of_nat (length bits)
       = zsum (map (fun s => Z.of_nat (length (StdMap.get_or [] s codes))) audioData).
Proof.
  induction audioData as [|s l IH]; intros bits Henc.
  - injection Henc as <-. split; [intros s []|reflexivity].
  - cbn [Encoder.encodeAudioData] in Henc. unfold StdMap.at_ in Henc.
    destruct (StdMap.find s codes) as [c|] eqn:Hfind; [|discriminate].
    cbn [bind] in Henc.
    destruct (Encoder.encodeAudioData l codes) as [tail| | |]; try discriminate.
    cbn [bind] in Henc. injection Henc as <-.
    destruct (IH tail eq_refl) as [Hall Hlen]. split.
    + intros s' [<-|Hs']; [now exists c|now apply Hall].
    + cbn [map]. rewrite zsum_cons, <- Hlen, length_app.
      unfold StdMap.get_or. rewrite Hfind. lia.
Qed.

(** The cost of the table on the frequencies of a sequence is the length
    of the stream of the sequence. *)
Lemma stream_length_cost (audioData : list Z) (huffmanCodes : StdMap.t cstring)
      (encodedData : cstring) :
  Encoder.encodeAudioData audioData huffmanCodes = Ok encodedData ->
  table_cost (Encoder.calculateFrequencies audioData) huffmanCodes
  = Some (Z.of_nat (length encodedData)).
Proof.
  intros Henc.
  destruct (encodeAudioData_length huffmanCodes audioData encodedData Henc) as [Hall Hlen].
  rewrite table_cost_defined.
  - f_equal. rewrite Hlen.
    pose proof (weighted_sum_counts
                  (fun s => Z.of_nat (length (StdMap.get_or [] s huffmanCodes)))
                  audioData StdMap.empty ltac:(constructor)) as Hsum.
    fold (Encoder.calculateFrequencies audioData) in Hsum.
    change (weighted_sum _ StdMap.empty) with 0 in Hsum.
    rewrite Z.add_0_l in Hsum. rewrite <- Hsum.
    unfold code_cost, coded_leaves, weighted_sum. rewrite map_map. reflexivity.
  - intros k Hk. apply Hall. now apply calculateFrequencies_keys.
Qed.

(** X12.  The stream [encodeAudioData] builds has as many bits as the
    sum, over the values of the sequence, of the number of occurrences
    times the length of the code: the cost that measures a code table is
    the size of the payload.  A table that lacks the code of a value of
    the sequence has no cost, and the encoder no stream. *)
Theorem encoded_length_is_table_cost :
  forall (audioData : list Z) (huffmanCodes : StdMap.t cstring),
    (forall encodedData,
        Encoder.encodeAudioData audioData huffmanCodes = Ok encodedData ->
        table_cost (Encoder.calculateFrequencies audioData) huffmanCodes
        = Some (Z.of_nat (length encodedData)))
    /\ (forall sample,
          In sample audioData -> StdMap.find sample huffmanCodes = None ->
          Encoder.encodeAudioData audioData huffmanCodes = OutOfRange
          /\ table_cost (Encoder.calculateFrequencies audioData) huffmanCodes = None).
Proof.
  intros audioData huffmanCodes. split.
  - intros encodedData. apply stream_length_cost.
  - intros sample Hin Hnone. split.
    + apply (encodeAudioData_throws huffmanCodes audioData sample Hin Hnone).
    + apply (table_cost_undefined huffmanCodes _ sample); [|exact Hnone].
      now apply calculateFrequencies_keys.
Qed.

Lemma encoded_length_is_table_cost_witness :
  table_cost (Encoder.calculateFrequencies example_samples) example_table
  = Some 9
  /\ Encoder.encodeAudioData example_samples gap_table = OutOfRange
  /\ table_cost (Encoder.calculateFrequencies example_samples) gap_table
     = None.
Proof.
  split.
  - destruct (encoded_length_is_table_cost example_samples example_table)
      as [Hcost _].
    apply (Hcost [ch0; ch0; ch0; ch1; ch1; ch1; ch1; ch1; ch0]).
    vm_compute. reflexivity.
  - destruct (encoded_length_is_table_cost example_samples gap_table)
      as [_ Hnone].
    apply (Hnone (-5)).
    + vm_compute. right. right. right. right. right. left. reflexivity.
    + vm_compute. reflexivity.
Defined.

(** ** The size and the bytes of the encoded file *)

Lemma table_layout_length (codes : StdMap.t cstring) :
  (forall k c, In (k, c) codes -> Z.of_nat (length c) < two32) ->
  length (flat_map write_entry codes)
  = (6 * StdMap.size codes + list_sum (map (fun pair => length (snd pair)) codes))%nat.
Proof.
  unfold StdMap.size, list_sum.
  induction codes as [|[k c] l IH]; intros Hok; [reflexivity|].
  cbn [flat_map map fold_right length snd]. rewrite length_app, IH.
  - rewrite (write_entry_eq k c) by (apply (Hok k c); now left).
    rewrite !length_app, !le_bytes_length, length_map. lia.
  - intros k' c' Hin. apply (Hok k' c'). now right.
Qed.

(** X15.  The size of the file [saveEncodedFile] writes: 44 bytes of
    header, 4 of count, 6 bytes and one byte per bit of its code for
    every entry of the table, 4 of bit count, and one byte for every 8
    bits of the stream, the last one partly used. *)
Theorem encoded_file_size :
  forall (header : WavHeader) (encodedData : cstring)
         (huffmanCodes : StdMap.t cstring) (written : list Z),
    header_ok header ->
    (forall k c, In (k, c) huffmanCodes -> Z.of_nat (length c) < two32) ->
    EncoderIO.saveEncodedFile true header encodedData huffmanCodes = Returned written ->
    length written
    = (52 + 6 * StdMap.size huffmanCodes
       + list_sum (map (fun pair => length (snd pair)) huffmanCodes)
       + (length encodedData + 7) / 8)%nat.
Proof.
  intros header encodedData huffmanCodes written Hh Hlens [= <-].
  unfold file_layout, Encoder.saveEncodedFile.
  cbn [file_header file_codes file_bit_count file_bytes].
  rewrite !length_app, (header_bytes_length header Hh), !le_bytes_length.
  rewrite (table_layout_length huffmanCodes Hlens), pack_bits_size. lia.
Qed.

Lemma encoded_file_size_witness :
  header_ok example_header
  /\ (forall k c, In (k, c) example_table -> Z.of_nat (length c) < two32)
  /\ EncoderIO.saveEncodedFile true example_header
       [ch0; ch0; ch0; ch1; ch1; ch1; ch1; ch1; ch0] example_table
     = Returned (file_layout example_file)
  /\ length (file_layout example_file)
     = (52 + 6 * StdMap.size example_table
        + list_sum (map (fun pair => length (snd pair)) example_table)
        + (length [ch0; ch0; ch0; ch1; ch1; ch1; ch1; ch1; ch0] + 7) / 8)%nat.
Proof.
  assert (Hsave : EncoderIO.saveEncodedFile true example_header
                    [ch0; ch0; ch0; ch1; ch1; ch1; ch1; ch1; ch0] example_table
                  = Returned (file_layout example_file)) by reflexivity.
  split; [exact example_header_ok|]. split; [exact (ok_lengths _ example_table_ok)|].
  split; [exact Hsave|].
  exact (encoded_file_size example_header [ch0; ch0; ch0; ch1; ch1; ch1; ch1; ch1; ch0]
           example_table (file_layout example_file) example_header_ok
           (ok_lengths _ example_table_ok) Hsave).
Defined.

(** X14.  The packed stream is a sequence of bytes, and the bits of the
    last byte that the stream does not reach are 0: [byte.reset()]
    clears the bitset after every byte written. *)
Theorem packed_bytes_clean :
  forall encodedData : cstring,
    Forall is_byte (Encoder.pack_bits encodedData 0 0)
    /\ forall q : nat, (length encodedData <= q)%nat ->
         bitset_get (nth (q / 8) (Encoder.pack_bits encodedData 0 0) 0) (q mod 8) = false.
Proof.
  intros encodedData. split; [apply pack_bits_bytes|].
  intros q Hq. apply (pack_bits_padding_from encodedData 0 0 0 eq_refl); [|exact Hq].
  intros j _. apply bitset_get_zero.
Qed.

Lemma truncated_file_undefined_witness :
  file_ok example_file
  /\ (60 < length (file_layout example_file) - length (file_bytes example_file))%nat
  /\ DecoderIO.main (fun _ => 0) 3 (Some (firstn 60 (file_layout example_file))) true
     = Undefined.
Proof.
  assert (Hn : (60 < length (file_layout example_file)
                     - length (file_bytes example_file))%nat) by (vm_compute; lia).
  split; [exact example_file_ok|]. split; [exact Hn|].
  exact (truncated_file_undefined (fun _ => 0) example_file 60%nat true
           example_file_ok Hn).
Defined.

(** ** The table [generateCodes] fills, for any sequence *)

(** X11.  Over a conforming queue and for every non-empty sequence,
    [buildHuffmanTree] returns a tree and [generateCodes] fills the table
    with exactly one code for every value of the sequence other than -1;
    every code is shorter than the number of different values, hence
    shorter than 65536 characters for [int16_t] samples. *)
Theorem generated_table_keys :
  forall (H : Encoder.HeapAlgorithms) (audioData : list Z),
    Encoder.conforming H ->
    audioData <> [] ->
    exists huffmanTree,
      Encoder.buildHuffmanTree H (Encoder.calculateFrequencies audioData) = Ok huffmanTree
      /\ StdMap.wf (Encoder.generateCodes huffmanTree [] StdMap.empty)
      /\ (forall k,
            In k (StdMap.keys (Encoder.generateCodes huffmanTree [] StdMap.empty))
            <-> In k audioData /\ k <> -1)
      /\ (forall k c,
            In (k, c) (Encoder.generateCodes huffmanTree [] StdMap.empty) ->
            (length c < StdMap.size (Encoder.calculateFrequencies audioData))%nat)
      /\ (Forall is_int16 audioData ->
          Z.of_nat (StdMap.size (Encoder.calculateFrequencies audioData)) <= 65536).
Proof.
  intros H audioData Hconf Hne.
  destruct (encoder_table H Hconf audioData Hne) as (t & Hbuild & Hwf & Hkeys & Hlen).
  exists t. split; [exact Hbuild|]. split; [exact Hwf|]. split; [exact Hkeys|].
  split; [exact Hlen|]. apply int16_table_size.
Qed.

Lemma generated_table_keys_witness :
  Encoder.conforming sorted_queue
  /\ example_samples <> []
  /\ exists huffmanTree,
       Encoder.buildHuffmanTree sorted_queue
         (Encoder.calculateFrequencies example_samples) = Ok huffmanTree
       /\ StdMap.wf (Encoder.generateCodes huffmanTree [] StdMap.empty)
       /\ (forall k,
             In k (StdMap.keys (Encoder.generateCodes huffmanTree [] StdMap.empty))
             <-> In k example_samples /\ k <> -1)
       /\ (forall k c,
             In (k, c) (Encoder.generateCodes huffmanTree [] StdMap.empty) ->
             (length c
              < StdMap.size (Encoder.calculateFrequencies example_samples))%nat)
       /\ (Forall is_int16 example_samples ->
           Z.of_nat (StdMap.size (Encoder.calculateFrequencies example_samples))
           <= 65536).
Proof.
  assert (Hne : example_samples <> []) by discriminate.
  split; [exact sorted_queue_conforming|]. split; [exact Hne|].
  exact (generated_table_keys sorted_queue example_samples
           sorted_queue_conforming Hne).
Defined.

(** ** What the programs accept *)

Lemma slice_firstn (from len n : nat) (l : list Z) :
  (from + len <= n)%nat -> slice from len (firstn n l) = slice from len l.
Proof.
  intros Hn. unfold slice. rewrite skipn_firstn_comm, firstn_firstn. f_equal. lia.
Qed.

(** X5.  The encoder refuses a file of twelve bytes or more that does
    not start with RIFF or has no WAVE at offset 8: it exits with status
    1 and writes nothing, whatever the rest of the file holds.  Nothing
    else of the header is checked. *)
Theorem encoder_rejects_other_files :
  forall (H : Encoder.HeapAlgorithms) (stream : list Z) (creatable : bool),
    (12 <= length stream)%nat ->
    map char_of_byte (slice 0 4 stream) <> EncoderIO.RIFF
    \/ map char_of_byte (slice 8 4 stream) <> EncoderIO.WAVE ->
    EncoderIO.main H 3 (Some stream) creatable = Ok (1, None).
Proof.
  intros H stream creatable Hlen Hbad.
  rewrite encoder_main_files. unfold EncoderIO.readWavFile, filled.
  destruct (Nat.ltb_spec (length stream) 4); [lia|]. cbn [bind].
  unfold header_of_bytes at 1. cbn [riff]. rewrite slice_firstn by lia.
  destruct (cstring_eqb (map char_of_byte (slice 0 4 stream)) EncoderIO.RIFF) eqn:Hriff;
    [|reflexivity].
  cbn [negb]. destruct (Nat.ltb_spec (length stream) 12); [lia|]. cbn [bind].
  unfold header_of_bytes at 1. cbn [wave]. rewrite slice_firstn by lia.
  destruct (cstring_eqb (map char_of_byte (slice 8 4 stream)) EncoderIO.WAVE) eqn:Hwave;
    [|reflexivity].
  apply cstring_eqb_eq in Hriff, Hwave. tauto.
Qed.

Lemma encoder_rejects_other_files_witness :
  (12 <= length other_file)%nat
  /\ (map char_of_byte (slice 0 4 other_file) <> EncoderIO.RIFF
      \/ map char_of_byte (slice 8 4 other_file) <> EncoderIO.WAVE)
  /\ EncoderIO.main sorted_queue 3 (Some other_file) true = Ok (1, None).
Proof.
  assert (Hlen : (12 <= length other_file)%nat) by (cbn [other_file length]; lia).
  assert (Hbad : map char_of_byte (slice 0 4 other_file) <> EncoderIO.RIFF
                 \/ map char_of_byte (slice 8 4 other_file) <> EncoderIO.WAVE)
    by (left; discriminate).
  split; [exact Hlen|]. split; [exact Hbad|].
  exact (encoder_rejects_other_files sorted_queue other_file true Hlen Hbad).
Defined.

(** X24.  The decoder checks nothing in the header and changes nothing
    in it: whenever it writes a file, the file is the first 44 bytes of
    its input followed by two bytes for every sample it decoded, and the
    exit status is 0.  In particular the [data_size] it writes is the one
    it read, whatever the number of samples. *)
Theorem decoder_copies_header :
  forall (indeterminate : nat -> Z) (argc : Z) (stream : list Z) (creatable : bool)
         (status : Z) (written : list Z),
    Forall is_byte stream ->
    DecoderIO.main indeterminate argc (Some stream) creatable = Ok (status, Some written) ->
    status = 0
    /\ exists f samples,
         DecoderIO.read_file stream = Ok f
         /\ Decoder.decodeAudioData
              (Decoder.readEncodedData indeterminate (file_bytes f)
                 (Z.to_nat (file_bit_count f)))
              (Decoder.buildHuffmanTree (file_codes f)) = Ok samples
         /\ written = firstn 44 stream ++ sample_bytes samples.
Proof.
  intros indeterminate argc stream creatable status written Hb Hmain.
  unfold DecoderIO.main in Hmain.
  destruct (negb (argc =? 3)); [discriminate|].
  destruct (DecoderIO.read_file stream) as [f| | |] eqn:Hread; try discriminate.
  cbn [bind] in Hmain. unfold Decoder.main in Hmain.
  destruct (Decoder.decodeAudioData _ _) as [samples| | |] eqn:Hdec; try discriminate.
  cbn [bind fst snd] in Hmain. unfold DecoderIO.saveWavFile in Hmain.
  destruct creatable; [|discriminate]. injection Hmain as <- <-.
  split; [reflexivity|]. exists f, samples. split; [reflexivity|]. split; [exact Hdec|].
  f_equal.
  assert (H44 : (44 <= length stream)%nat).
  { unfold DecoderIO.read_file, DecoderIO.readHuffmanCodes, read_scalar, filled in Hread.
    destruct (Nat.ltb_spec (length (skipn 44 stream)) 4) as [|Hlen]; [discriminate|].
    rewrite length_skipn in Hlen. lia. }
  assert (Hh : file_header f = header_of_bytes (firstn 44 stream)).
  { unfold DecoderIO.read_file in Hread.
    destruct (DecoderIO.readHuffmanCodes _) as [codes| | |]; try discriminate.
    cbn [bind] in Hread.
    destruct (read_scalar 4 (snd codes)) as [size| | |]; try discriminate.
    cbn [bind] in Hread. injection Hread as <-. reflexivity. }
  rewrite Hh. apply (stream_header stream H44 Hb).
Qed.

Lemma decoder_copies_header_witness :
  Forall is_byte (file_layout example_file)
  /\ DecoderIO.main (fun _ => 0) 3 (Some (file_layout example_file)) true
     = Ok (0, Some example_wav)
  /\ 0 = 0
  /\ exists f samples,
       DecoderIO.read_file (file_layout example_file) = Ok f
       /\ Decoder.decodeAudioData
            (Decoder.readEncodedData (fun _ => 0) (file_bytes f)
               (Z.to_nat (file_bit_count f)))
            (Decoder.buildHuffmanTree (file_codes f)) = Ok samples
       /\ example_wav = firstn 44 (file_layout example_file) ++ sample_bytes samples.
Proof.
  assert (Hb : Forall is_byte (file_layout example_file)).
  { apply file_layout_bytes. unfold example_file. cbn [file_bytes].
    repeat (apply Forall_cons; [unfold is_byte; lia|]). apply Forall_nil. }
  assert (Hmain : DecoderIO.main (fun _ => 0) 3 (Some (file_layout example_file)) true
                  = Ok (0, Some example_wav)) by (vm_compute; reflexivity).
  split; [exact Hb|]. split; [exact Hmain|].
  exact (decoder_copies_header (fun _ => 0) 3 (file_layout example_file) true 0
           example_wav Hb Hmain).
Defined.

(** ** The decoder's tree for any table of bit strings *)

Lemma insert_all_app (l1 l2 : list (Z * cstring)) (t0 : Decoder.HuffmanNode) :
  insert_all (l1 ++ l2) t0 = insert_all l2 (insert_all l1 t0).
Proof. unfold insert_all. apply fold_left_app. Qed.

(** X19.  In the tree the decoder builds from any table of bit strings,
    prefix code or not, the node a code leads to exists and holds the
    sample of the last entry with that code: an earlier entry with the
    same code is overwritten, and nothing is reported. *)
Theorem decoder_tree_last_entry_wins :
  forall (before : list (Z * cstring)) (k : Z) (c : cstring)
         (after : list (Z * cstring)),
    (forall k' c', In (k', c') (before ++ (k, c) :: after) -> bit_string c') ->
    (forall k' c', In (k', c') after -> c' <> c) ->
    subtree c (Decoder.buildHuffmanTree (before ++ (k, c) :: after)) <> Decoder.nullptr
    /\ sample_of (subtree c (Decoder.buildHuffmanTree (before ++ (k, c) :: after))) = k.
Proof.
  intros before k c after Hbits Hlast.
  rewrite buildHuffmanTree_insert_all, insert_all_app.
  set (t1 := insert_all before Decoder.new_node).
  assert (Ht1 : t1 <> Decoder.nullptr) by (apply insert_all_not_null; discriminate).
  assert (Hc : bit_string c) by (apply (Hbits k c), in_or_app; right; now left).
  assert (Hafter : forall k' c', In (k', c') after -> bit_string c').
  { intros k' c' Hin. apply (Hbits k' c'), in_or_app. right. now right. }
  change (insert_all ((k, c) :: after) t1)
    with (insert_all after (Decoder.insert_code c k t1)).
  set (t2 := Decoder.insert_code c k t1).
  assert (Ht2 : t2 <> Decoder.nullptr) by (apply insert_code_not_null; exact Ht1).
  assert (Hnode : subtree c t2 <> Decoder.nullptr).
  { apply subtree_insert_code_dom; try assumption. right. apply is_prefix_refl. }
  split.
  - apply insert_all_dom; try assumption. now left.
  - rewrite insert_all_sample_keep; try assumption.
    apply sample_insert_code_same. exact Ht1.
Qed.

Lemma decoder_tree_last_entry_wins_witness :
  (forall k' c',
      In (k', c') ([(0, [ch0; ch1])] ++ (1, [ch0; ch1]) :: [(2, [ch1])]) -> bit_string c')
  /\ (forall k' c', In (k', c') [(2, [ch1])] -> c' <> [ch0; ch1])
  /\ subtree [ch0; ch1]
       (Decoder.buildHuffmanTree ([(0, [ch0; ch1])] ++ (1, [ch0; ch1]) :: [(2, [ch1])]))
     <> Decoder.nullptr
  /\ sample_of
       (subtree [ch0; ch1]
          (Decoder.buildHuffmanTree ([(0, [ch0; ch1])] ++ (1, [ch0; ch1]) :: [(2, [ch1])])))
     = 1.
Proof.
  assert (Hbits : forall k' c',
            In (k', c') ([(0, [ch0; ch1])] ++ (1, [ch0; ch1]) :: [(2, [ch1])]) ->
            bit_string c').
  { intros k' c' [E|[E|[E|[]]]]; injection E as <- <-;
      repeat constructor; (left; reflexivity) || (right; reflexivity). }
  assert (Hlast : forall k' c', In (k', c') [(2, [ch1])] -> c' <> [ch0; ch1]).
  { intros k' c' [E|[]]; injection E as <- <-; discriminate. }
  split; [exact Hbits|]. split; [exact Hlast|].
  exact (decoder_tree_last_entry_wins [(0, [ch0; ch1])] 1 [ch0; ch1] [(2, [ch1])]
           Hbits Hlast).
Defined.

(** ** The queue in the merge loop *)

(** X9.  One iteration of the merge loop over a conforming queue that
    holds two nodes or more: the two nodes popped are two nodes of least
    frequency of the queue, the first one popped being the lesser; they
    become the left and the right child of a node with sample -1 and the
    sum of their frequencies; the queue is a heap again and holds one
    node less. *)
Theorem merge_step_takes_two_least :
  forall (H : Encoder.HeapAlgorithms) (minHeap : list Encoder.HuffmanNode),
    Encoder.conforming H ->
    Encoder.is_heap minHeap ->
    (2 <= length minHeap)%nat ->
    exists left_ right_ rest minHeap',
      Encoder.merge_step H minHeap = Ok minHeap'
      /\ Permutation minHeap (left_ :: right_ :: rest)
      /\ (forall x, In x (right_ :: rest) ->
            Encoder.frequency_of left_ <= Encoder.frequency_of x)
      /\ (forall x, In x rest -> Encoder.frequency_of right_ <= Encoder.frequency_of x)
      /\ Permutation minHeap'
           (Encoder.Node (-1) (Encoder.frequency_of left_ + Encoder.frequency_of right_)
              left_ right_ :: rest)
      /\ Encoder.is_heap minHeap'
      /\ S (length minHeap') = length minHeap.
Proof.
  intros H minHeap Hconf Hheap Hlen.
  destruct (merge_step_spec H Hconf minHeap Hheap Hlen)
    as (t1 & t2 & rest & minHeap' & Hstep & Hheap' & Hp & Hp' & H1 & H2).
  exists t1, t2, rest, minHeap'. repeat (split; [assumption|]).
  apply Permutation_length in Hp, Hp'. cbn [length] in Hp, Hp'. lia.
Qed.

Lemma merge_step_takes_two_least_witness :
  Encoder.conforming sorted_queue
  /\ Encoder.is_heap (Encoder.push_leaves sorted_queue example_frequencies)
  /\ (2 <= length (Encoder.push_leaves sorted_queue example_frequencies))%nat
  /\ exists left_ right_ rest minHeap',
       Encoder.merge_step sorted_queue
         (Encoder.push_leaves sorted_queue example_frequencies) = Ok minHeap'
       /\ Permutation (Encoder.push_leaves sorted_queue example_frequencies)
            (left_ :: right_ :: rest)
       /\ (forall x, In x (right_ :: rest) ->
             Encoder.frequency_of left_ <= Encoder.frequency_of x)
       /\ (forall x, In x rest -> Encoder.frequency_of right_ <= Encoder.frequency_of x)
       /\ Permutation minHeap'
            (Encoder.Node (-1) (Encoder.frequency_of left_ + Encoder.frequency_of right_)
               left_ right_ :: rest)
       /\ Encoder.is_heap minHeap'
       /\ S (length minHeap')
          = length (Encoder.push_leaves sorted_queue example_frequencies).
Proof.
  assert (Hheap : Encoder.is_heap
                    (Encoder.push_leaves sorted_queue example_frequencies)).
  { apply (push_leaves_spec sorted_queue sorted_queue_conforming
             example_frequencies [] is_heap_nil). }
  assert (Hlen : (2 <= length (Encoder.push_leaves sorted_queue
                                 example_frequencies))%nat)
    by (vm_compute; lia).
  split; [exact sorted_queue_conforming|]. split; [exact Hheap|]. split; [exact Hlen|].
  exact (merge_step_takes_two_least sorted_queue
           (Encoder.push_leaves sorted_queue example_frequencies)
           sorted_queue_conforming Hheap Hlen).
Defined.

(** ** [readEncodedData] on a short file *)

Lemma read_bytes_closed (indeterminate : nat -> Z) (original : list Z) (remaining : nat) :
  forall (i n : nat) (acc : cstring),
    Decoder.read_bytes indeterminate remaining i (skipn i original) n acc
    = acc ++ firstn (n - length acc)
               (expand (map (byte_read indeterminate original) (seq i remaining))).
Proof.
  induction remaining as [|remaining IH]; intros i n acc.
  - cbn [Decoder.read_bytes seq map expand flat_map]. now rewrite firstn_nil, app_nil_r.
  - cbn [Decoder.read_bytes seq map].
    assert (Hc : match skipn i original with
                 | [] => indeterminate i
                 | b :: _ => b
                 end = byte_read indeterminate original i).
    { unfold byte_read. destruct (Nat.ltb_spec i (length original)) as [Hlt|Hge].
      - rewrite <- (Nat.add_0_r i) at 2. rewrite <- nth_skipn_add.
        destruct (skipn i original) as [|b rest] eqn:E; [|reflexivity].
        apply (f_equal (@length Z)) in E. rewrite length_skipn in E.
        cbn [length] in E. lia.
      - now rewrite skipn_all2. }
    rewrite Hc.
    assert (Htl : tl (skipn i original) = skipn (S i) original).
    { clear. revert i. induction original as [|x l IHl]; intros [|i]; try reflexivity.
      cbn [skipn]. apply IHl. }
    rewrite Htl, IH, push_bits_eq, <- app_assoc. f_equal.
    unfold expand. cbn [flat_map]. fold (expand (map (byte_read indeterminate original)
                                                   (seq (S i) remaining))).
    rewrite length_app, length_firstn.
    change (map (bit_char (byte_read indeterminate original i)) (seq 0 8))
      with (byte_chars (byte_read indeterminate original i)).
    rewrite firstn_app, byte_chars_length.
    replace (length (map (bit_char (byte_read indeterminate original i)) (seq 0 8)))
      with 8%nat by (rewrite length_map, length_seq; reflexivity).
    f_equal. f_equal. lia.
Qed.

(** X18.  [readEncodedData] returns exactly [encodedDataSize] characters,
    whatever the file holds: character [i] is bit [i mod 8] of byte
    [i div 8] of the packed bytes, and when the file ends before that
    byte, of what [read] left in [c].  A payload shorter than the bit
    count declares is not reported. *)
Theorem readEncodedData_any_file :
  forall (indeterminate : nat -> Z) (file : list Z) (encodedDataSize : nat),
    length (Decoder.readEncodedData indeterminate file encodedDataSize) = encodedDataSize
    /\ forall i : nat, (i < encodedDataSize)%nat ->
         nth i (Decoder.readEncodedData indeterminate file encodedDataSize) ch0
         = bit_char (byte_read indeterminate file (i / 8)) (i mod 8).
Proof.
  intros indeterminate file n. unfold Decoder.readEncodedData.
  pose proof (read_bytes_closed indeterminate file n 0 n []) as Hclosed.
  cbn [skipn app length] in Hclosed. rewrite Nat.sub_0_r in Hclosed. rewrite Hclosed.
  set (bytes_ := map (byte_read indeterminate file) (seq 0 n)).
  assert (Hlen : length bytes_ = n) by (unfold bytes_; now rewrite length_map, length_seq).
  split.
  - rewrite length_firstn, expand_length. unfold bytes_.
    rewrite length_map, length_seq. lia.
  - intros i Hi. rewrite nth_firstn.
    replace (i <? n)%nat with true by (symmetry; apply Nat.ltb_lt; exact Hi).
    assert (Hi8 : (i < 8 * length bytes_)%nat) by (rewrite Hlen; lia).
    rewrite (expand_nth indeterminate bytes_ i Hi8). f_equal.
    unfold bytes_.
    rewrite (nth_indep _ 0 (byte_read indeterminate file 0))
      by (rewrite length_map, length_seq; lia).
    rewrite map_nth, seq_nth by lia. reflexivity.
Qed.

(** ** The decoder on a well-formed file of any origin *)

Lemma firstn_length_app {A : Type} (l r : list A) : firstn (length l) (l ++ r) = l.
Proof. now rewrite firstn_app, Nat.sub_diag, firstn_O, app_nil_r, firstn_all. Qed.

Lemma skipn_length_app {A : Type} (l r : list A) : skipn (length l) (l ++ r) = r.
Proof. now rewrite skipn_app, Nat.sub_diag, skipn_O, skipn_all. Qed.

(** The loop of [readHuffmanCodes] over entries in any order. *)
Lemma read_entries_any (entries : list (Z * cstring)) :
  forall (huffmanCodes : StdMap.t cstring) (rest : list Z),
    (forall k c, In (k, c) entries -> is_int16 k /\ Z.of_nat (length c) < two32) ->
    DecoderIO.read_entries (length entries) (flat_map write_entry entries ++ rest)
      huffmanCodes
    = Ok (fold_left (fun m entry => StdMap.set (fst entry) (snd entry) m)
            entries huffmanCodes, rest).
Proof.
  induction entries as [|[k c] entries IH]; intros huffmanCodes rest Hok.
  - reflexivity.
  - cbn [length flat_map fold_left]. rewrite <- app_assoc.
    destruct (Hok k c (or_introl eq_refl)) as [Hk Hc].
    rewrite write_entry_read by assumption.
    apply IH. intros k' c' Hin. apply Hok. now right.
Qed.

Lemma table_of_wf (entries : list (Z * cstring)) : StdMap.wf (table_of entries).
Proof.
  unfold table_of.
  assert (Hgen : forall m : StdMap.t cstring, StdMap.wf m ->
            StdMap.wf (fold_left (fun m entry => StdMap.set (fst entry) (snd entry) m)
                         entries m)).
  { induction entries as [|e entries IH]; intros m Hm; [exact Hm|].
    cbn [fold_left]. apply IH. now apply wf_set. }
  apply Hgen. constructor.
Qed.

(** Entries in increasing key order, as the encoder writes them, give
    the table they list. *)
Lemma table_of_sorted (codes : StdMap.t cstring) :
  StdMap.wf codes -> table_of codes = codes.
Proof.
  unfold table_of.
  assert (Hgen : forall (l acc : StdMap.t cstring), StdMap.wf (acc ++ l) ->
            fold_left (fun m entry => StdMap.set (fst entry) (snd entry) m) l acc
            = acc ++ l).
  { induction l as [|[k c] l IH]; intros acc Hwf.
    - now rewrite app_nil_r.
    - cbn [fold_left fst snd].
      assert (Hwf' : StdMap.wf ((acc ++ [(k, c)]) ++ l)) by now rewrite <- app_assoc.
      rewrite set_last.
      + rewrite IH by exact Hwf'. now rewrite <- app_assoc.
      + unfold StdMap.wf, StdMap.keys in *. rewrite map_app in Hwf'.
        clear - Hwf'. revert Hwf'.
        generalize (map fst (acc ++ [(k, c)])). intros ks.
        induction ks as [|x ks IHk]; intros Hs; [constructor|].
        cbn [app] in Hs. inversion Hs as [|? ? Hs' Hall]; subst.
        constructor; [now apply IHk|]. apply Forall_app in Hall. tauto. }
  intros Hwf. apply (Hgen codes []). exact Hwf.
Qed.

(** The bytes [saveEncodedFile] packs carry the stream. *)
Lemma pack_bits_holds_bits (bits : cstring) :
  bit_string bits -> holds_bits (Encoder.pack_bits bits 0 0) bits.
Proof.
  intros Hbits. split.
  - rewrite pack_bits_size. lia.
  - intros i Hi. apply bit_char_of_bit.
    + unfold bit_string in Hbits. rewrite Forall_forall in Hbits.
      apply Hbits. now apply nth_In.
    + now apply pack_bits_bit.
Qed.

(** What [main] has read when it starts to decode. *)
Lemma read_file_stream (header_ : list Z) (entries : list (Z * cstring))
      (encodedDataSize : Z) (payload : list Z) :
  length header_ = 44%nat ->
  Z.of_nat (length entries) < two32 ->
  (forall k c, In (k, c) entries -> is_int16 k /\ Z.of_nat (length c) < two32) ->
  0 <= encodedDataSize < two32 ->
  DecoderIO.read_file (encoded_stream header_ entries encodedDataSize payload)
  = Ok {| file_header := header_of_bytes header_;
          file_codes := table_of entries;
          file_bit_count := encodedDataSize;
          file_bytes := payload |}.
Proof.
  intros Hlen Hcount Hok Hsize. unfold DecoderIO.read_file, encoded_stream.
  assert (Hf : forall rest : list Z, firstn 44 (header_ ++ rest) = header_)
    by (intros rest; rewrite <- Hlen; apply firstn_length_app).
  assert (Hs : forall rest : list Z, skipn 44 (header_ ++ rest) = rest)
    by (intros rest; rewrite <- Hlen; apply skipn_length_app).
  rewrite Hf, Hs. unfold DecoderIO.readHuffmanCodes.
  rewrite read_scalar_le_bytes. cbn [bind fst snd].
  change (256 ^ Z.of_nat 4) with two32.
  rewrite (Z.mod_small (Z.of_nat (length entries))) by lia. rewrite Nat2Z.id.
  rewrite (read_entries_any entries StdMap.empty _ Hok). cbn [bind fst snd].
  rewrite read_scalar_le_bytes. cbn [bind fst snd].
  change (256 ^ Z.of_nat 4) with two32. rewrite (Z.mod_small encodedDataSize) by lia.
  reflexivity.
Qed.

(** X23.  The decoder decodes every well-formed file, whoever wrote it.
    The file holds any 44 bytes of header, the number of entries, the
    entries in any order (a sample listed twice keeps its last code), the
    bit count, and payload bytes that carry the stream, whatever the bits
    that pad the last byte and whatever follows it.  When the table the
    entries make is a prefix code of non-empty bit strings over
    [int16_t] samples and the stream is made of the codes of a sample
    sequence, the decoder writes the 44 bytes followed by the samples,
    and exits with status 0. *)
Theorem decoder_reads_valid_file :
  forall (indeterminate : nat -> Z) (header_ : list Z) (entries : list (Z * cstring))
         (samples : list Z) (bits : cstring) (payload : list Z),
    length header_ = 44%nat ->
    Forall is_byte header_ ->
    Z.of_nat (length entries) < two32 ->
    (forall k c, In (k, c) entries -> is_int16 k /\ Z.of_nat (length c) < two32) ->
    valid_table (table_of entries) ->
    spells (table_of entries) samples bits ->
    Z.of_nat (length bits) < two32 ->
    holds_bits payload bits ->
    DecoderIO.main indeterminate 3
      (Some (encoded_stream header_ entries (Z.of_nat (length bits)) payload)) true
    = Ok (0, Some (header_ ++ sample_bytes samples)).
Proof.
  intros indeterminate header_ entries samples bits payload
         Hlen Hbytes Hcount Hok Hvalid Hsp Hbits [Hfit Hcarry].
  unfold DecoderIO.main. cbn [Z.eqb Pos.eqb negb].
  rewrite read_file_stream by (try assumption; lia). cbn [bind].
  unfold Decoder.main. cbn [file_header file_codes file_bit_count file_bytes].
  rewrite Nat2Z.id.
  rewrite (readEncodedData_ext indeterminate payload bits Hfit Hcarry).
  unfold Decoder.decodeAudioData.
  pose proof (walk_spells (table_of entries) Hvalid samples bits Hsp [] []) as Hwalk.
  rewrite app_nil_r in Hwalk. rewrite Hwalk.
  cbn [Decoder.decode_walk bind fst snd app DecoderIO.saveWavFile].
  now rewrite (header_bytes_header_of_bytes header_ Hlen Hbytes).
Qed.

Lemma decoder_reads_valid_file_witness :
  length (header_bytes example_header) = 44%nat
  /\ Forall is_byte (header_bytes example_header)
  /\ Z.of_nat (length unordered_entries) < two32
  /\ (forall k c, In (k, c) unordered_entries ->
        is_int16 k /\ Z.of_nat (length c) < two32)
  /\ valid_table (table_of unordered_entries)
  /\ spells (table_of unordered_entries) [0; 1] ([ch0] ++ [ch1; ch1] ++ [])
  /\ Z.of_nat (length ([ch0] ++ [ch1; ch1] ++ [])) < two32
  /\ holds_bits padded_payload ([ch0] ++ [ch1; ch1] ++ [])
  /\ DecoderIO.main (fun _ => 0) 3
       (Some (encoded_stream (header_bytes example_header) unordered_entries
                (Z.of_nat (length ([ch0] ++ [ch1; ch1] ++ []))) padded_payload))
       true
     = Ok (0, Some (header_bytes example_header ++ sample_bytes [0; 1])).
Proof.
  assert (Hlen : length (header_bytes example_header) = 44%nat) by reflexivity.
  assert (Hbytes : Forall is_byte (header_bytes example_header))
    by (apply header_bytes_bytes).
  assert (Hcount : Z.of_nat (length unordered_entries) < two32) by reflexivity.
  assert (Hok : forall k c, In (k, c) unordered_entries ->
            is_int16 k /\ Z.of_nat (length c) < two32).
  { intros k c [E|[E|[E|[]]]]; injection E as <- <-;
      (split; [unfold is_int16; lia|reflexivity]). }
  assert (Htable : table_of unordered_entries = example_table) by reflexivity.
  assert (Hvalid : valid_table (table_of unordered_entries))
    by (rewrite Htable; exact example_table_valid).
  assert (Hsp : spells (table_of unordered_entries) [0; 1] ([ch0] ++ [ch1; ch1] ++ [])).
  { rewrite Htable.
    apply spells_cons; [cbn [In example_table]; auto|].
    apply spells_cons; [cbn [In example_table]; auto|]. apply spells_nil. }
  assert (Hbits : Z.of_nat (length ([ch0] ++ [ch1; ch1] ++ [])) < two32) by reflexivity.
  assert (Hcarry : holds_bits padded_payload ([ch0] ++ [ch1; ch1] ++ [])).
  { split; [cbn [app length padded_payload]; lia|].
    intros [|[|[|i]]] Hi; try reflexivity. cbn [app length] in Hi. lia. }
  split; [exact Hlen|]. split; [exact Hbytes|]. split; [exact Hcount|].
  split; [exact Hok|]. split; [exact Hvalid|]. split; [exact Hsp|].
  split; [exact Hbits|]. split; [exact Hcarry|].
  exact (decoder_reads_valid_file (fun _ => 0) (header_bytes example_header)
           unordered_entries [0; 1] ([ch0] ++ [ch1; ch1] ++ []) padded_payload
           Hlen Hbytes Hcount Hok Hvalid Hsp Hbits Hcarry).
Defined.

(** ** Characters other than "0" and "1" *)

Lemma as_bit_eqb (c : ascii) : Ascii.eqb (as_bit c) ch0 = Ascii.eqb c ch0.
Proof. unfold as_bit. destruct (Ascii.eqb c ch0); reflexivity. Qed.

Lemma insert_code_as_bit (code : cstring) :
  forall (sample : Z) (t : Decoder.HuffmanNode),
    Decoder.insert_code (map as_bit code) sample t = Decoder.insert_code code sample t.
Proof.
  induction code as [|b code IH]; intros sample t; [reflexivity|].
  destruct t as [|s l r]; [reflexivity|].
  cbn [map Decoder.insert_code]. now rewrite as_bit_eqb, !IH.
Qed.

Lemma decode_walk_as_bit (root : Decoder.HuffmanNode) (bits : cstring) :
  forall (node : Decoder.HuffmanNode) (audioData : list Z),
    Decoder.decode_walk root node (map as_bit bits) audioData
    = Decoder.decode_walk root node bits audioData.
Proof.
  induction bits as [|b bits IH]; intros node audioData; [reflexivity|].
  cbn [map Decoder.decode_walk]. destruct node as [|s l r]; [reflexivity|].
  rewrite as_bit_eqb.
  destruct (if Ascii.eqb b ch0 then l else r) as [|s' l' r']; [reflexivity|].
  destruct (Decoder.is_leaf (Decoder.Node s' l' r')); apply IH.
Qed.

(** X20.  The decoder takes every character other than "0" for a "1",
    in the codes of the table as in the stream: a table read from a file
    is not checked to hold bit strings, and replacing every such
    character by "1" changes neither the tree nor the decoded samples. *)
Theorem decoder_reads_any_character_as_one :
  (forall codes : StdMap.t cstring,
      Decoder.buildHuffmanTree (map (fun pair => (fst pair, map as_bit (snd pair))) codes)
      = Decoder.buildHuffmanTree codes)
  /\ (forall (encodedData : cstring) (root : Decoder.HuffmanNode),
        Decoder.decodeAudioData (map as_bit encodedData) root
        = Decoder.decodeAudioData encodedData root).
Proof.
  split.
  - intros codes. unfold Decoder.buildHuffmanTree.
    generalize Decoder.new_node.
    induction codes as [|[k c] codes IH]; intros t; [reflexivity|].
    cbn [map fold_left fst snd]. now rewrite insert_code_as_bit, IH.
  - intros encodedData root. unfold Decoder.decodeAudioData.
    now rewrite decode_walk_as_bit.
Qed.

(** ** The shape of the encoder's tree *)

Lemma join_huffman_tree (top : bt Encoder.HuffmanNode) :
  Forall is_leaf_node (leaves top) ->
  exists bindings,
    huffman_tree (join top) bindings /\ map leaf_of bindings = leaves top.
Proof.
  induction top as [n|l IHl r IHr]; intros Hleaf; cbn [leaves join] in *.
  - pose proof (Forall_inv Hleaf) as (s & f & ->).
    exists [(s, f)]. split; [constructor|reflexivity].
  - apply Forall_app in Hleaf. destruct Hleaf as [Hl Hr].
    destruct (IHl Hl) as (bl & Htl & Hbl). destruct (IHr Hr) as (br & Htr & Hbr).
    exists (bl ++ br). split; [now constructor|].
    now rewrite map_app, Hbl, Hbr.
Qed.

Lemma map_leaf_of_injective (l1 : list (Z * Z)) :
  forall l2, map leaf_of l1 = map leaf_of l2 -> l1 = l2.
Proof.
  induction l1 as [|[s f] l1 IH]; intros [|[s' f'] l2] E; try discriminate;
    [reflexivity|].
  cbn [map] in E. injection E as Hs Hf Hrest. cbn [fst snd] in Hs, Hf. subst s' f'.
  f_equal. now apply IH.
Qed.

(** X10.  Over a conforming queue, [buildHuffmanTree] turns every
    non-empty frequency table into a tree whose leaves are the bindings
    of the table, each exactly once, and whose other nodes have the
    sample -1, two children and the sum of the frequencies of their
    children. *)
Theorem buildHuffmanTree_tree :
  forall (H : Encoder.HeapAlgorithms) (frequencies : StdMap.t Z),
    Encoder.conforming H ->
    frequencies <> [] ->
    exists huffmanTree bindings,
      Encoder.buildHuffmanTree H frequencies = Ok huffmanTree
      /\ huffman_tree huffmanTree bindings
      /\ Permutation bindings frequencies.
Proof.
  intros H frequencies Hconf Hne.
  destruct (buildHuffmanTree_shape H Hconf frequencies Hne) as (top & Hbuild & Hp & _).
  assert (Hleaf : Forall is_leaf_node (leaves top)).
  { apply Forall_forall. intros n Hn. apply (Permutation_in n Hp) in Hn.
    apply in_map_iff in Hn. destruct Hn as ([k f] & <- & _). now exists k, f. }
  destruct (join_huffman_tree top Hleaf) as (bindings & Htree & Hb).
  exists (join top), bindings. split; [exact Hbuild|]. split; [exact Htree|].
  rewrite <- Hb in Hp. symmetry in Hp.
  destruct (Permutation_map_inv leaf_of _ Hp) as (l3 & Heq & Hperm).
  apply map_leaf_of_injective in Heq. subst l3. now symmetry.
Qed.

Lemma buildHuffmanTree_tree_witness :
  Encoder.conforming sorted_queue
  /\ example_frequencies <> []
  /\ exists huffmanTree bindings,
       Encoder.buildHuffmanTree sorted_queue example_frequencies = Ok huffmanTree
       /\ huffman_tree huffmanTree bindings
       /\ Permutation bindings example_frequencies.
Proof.
  assert (Hne : example_frequencies <> []) by discriminate.
  split; [exact sorted_queue_conforming|]. split; [exact Hne|].
  exact (buildHuffmanTree_tree sorted_queue example_frequencies
           sorted_queue_conforming Hne).
Defined.

(** ** What [readWavFile] looks at *)

Lemma slice_0_firstn (len n : nat) (l : list Z) :
  (len <= n)%nat -> slice 0 len (firstn n l) = firstn len l.
Proof.
  intros Hn. rewrite slice_firstn by lia. reflexivity.
Qed.

Lemma slice_40_skipn (n : nat) (l : list Z) :
  (44 <= n)%nat -> slice 40 4 (firstn n l) = firstn 4 (skipn 40 l).
Proof. intros Hn. rewrite slice_firstn by lia. reflexivity. Qed.

(** X4.  [readWavFile] looks at the RIFF and WAVE marks, at [data_size]
    and at the bytes from offset 44 on, and at nothing else: two files
    that agree on those give the same samples, or are refused alike.
    The format, the number of channels and the sample width the header
    declares are never read, and the data chunk is taken to start at
    offset 36 whatever chunk is there. *)
Theorem readWavFile_ignores_format :
  forall stream1 stream2 : list Z,
    (44 <= length stream1)%nat ->
    firstn 4 stream1 = firstn 4 stream2 ->
    slice 8 4 stream1 = slice 8 4 stream2 ->
    skipn 40 stream1 = skipn 40 stream2 ->
    returned_samples (EncoderIO.readWavFile (Some stream1))
    = returned_samples (EncoderIO.readWavFile (Some stream2)).
Proof.
  intros stream1 stream2 Hlen1 Hriff Hwave Hdata.
  assert (Hlen2 : (44 <= length stream2)%nat).
  { apply (f_equal (@length Z)) in Hdata. rewrite !length_skipn in Hdata. lia. }
  assert (H44 : skipn 44 stream1 = skipn 44 stream2).
  { change 44%nat with (4 + 40)%nat. rewrite <- !skipn_skipn. now rewrite Hdata. }
  unfold EncoderIO.readWavFile, filled.
  destruct (Nat.ltb_spec (length stream1) 4); [lia|].
  destruct (Nat.ltb_spec (length stream2) 4); [lia|].
  destruct (Nat.ltb_spec (length stream1) 12); [lia|].
  destruct (Nat.ltb_spec (length stream2) 12); [lia|].
  destruct (Nat.ltb_spec (length stream1) 44); [lia|].
  destruct (Nat.ltb_spec (length stream2) 44); [lia|].
  cbn [bind].
  assert (Hr : riff (header_of_bytes (firstn 44 stream1))
               = riff (header_of_bytes (firstn 44 stream2))).
  { unfold header_of_bytes. cbn [riff]. rewrite !slice_0_firstn by lia. now rewrite Hriff. }
  assert (Hw : wave (header_of_bytes (firstn 44 stream1))
               = wave (header_of_bytes (firstn 44 stream2))).
  { unfold header_of_bytes. cbn [wave]. rewrite !slice_firstn by lia. now rewrite Hwave. }
  assert (Hd : data_size (header_of_bytes (firstn 44 stream1))
               = data_size (header_of_bytes (firstn 44 stream2))).
  { unfold header_of_bytes. cbn [data_size]. rewrite !slice_40_skipn by lia.
    now rewrite Hdata. }
  rewrite Hr, Hw, Hd, H44.
  destruct (negb (cstring_eqb _ EncoderIO.RIFF)); [reflexivity|].
  destruct (negb (cstring_eqb _ EncoderIO.WAVE)); [reflexivity|].
  destruct (read_into _ _ _) as [r| | |]; reflexivity.
Qed.

Lemma readWavFile_ignores_format_witness :
  (44 <= length example_wav)%nat
  /\ firstn 4 example_wav
     = firstn 4 (header_bytes other_format_header ++ sample_bytes example_samples)
  /\ slice 8 4 example_wav
     = slice 8 4 (header_bytes other_format_header ++ sample_bytes example_samples)
  /\ skipn 40 example_wav
     = skipn 40 (header_bytes other_format_header ++ sample_bytes example_samples)
  /\ returned_samples (EncoderIO.readWavFile (Some example_wav))
     = returned_samples
         (EncoderIO.readWavFile
            (Some (header_bytes other_format_header ++ sample_bytes example_samples))).
Proof.
  assert (Hlen : (44 <= length example_wav)%nat) by (vm_compute; lia).
  assert (H1 : firstn 4 example_wav
               = firstn 4 (header_bytes other_format_header
                           ++ sample_bytes example_samples)) by (vm_compute; reflexivity).
  assert (H2 : slice 8 4 example_wav
               = slice 8 4 (header_bytes other_format_header
                            ++ sample_bytes example_samples)) by (vm_compute; reflexivity).
  assert (H3 : skipn 40 example_wav
               = skipn 40 (header_bytes other_format_header
                           ++ sample_bytes example_samples)) by (vm_compute; reflexivity).
  split; [exact Hlen|]. split; [exact H1|]. split; [exact H2|]. split; [exact H3|].
  exact (readWavFile_ignores_format example_wav
           (header_bytes other_format_header ++ sample_bytes example_samples)
           Hlen H1 H2 H3).
Defined.

(** ** The payload against fixed-width codes *)

Lemma div2_half (n : nat) : Nat.div2 n = (n / 2)%nat.
Proof. apply Nat.div2_div. Qed.

Lemma balanced_spec {A : Type} (d : A) (h : nat) :
  forall l : list A,
    (1 <= length l <= 2 ^ h)%nat ->
    leaves (balanced h d l) = l /\ height (balanced h d l) <= Z.of_nat h.
Proof.
  induction h as [|h IH]; intros l Hl.
  - cbn [Nat.pow] in Hl. destruct l as [|a [|b l]]; cbn [length] in Hl; try lia.
    cbn [balanced hd leaves height]. split; [reflexivity|lia].
  - destruct l as [|a [|b l]]; cbn [length] in Hl; try lia.
    + cbn [balanced leaves height]. split; [reflexivity|lia].
    + cbn [balanced]. set (whole := a :: b :: l) in *.
      assert (Hlen : length whole = S (S (length l))) by reflexivity.
      set (m := Nat.div2 (S (length whole))).
      assert (Hm : m = (S (length whole) / 2)%nat) by apply div2_half.
      assert (Hpow : (2 ^ S h = 2 * 2 ^ h)%nat) by reflexivity.
      destruct (IH (firstn m whole)) as [Hl1 Hh1].
      { rewrite length_firstn. lia. }
      destruct (IH (skipn m whole)) as [Hl2 Hh2].
      { rewrite length_skipn. lia. }
      cbn [leaves height]. rewrite Hl1, Hl2, firstn_skipn. split; [reflexivity|lia].
Qed.

Lemma zsum_nonneg (l : list Z) : Forall (fun x => 0 <= x) l -> 0 <= zsum l.
Proof.
  induction 1 as [|x l Hx _ IH]; [rewrite zsum_nil; lia|]. rewrite zsum_cons. lia.
Qed.

Lemma cost_height_bound {A : Type} (w : A -> Z) (t : bt A) :
  (forall a, In a (leaves t) -> 0 <= w a) ->
  forall d, 0 <= d ->
    cost_at w d t <= (d + height t) * zsum (map w (leaves t)).
Proof.
  induction t as [a|l IHl r IHr]; intros Hw d Hd.
  - cbn [cost_at height leaves map]. rewrite zsum_cons, zsum_nil. lia.
  - cbn [cost_at height leaves]. rewrite map_app, zsum_app.
    assert (Hwl : forall a, In a (leaves l) -> 0 <= w a)
      by (intros a Ha; apply Hw; cbn [leaves]; apply in_or_app; now left).
    assert (Hwr : forall a, In a (leaves r) -> 0 <= w a)
      by (intros a Ha; apply Hw; cbn [leaves]; apply in_or_app; now right).
    specialize (IHl Hwl (d + 1) ltac:(lia)). specialize (IHr Hwr (d + 1) ltac:(lia)).
    assert (Hsl : 0 <= zsum (map w (leaves l))).
    { apply zsum_nonneg, Forall_forall. intros x Hx. apply in_map_iff in Hx.
      destruct Hx as (a & <- & Ha). now apply Hwl. }
    assert (Hsr : 0 <= zsum (map w (leaves r))).
    { apply zsum_nonneg, Forall_forall. intros x Hx. apply in_map_iff in Hx.
      destruct Hx as (a & <- & Ha). now apply Hwr. }
    pose proof (Z.le_max_l (height l) (height r)).
    pose proof (Z.le_max_r (height l) (height r)).
    nia.
Qed.

Section PayloadBound.

Variable H : Encoder.HeapAlgorithms.
Hypothesis Hconf : Encoder.conforming H.

(** The stream of a sequence whose values fit [h] bits has at most [h]
    bits for every sample. *)
Lemma stream_fixed_width (header : WavHeader) (audioData : list Z) (f : EncodedFile)
      (h : nat) :
  Encoder.main H header audioData = Ok f ->
  (StdMap.size (Encoder.calculateFrequencies audioData) <= 2 ^ h)%nat ->
  exists encodedData,
    Encoder.encodeAudioData audioData (file_codes f) = Ok encodedData
    /\ file_bit_count f = to_uint32 (length encodedData)
    /\ file_bytes f = Encoder.pack_bits encodedData 0 0
    /\ Z.of_nat (length encodedData) <= Z.of_nat h * Z.of_nat (length audioData).
Proof.
  intros Hmain Hsize.
  set (frequencies := Encoder.calculateFrequencies audioData) in *.
  pose proof (calculateFrequencies_wf audioData) as Hwf. fold frequencies in Hwf.
  assert (Hfne : frequencies <> []).
  { intros E. unfold Encoder.main in Hmain. fold frequencies in Hmain. rewrite E in Hmain.
    change (@nil (Z * Z)) with (@StdMap.empty Z) in Hmain.
    rewrite buildHuffmanTree_empty in Hmain. discriminate. }
  destruct (buildHuffmanTree_spec H Hconf frequencies Hfne) as (t & Hbuild & Hh).
  destruct (huffman_optimal _ _ Hh) as (top & Hjoin & Hp & Hbest).
  unfold Encoder.main in Hmain. fold frequencies in Hmain. rewrite Hbuild in Hmain.
  cbn [bind] in Hmain. rewrite <- Hjoin in Hmain.
  set (codes := Encoder.generateCodes (join top) [] StdMap.empty) in *.
  destruct (Encoder.encodeAudioData audioData codes) as [bits| | |] eqn:Henc;
    try discriminate.
  cbn [bind] in Hmain. injection Hmain as <-.
  cbn [Encoder.saveEncodedFile file_codes file_bit_count file_bytes].
  exists bits. split; [exact Henc|]. split; [reflexivity|]. split; [reflexivity|].
  destruct (encodeAudioData_length codes audioData bits Henc) as [Hall _].
  assert (Hminus : ~ In (-1) (StdMap.keys frequencies)).
  { intros Hin. apply (proj1 (calculateFrequencies_keys audioData (-1))) in Hin.
    destruct (Hall _ Hin) as [c Hc].
    unfold codes in Hc. rewrite generateCodes_skips_minus_one in Hc. discriminate. }
  pose proof (generated_cost top frequencies Hp Hwf Hminus) as Hcost. fold codes in Hcost.
  pose proof (stream_length_cost audioData codes bits Henc) as Hlen.
  fold frequencies in Hlen. rewrite Hcost in Hlen. injection Hlen as Hlen.
  rewrite <- Hlen.
  set (forest := map leaf_of frequencies) in *.
  assert (Hforest : (1 <= length forest <= 2 ^ h)%nat).
  { unfold forest. rewrite length_map. unfold StdMap.size in Hsize.
    destruct frequencies; [congruence|cbn [length] in *; lia]. }
  destruct (balanced_spec Encoder.nullptr h forest Hforest) as [Hleaves Hheight].
  set (u := balanced h Encoder.nullptr forest) in *.
  assert (Hu : cost Encoder.frequency_of top <= cost Encoder.frequency_of u).
  { apply Hbest. rewrite Hleaves. reflexivity. }
  assert (Hw : forall a, In a (leaves u) -> 0 <= Encoder.frequency_of a).
  { intros a Ha. rewrite Hleaves in Ha. unfold forest in Ha. apply in_map_iff in Ha.
    destruct Ha as ([k v] & <- & Hin). cbn [leaf_of Encoder.new_node Encoder.frequency_of snd].
    pose proof (calculateFrequencies_positive audioData k v Hin). lia. }
  pose proof (cost_height_bound Encoder.frequency_of u Hw 0 ltac:(lia)) as Hbound.
  fold (cost Encoder.frequency_of u) in Hbound.
  assert (Htotal : zsum (map Encoder.frequency_of (leaves u)) = Z.of_nat (length audioData)).
  { rewrite Hleaves. unfold forest. rewrite map_map.
    rewrite (map_ext _ snd leaf_of_frequency). apply calculateFrequencies_total. }
  rewrite Htotal in Hbound.
  pose proof (height_nonneg Encoder.frequency_of u) as Hh0.
  nia.
Qed.

End PayloadBound.

(** X13.  The payload is never larger than the samples: over a
    conforming queue, the stream written for a sequence whose different
    values number at most [2^h] has at most [h] bits for every sample,
    since the generated table costs no more than the fixed-width code of
    [h] bits; for [int16_t] samples that is at most 16 bits, two packed
    bytes, for every sample. *)
Theorem payload_within_fixed_width :
  forall (H : Encoder.HeapAlgorithms) (header : WavHeader) (audioData : list Z)
         (f : EncodedFile),
    Encoder.conforming H ->
    Encoder.main H header audioData = Ok f ->
    exists encodedData,
      Encoder.encodeAudioData audioData (file_codes f) = Ok encodedData
      /\ file_bytes f = Encoder.pack_bits encodedData 0 0
      /\ (forall h : nat,
            (StdMap.size (Encoder.calculateFrequencies audioData) <= 2 ^ h)%nat ->
            Z.of_nat (length encodedData) <= Z.of_nat h * Z.of_nat (length audioData))
      /\ (Forall is_int16 audioData ->
          (length (file_bytes f) <= 2 * length audioData)%nat).
Proof.
  intros H header audioData f Hconf Hmain.
  assert (Hany : forall h : nat,
            (StdMap.size (Encoder.calculateFrequencies audioData) <= 2 ^ h)%nat ->
            exists encodedData,
              Encoder.encodeAudioData audioData (file_codes f) = Ok encodedData
              /\ file_bytes f = Encoder.pack_bits encodedData 0 0
              /\ Z.of_nat (length encodedData)
                 <= Z.of_nat h * Z.of_nat (length audioData)).
  { intros h Hh.
    destruct (stream_fixed_width H Hconf header audioData f h Hmain Hh)
      as (bits & Henc & _ & Hbytes & Hlen).
    now exists bits. }
  pose proof (Nat.pow_gt_lin_r 2 (StdMap.size (Encoder.calculateFrequencies audioData))
                ltac:(lia)) as Hbig.
  destruct (Hany _ (Nat.lt_le_incl _ _ Hbig)) as (bits & Henc & Hbytes & _).
  exists bits. split; [exact Henc|]. split; [exact Hbytes|]. split.
  - intros h Hh. destruct (Hany h Hh) as (bits' & Henc' & _ & Hlen).
    rewrite Henc in Henc'. injection Henc' as <-. exact Hlen.
  - intros Hint.
    destruct (Hany 16%nat (int16_table_fits audioData Hint)) as (bits' & Henc' & _ & Hlen).
    rewrite Henc in Henc'. injection Henc' as <-.
    rewrite Hbytes, pack_bits_size. lia.
Qed.

Lemma payload_within_fixed_width_witness :
  Encoder.conforming sorted_queue
  /\ Encoder.main sorted_queue example_header example_samples = Ok example_file
  /\ exists encodedData,
       Encoder.encodeAudioData example_samples (file_codes example_file) = Ok encodedData
       /\ file_bytes example_file = Encoder.pack_bits encodedData 0 0
       /\ (forall h : nat,
             (StdMap.size (Encoder.calculateFrequencies example_samples) <= 2 ^ h)%nat ->
             Z.of_nat (length encodedData)
             <= Z.of_nat h * Z.of_nat (length example_samples))
       /\ (Forall is_int16 example_samples ->
           (length (file_bytes example_file) <= 2 * length example_samples)%nat).
Proof.
  assert (Hmain : Encoder.main sorted_queue example_header example_samples
                  = Ok example_file) by (vm_compute; reflexivity).
  split; [exact sorted_queue_conforming|]. split; [exact Hmain|].
  exact (payload_within_fixed_width sorted_queue example_header example_samples
           example_file sorted_queue_conforming Hmain).
Defined.

(** ** Encoder, then decoder, on files *)

Lemma encoded_bits_zsum (codes : StdMap.t cstring) (audioData : list Z) :
  Z.of_nat (encoded_bits codes audioData)
  = zsum (map (fun s => Z.of_nat (length (StdMap.get_or [] s codes))) audioData).
Proof.
  induction audioData as [|s l IH]; [reflexivity|].
  cbn [encoded_bits map]. rewrite zsum_cons, <- IH. lia.
Qed.

(** X1.  Encoding a WAV file and decoding the result gives back the
    file, byte for byte: the 44 bytes of the header and the data the
    header declares.  This holds over any conforming priority queue for a
    file that holds the declared data, with two different samples or
    more, none of them -1, and less than 512 MiB of data or, more
    generally, an encoded stream shorter than 2^32 bits.  The table and
    the counts go through the file: the encoder writes them with
    [saveEncodedFile], the decoder reads them with [readHuffmanCodes]. *)
Theorem file_roundtrip :
  forall (H : Encoder.HeapAlgorithms) (indeterminate : nat -> Z)
         (stream : list Z) (header : WavHeader) (audioData : list Z),
    Encoder.conforming H ->
    Forall is_byte stream ->
    EncoderIO.readWavFile (Some stream) = Ok (Returned (header, audioData)) ->
    (44 + Z.to_nat (data_size header) <= length stream)%nat ->
    two_distinct audioData ->
    ~ In (-1) audioData ->
    data_size header < 2 ^ 29
    \/ (forall f, Encoder.main H header audioData = Ok f ->
          Z.of_nat (encoded_bits (file_codes f) audioData) < two32) ->
    exists encoded,
      EncoderIO.main H 3 (Some stream) true = Ok (0, Some encoded)
      /\ DecoderIO.main indeterminate 3 (Some encoded) true
         = Ok (0, Some (firstn (44 + Z.to_nat (data_size header)) stream)).
Proof.
  intros H indeterminate stream header audioData Hconf Hb Hread Hlong Htwo Hminus Hsmall.
  destruct (readWavFile_whole stream header audioData Hb Hread Hlong)
    as (Hok & Hint & Hbytes).
  destruct (roundtrip_spec H indeterminate header audioData Hconf Htwo Hminus)
    as (f & Hmain & Hdec).
  assert (Hfits : Z.of_nat (encoded_bits (file_codes f) audioData) < two32).
  { destruct Hsmall as [Hsmall|Hfits]; [|exact (Hfits f Hmain)].
    destruct (stream_fixed_width H Hconf header audioData f 16 Hmain
                (int16_table_fits audioData Hint))
      as (bits & Henc & _ & _ & Hlen).
    destruct (encodeAudioData_length _ _ _ Henc) as [_ Hbits].
    rewrite encoded_bits_zsum, <- Hbits.
    pose proof (readWavFile_count _ _ _ Hread) as Hcount.
    pose proof (ok_data_size header Hok) as Hds.
    unfold two32. change (2 ^ 29) with 536870912 in Hsmall.
    change (2 ^ 32) with 4294967296. lia. }
  specialize (Hdec Hfits).
  exists (file_layout f). split.
  - rewrite encoder_main_files, Hread. cbn [bind]. rewrite Hmain. reflexivity.
  - unfold DecoderIO.main. cbn [Z.eqb Pos.eqb negb].
    rewrite (read_file_layout f (encoder_file_ok H Hconf header audioData f Hok Hint Hmain)).
    cbn [bind]. rewrite Hdec. cbn [bind fst snd DecoderIO.saveWavFile].
    now rewrite Hbytes.
Qed.

Lemma file_roundtrip_witness :
  Encoder.conforming sorted_queue
  /\ Forall is_byte example_wav
  /\ EncoderIO.readWavFile (Some example_wav)
     = Ok (Returned (example_header, example_samples))
  /\ (44 + Z.to_nat (data_size example_header) <= length example_wav)%nat
  /\ two_distinct example_samples
  /\ ~ In (-1) example_samples
  /\ (data_size example_header < 2 ^ 29
      \/ (forall f, Encoder.main sorted_queue example_header example_samples = Ok f ->
            Z.of_nat (encoded_bits (file_codes f) example_samples) < two32))
  /\ exists encoded,
       EncoderIO.main sorted_queue 3 (Some example_wav) true = Ok (0, Some encoded)
       /\ DecoderIO.main (fun _ => 0) 3 (Some encoded) true
          = Ok (0, Some (firstn (44 + Z.to_nat (data_size example_header)) example_wav)).
Proof.
  assert (Hread : EncoderIO.readWavFile (Some example_wav)
                  = Ok (Returned (example_header, example_samples)))
    by (vm_compute; reflexivity).
  assert (Hlong : (44 + Z.to_nat (data_size example_header) <= length example_wav)%nat)
    by (vm_compute; lia).
  assert (Hsmall : data_size example_header < 2 ^ 29
                   \/ (forall f,
                         Encoder.main sorted_queue example_header example_samples = Ok f ->
                         Z.of_nat (encoded_bits (file_codes f) example_samples) < two32))
    by (left; reflexivity).
  split; [exact sorted_queue_conforming|]. split; [exact example_wav_bytes|].
  split; [exact Hread|]. split; [exact Hlong|].
  split; [exact example_samples_distinct|]. split; [exact example_samples_no_minus_one|].
  split; [exact Hsmall|].
  exact (file_roundtrip sorted_queue (fun _ => 0) example_wav example_header
           example_samples sorted_queue_conforming example_wav_bytes Hread Hlong
           example_samples_distinct example_samples_no_minus_one Hsmall).
Defined.

(** ** Optimality of the generated table *)

(** X25.  For every non-empty frequency table without the key -1, over any
    conforming priority queue, the generated code table gives every
    sample of the table a code, and the total encoded bit length under
    it, the sum over the samples of frequency times code length, is at
    most the total under any prefix code of bit strings for the same
    table. *)
Theorem generated_table_optimal :
  forall (H : Encoder.HeapAlgorithms) (frequencies : StdMap.t Z),
    Encoder.conforming H ->
    StdMap.wf frequencies ->
    frequencies <> [] ->
    (forall k f, In (k, f) frequencies -> 0 <= f) ->
    ~ In (-1) (StdMap.keys frequencies) ->
    exists huffmanTree total,
      Encoder.buildHuffmanTree H frequencies = Ok huffmanTree
      /\ table_cost frequencies
           (Encoder.generateCodes huffmanTree [] StdMap.empty) = Some total
      /\ forall other total',
           prefix_assignment frequencies other ->
           table_cost frequencies other = Some total' ->
           total <= total'.
Proof.
  intros H frequencies Hconf Hwf Hne Hpos Hminus.
  destruct (buildHuffmanTree_spec H Hconf frequencies Hne) as (t & Hbuild & Hh).
  destruct (huffman_optimal _ _ Hh) as (top & Hj & Hp & Hopt).
  exists t, (cost Encoder.frequency_of top).
  split; [exact Hbuild|]. split.
  - rewrite <- Hj. apply generated_cost; assumption.
  - intros other total' Hpa Htotal.
    destruct (assignment_tree other frequencies total' Hwf Hne Hpos Hpa Htotal)
      as (u & Hu & Hle).
    specialize (Hopt u Hu). lia.
Qed.

Lemma generated_table_optimal_witness :
  Encoder.conforming sorted_queue
  /\ StdMap.wf [(-5, 1); (0, 3); (1, 2)]
  /\ [(-5, 1); (0, 3); (1, 2)] <> []
  /\ (forall k f, In (k, f) [(-5, 1); (0, 3); (1, 2)] -> 0 <= f)
  /\ ~ In (-1) (StdMap.keys [(-5, 1); (0, 3); (1, 2)])
  /\ exists huffmanTree total,
      Encoder.buildHuffmanTree sorted_queue [(-5, 1); (0, 3); (1, 2)] = Ok huffmanTree
      /\ table_cost [(-5, 1); (0, 3); (1, 2)]
           (Encoder.generateCodes huffmanTree [] StdMap.empty) = Some total
      /\ forall other total',
           prefix_assignment [(-5, 1); (0, 3); (1, 2)] other ->
           table_cost [(-5, 1); (0, 3); (1, 2)] other = Some total' ->
           total <= total'.
Proof.
  assert (Hwf : StdMap.wf [(-5, 1); (0, 3); (1, 2)])
    by (repeat constructor).
  assert (Hne : [(-5, 1); (0, 3); (1, 2)] <> []) by discriminate.
  assert (Hpos : forall k f, In (k, f) [(-5, 1); (0, 3); (1, 2)] -> 0 <= f).
  { intros k f [E|[E|[E|[]]]]; injection E as <- <-; lia. }
  assert (Hminus : ~ In (-1) (StdMap.keys [(-5, 1); (0, 3); (1, 2)])).
  { simpl. intros [E|[E|[E|[]]]]; discriminate. }
  split; [exact sorted_queue_conforming|]. split; [exact Hwf|]. split; [exact Hne|].
  split; [exact Hpos|]. split; [exact Hminus|].
  exact (generated_table_optimal sorted_queue [(-5, 1); (0, 3); (1, 2)]
           sorted_queue_conforming Hwf Hne Hpos Hminus).
Defined.
